(** * Route Time Estimator (gpxplanner): the track pipeline of [script.js]

    A shallow embedding of the GPX processing pipeline, the cumulative
    arrays, the roadbook (waypoint) bookkeeping and the leg table of
    [src/script.js], followed by the properties its specification states.

    Modelling conventions
    - A JavaScript number is an exact rational ([Q]) and the equality of
      numbers is [==]; rounding of IEEE doubles is not modelled.  The
      statements follow the expressions of the code and their order, so
      that they do not rest on sums being exact.  A few expressions are
      also evaluated on binary64 floats, as the engine evaluates them: the leg
      formula ([totalH_f]), a turn of the deadband loop
      ([deadbandTurn_f]), the targets of the resampler ([targets_f]) and
      its interpolation ([lerp_f]).
    - A rational is finite.  The resampler is embedded a second time
      ([resampleByDistanceX]) on distances that may not be finite, [None],
      to state what it returns then.
    - [null] is [None]; [a ?? b] is [nullish a b]; arithmetic on [null]
      coerces it to 0 ([num]).
    - Arrays are lists read with stdpp's [!!] and written with [<[i:=x]>].
    - A [Map] keyed by the string ["a|b"] is a [gmap] keyed by the pair
      [(a, b)]: [getLegKey] is injective on pairs of indices.
    - [haversineKm] needs sine, cosine, square root and arc tangent; it is
      a parameter of the model, assumed non-negative where that matters.
    - Loops over the indices of an array are folds over [seq]; the two
      [while] loops that stop at the end of an array at the latest carry
      its length as fuel, which is always enough; the [for] loop of the
      resampler stops on a numeric test, carries fuel and returns [None]
      when it runs out, which stands for a loop that does not end; so
      does the [for ... of] loop of [restorePlanFromJSON], whose body may
      extend the array it walks.
    - A plan file is typed: indices are natural numbers, labels strings,
      stops and markups numbers, flags booleans, each field present or
      absent.  The numbers printed in the cells of the table and read back
      from them are integers. *)

From Stdlib Require Import QArith Qminmax Qabs Qround Lqa Floats Ascii.
From stdpp Require Import gmap strings list fin_maps pretty sorting.

(** ** JavaScript values *)

(** [a ?? b] *)
Definition nullish {A} (a b : option A) : option A :=
  match a with Some x => Some x | None => b end.

Infix "??" := nullish (at level 45, right associativity).

#[global] Instance Q_inhabited : Inhabited Q := populate 0%Q.

(** ToNumber on a number-or-null: [null - null] is [0] in JavaScript. *)
Definition num (x : option Q) : Q := default 0%Q x.

(** [arr[i]] on an array of number-or-null: out of range reads as [null]
    under [??] and [== null]. *)
Definition at_ (arr : list (option Q)) (i : nat) : option Q := mjoin (arr !! i).

Definition Qltb (a b : Q) : bool := if Qlt_le_dec a b then true else false.

(** [Math.sign] *)
Definition sign (x : Q) : Q :=
  if Qlt_le_dec 0 x then 1%Q else if Qlt_le_dec x 0 then (-1)%Q else 0%Q.

(** [Math.round]: the nearest integer, halves towards plus infinity. *)
Definition round (x : Q) : Z := Qfloor (x + (1 # 2)).

(** ** Utils (script.js 919-922) *)

(** [parseFloat] of a form field is [None] when it yields [NaN]. *)
Definition toPosNum (v : option Q) (d : Q) : Q :=
  match v with Some n => if Qltb 0 n then n else d | None => d end.

Definition toNonNegNum (v : option Q) (d : Q) : Q :=
  match v with Some n => if Qle_bool 0 n then n else d | None => d end.

Definition clamp (x a b : Q) : Q := Qmax a (Qmin b x).

Definition clampZ (x a b : Z) : Z := Z.max a (Z.min b x).

Definition clampToOdd (val minOdd maxOdd : Z) : Z :=
  let val := clampZ val minOdd maxOdd in
  if (val mod 2 =? 0)%Z
  then (val + (if (maxOdd <=? val)%Z then -1 else 1))%Z
  else val.

(** ** Track points *)

Record point := mkPoint { lat : Q; lon : Q; ele : option Q }.

(** ** Elevation gap filler (script.js 825-838) *)

(** One pass of [if (out[i].ele == null) out[i].ele = last; else last = out[i].ele]. *)
Fixpoint fillPass (last : option Q) (pts : list point) : list point :=
  match pts with
  | [] => []
  | p :: rest =>
      match ele p with
      | None => mkPoint (lat p) (lon p) last :: fillPass last rest
      | Some e => p :: fillPass (Some e) rest
      end
  end.

(** The second loop runs from the last index down to 0. *)
Definition fillElevationOnPoints (points : list point) : list point :=
  rev (fillPass None (rev (fillPass None points))).

(** ** Median filter (script.js 872-886) *)

Fixpoint insertSorted (x : Q) (l : list Q) : list Q :=
  match l with
  | [] => [x]
  | y :: r => if Qle_bool x y then x :: l else y :: insertSorted x r
  end.

(** [vals.sort((a,b)=>a-b)] *)
Definition sortNum (l : list Q) : list Q := foldr insertSorted [] l.

Definition medianAt (arr : list (option Q)) (half i : nat) : option Q :=
  let n := length arr in
  let start := (i - half)%nat in
  let end_ := Nat.min (n - 1) (i + half) in
  let vals := omap (at_ arr) (seq start (S end_ - start)) in
  match vals with
  | [] => None
  | _ =>
      let vals := sortNum vals in
      let mid := (length vals / 2)%nat in
      if (length vals mod 2 =? 0)%nat
      then Some ((num (vals !! (mid - 1)%nat) + num (vals !! mid)) / 2)%Q
      else vals !! mid
  end.

Definition medianFilter (arr : list (option Q)) (win : nat) : list (option Q) :=
  let half := (win / 2)%nat in
  map (medianAt arr half) (seq 0 (length arr)).

(** ** Deadband filter (script.js 888-916) *)

(** [while (first == null && i0 < n - 1) first = elev[++i0];]
    [i0] grows at every turn, so [length elev] turns are enough. *)
Fixpoint firstNonNull (fuel : nat) (elev : list (option Q))
    (first : option Q) (i0 : nat) : option Q * nat :=
  match fuel with
  | O => (first, i0)
  | S fuel' =>
      match first with
      | Some _ => (first, i0)
      | None =>
          if (i0 <? length elev - 1)%nat
          then firstNonNull fuel' elev (at_ elev (S i0)) (S i0)
          else (first, i0)
      end
  end.

(** The body of [for (let i = i0 + 1; i < n; i++)], on the pair
    [(out, cumErr)]. *)
Definition deadbandStep (elev : list (option Q)) (deadband : Q)
    (acc : list (option Q) * Q) (i : nat) : list (option Q) * Q :=
  let '(out, cumErr) := acc in
  let prev := at_ elev (i - 1) ?? at_ elev i ?? at_ out (i - 1) in
  let cur := at_ elev i ?? prev in
  let delta := (num cur - num prev)%Q in
  let cumErr := (cumErr + delta)%Q in
  if Qltb deadband (Qabs cumErr) then
    let move := (cumErr - sign cumErr * deadband)%Q in
    (<[i := Some (num (at_ out (i - 1)) + move)%Q]> out, (sign cumErr * deadband)%Q)
  else
    (<[i := at_ out (i - 1)]> out, cumErr).

Definition cumulativeDeadbandFilter (elev : list (option Q)) (deadband : Q)
    : list (option Q) :=
  let n := length elev in
  if (n =? 0)%nat then [] else
  let out := replicate n None in
  let '(first, i0) := firstNonNull n elev (at_ elev 0) 0 in
  match first with
  | None => elev
  | Some f =>
      let out := <[i0 := Some f]> out in
      let '(out, _) :=
        foldl (deadbandStep elev deadband) (out, 0%Q) (seq (S i0) (n - S i0)) in
      foldl (fun o k => <[k := at_ o i0]> o) out (seq 0 i0)
  end.

(** ** One turn of the deadband loop on binary64 floats

    Lines 901-912 evaluated as the engine evaluates them, on two present
    samples: the new [out[i]] and the new [cumErr]. *)

(** [Math.sign] *)
Definition sign_f (x : float) : float :=
  if PrimFloat.ltb 0 x then 1%float
  else if PrimFloat.ltb x 0 then (-1)%float else x.

Definition deadbandTurn_f (deadband prevRaw curRaw outPrev cumErr : float)
    : float * float :=
  let delta := (curRaw - prevRaw)%float in
  let cumErr := (cumErr + delta)%float in
  if PrimFloat.ltb deadband (PrimFloat.abs cumErr) then
    let move := (cumErr - sign_f cumErr * deadband)%float in
    ((outPrev + move)%float, (sign_f cumErr * deadband)%float)
  else (outPrev, cumErr).

(** ** Per-step time model (script.js 204-215) *)

Record settings := mkSettings {
  speedFlatKmh : Q;
  speedVertMh : Q;
  downhillFactor : Q;
  spacingM : Q;
  smoothWinM : Q;
  elevDeadbandM : Q
}.

(** [dEleF], from [elevFiltered[i-1]] and [elevFiltered[i]]. *)
Definition dEleFOf (e1 e2 : option Q) : Q := (num (e2 ?? e1) - num (e1 ?? e2))%Q.

Definition ascentOf (dEleF : Q) : Q := if Qltb 0 dEleF then dEleF else 0%Q.

Definition descentOf (dEleF : Q) : Q := if Qltb dEleF 0 then (- dEleF)%Q else 0%Q.

Definition flatTime (cfg : settings) (distKm : Q) : Q := (distKm / speedFlatKmh cfg)%Q.

Definition vertTime (cfg : settings) (ascentM descentM : Q) : Q :=
  let vMag := if Qltb 0 ascentM then ascentM else descentM in
  if Qltb 0 vMag then (vMag / speedVertMh cfg)%Q else 0%Q.

(** [descentM > 0 && descentM >= ascentM] *)
Definition downhill (ascentM descentM : Q) : bool :=
  Qltb 0 descentM && Qle_bool ascentM descentM.

Definition segTime (cfg : settings) (distKm ascentM descentM : Q) : Q :=
  let h := flatTime cfg distKm in
  let v := vertTime cfg ascentM descentM in
  let segTimeH := (Qmax h v + (1 # 2) * Qmin h v)%Q in
  if downhill ascentM descentM then (segTimeH * downhillFactor cfg)%Q else segTimeH.

(** ** Distance resampler (script.js 840-870) *)

#[global] Instance point_inhabited : Inhabited point := populate (mkPoint 0 0 None).

(** Every rational is finite: the [!isFinite(total)] branch of the source
    is kept in the embedding and never taken. *)
Definition isFinite (x : Q) : bool := true.

(** [for (let s = 0; s <= total; s += spacingM) targets.push(s);] *)
Fixpoint targetsLoop (fuel : nat) (s total spacing : Q) (targets : list Q)
    : option (list Q) :=
  match fuel with
  | O => None
  | S fuel' =>
      if Qle_bool s total
      then targetsLoop fuel' (s + spacing)%Q total spacing (targets ++ [s])
      else Some targets
  end.

(** Turns of [targetsLoop] that are enough when [spacing] is positive. *)
Definition targetsFuel (total spacing : Q) : nat :=
  S (S (Z.to_nat (Qfloor (total / spacing)))).

(** [while (j < cum.length && cum[j] < t) j++;] *)
Fixpoint advance (fuel : nat) (cum : list Q) (t : Q) (j : nat) : nat :=
  match fuel with
  | O => j
  | S fuel' =>
      match cum !! j with
      | Some c => if Qltb c t then advance fuel' cum t (S j) else j
      | None => j
      end
  end.

(** The interpolated point between [p0] and [p1] at fraction [a]. *)
Definition interpolate (p0 p1 : point) (a : Q) : point :=
  mkPoint (lat p0 + a * (lat p1 - lat p0))%Q
          (lon p0 + a * (lon p1 - lon p0))%Q
          (match ele p0, ele p1 with
           | Some e0, Some e1 => Some (e0 + a * (e1 - e0))%Q
           | Some e0, None => Some e0
           | None, e1 => e1
           end).

(** The body of [for (const t of targets)], on the pair [(out, j)]. *)
Definition resampleStep (points : list point) (cum : list Q)
    (acc : list point * nat) (t : Q) : list point * nat :=
  let '(out, j) := acc in
  let j := advance (length cum) cum t j in
  if (length cum <=? j)%nat then (out ++ [points !!! (length points - 1)%nat], j)
  else
    let t0 := default 0%Q (cum !! (j - 1)%nat) in
    let t1 := default 0%Q (cum !! j) in
    let p0 := points !!! (j - 1)%nat in
    let p1 := points !!! j in
    let denom := if Qeq_bool (t1 - t0) 0 then 1%Q else (t1 - t0)%Q in
    let a := clamp ((t - t0) / denom) 0 1 in
    (out ++ [interpolate p0 p1 a], j).

Section Geometry.

(** [haversineKm lat1 lon1 lat2 lon2] (script.js 946-951). *)
Variable haversineKm : Q -> Q -> Q -> Q -> Q.

(** The body of [for (let i = 1; i < points.length; i++)]. *)
Definition arcStep (points : list point) (cum : list Q) (i : nat) : list Q :=
  let p := points !!! (i - 1)%nat in
  let q := points !!! i in
  let d := (haversineKm (lat p) (lon p) (lat q) (lon q) * 1000)%Q in
  cum ++ [(default 0 (cum !! (i - 1)%nat) + d)%Q].

(** [cum]: the arc length in metres up to every input point. *)
Definition arcLengths (points : list point) : list Q :=
  foldl (arcStep points) [0%Q] (seq 1 (length points - 1)).

Definition resampleByDistance (points : list point) (spacing : Q)
    : option (list point) :=
  let cum := arcLengths points in
  let total := default 0%Q (last cum) in
  if negb (isFinite total) || Qeq_bool total 0
  then Some (take (Nat.min (length points) 2) points)
  else
    match targetsLoop (targetsFuel total spacing) 0 total spacing [] with
    | None => None
    | Some targets =>
        let targets :=
          match last targets with
          | Some t => if Qltb t total then targets ++ [total] else targets
          | None => targets
          end in
        Some (foldl (resampleStep points cum) ([], 1%nat) targets).1
    end.

(** ** Nearest point (script.js 997-1005)
    [bestD] starts at [Infinity], which is [None] here. *)
Definition nearestIndexOnTrack (la lo : Q) (latlngs : list (Q * Q)) : nat :=
  (foldl (fun (acc : nat * option Q) i =>
            let '(bestIdx, bestD) := acc in
            let '(lb, lob) := default (0%Q, 0%Q) (latlngs !! i) in
            let d := haversineKm la lo lb lob in
            match bestD with
            | None => (i, Some d)
            | Some b => if Qltb d b then (i, Some d) else acc
            end)
         (0%nat, None) (seq 0 (length latlngs))).1.

End Geometry.

(** ** The resampler on distances that are not finite

    [haversineKm] returns [NaN] on coordinates that are not geographic,
    and a sum with a [NaN] or an infinity is not finite either.  Here a
    number that is not finite is [None]: the distance is a function to
    [option Q] and so is every entry of [cum]. *)

Section GeometryNonFinite.

Variable haversineKm : Q -> Q -> Q -> Q -> option Q.

(** The body of [for (let i = 1; i < points.length; i++)]. *)
Definition arcStepX (points : list point) (cum : list (option Q)) (i : nat)
    : list (option Q) :=
  let p := points !!! (i - 1)%nat in
  let q := points !!! i in
  let d := (fun km => km * 1000)%Q <$> haversineKm (lat p) (lon p) (lat q) (lon q) in
  cum ++ [match mjoin (cum !! (i - 1)%nat), d with
          | Some c, Some d => Some (c + d)%Q
          | _, _ => None
          end].

Definition arcLengthsX (points : list point) : list (option Q) :=
  foldl (arcStepX points) [Some 0%Q] (seq 1 (length points - 1)).

(** [resampleByDistance] with the branch [!isFinite(total)] alive.  When
    the total is finite so is every entry of [cum], and the loops read
    them as numbers. *)
Definition resampleByDistanceX (points : list point) (spacing : Q)
    : option (list point) :=
  let cum := arcLengthsX points in
  match mjoin (last cum) with
  | None => Some (take (Nat.min (length points) 2) points)
  | Some total =>
      if Qeq_bool total 0
      then Some (take (Nat.min (length points) 2) points)
      else
        let cum := default 0%Q <$> cum in
        match targetsLoop (targetsFuel total spacing) 0 total spacing [] with
        | None => None
        | Some targets =>
            let targets :=
              match last targets with
              | Some t => if Qltb t total then targets ++ [total] else targets
              | None => targets
              end in
            Some (foldl (resampleStep points cum) ([], 1%nat) targets).1
        end
  end.

End GeometryNonFinite.

(** ** Targets and interpolation on binary64 floats

    Lines 850-851 and the expression of lines 863-864, evaluated as the
    engine evaluates them. *)

(** [for (let s = 0; s <= total; s += spacingM) targets.push(s);] *)
Fixpoint targetsLoop_f (fuel : nat) (s total spacingM : float)
    (targets : list float) : option (list float) :=
  match fuel with
  | O => None
  | S fuel' =>
      if PrimFloat.leb s total
      then targetsLoop_f fuel' (s + spacingM)%float total spacingM (targets ++ [s])
      else Some targets
  end.

Definition targets_f (fuel : nat) (total spacingM : float) : option (list float) :=
  match targetsLoop_f fuel 0%float total spacingM [] with
  | None => None
  | Some targets =>
      Some match last targets with
           | Some t => if PrimFloat.ltb t total then targets ++ [total] else targets
           | None => targets
           end
  end.

(** [p0.lat + a * (p1.lat - p0.lat)] *)
Definition lerp_f (x0 x1 a : float) : float := (x0 + a * (x1 - x0))%float.

(** ** Strings *)

Fixpoint trimStart (s : string) : string :=
  match s with
  | String c r => if Ascii.is_space c then trimStart r else s
  | EmptyString => s
  end.

(** [String.prototype.trim], on the ASCII white space. *)
Definition trim (s : string) : string :=
  String.rev (trimStart (String.rev (trimStart s))).

(** A string is truthy when it is not empty. *)
Definition truthy (s : string) : bool :=
  match s with EmptyString => false | _ => true end.

(** [m.get(k) || d] on a map of strings. *)
Definition getOr (o : option string) (d : string) : string :=
  match o with Some s => if truthy s then s else d | None => d end.

(** ** Global state (script.js 50-69) *)

Record marker := mkMarker { m_idx : nat; m_locked : bool; m_tooltip : string }.

(** One entry of [legEntries] / of the [legs] array of a saved plan. *)
Record legEntry := mkLeg {
  l_idx : nat; l_a : nat; l_b : nat;
  l_distKm : Q; l_ascM : Q; l_desM : Q;
  l_baseH : Q; l_stopsMin : Q; l_condPct : Q; l_totalH : Q
}.

(** One body row of the rendered table. *)
Record tableRow := mkRow {
  r_leg : legEntry; r_label : string; r_critical : bool;
  r_cumDistKm : Q; r_cumAscM : Q; r_cumDesM : Q;
  r_cumTimeAdjH : Q; r_remainingH : Q
}.

(** The content of [outputEl]. *)
Inductive output :=
  | OutEmpty
  | OutMessage (msg : string)
  | OutSummary (distKm ascentM descentM activityTimeH totalTimeH : Q).

Record state := mkState {
  trackLatLngs : list (Q * Q);
  trackBreakIdx : list nat;
  cumDistKm : list Q;
  cumAscentM : list Q;
  cumDescentM : list Q;
  cumTimeH : list Q;
  roadbookIdx : list nat;
  roadbookLabels : gmap nat string;
  legLabels : gmap (nat * nat) string;
  legStopsMin : gmap (nat * nat) Q;
  legCondPct : gmap (nat * nat) Q;
  legCritical : gmap (nat * nat) bool;
  lastTotalAdjustedH : Q;
  markers : list marker;
  outputEl : output;
  roadbooksEl : list tableRow;
  alerts : list string
}.

(** The state when the script has loaded. *)
Definition initialState : state :=
  mkState [] [] [] [] [] [] [] ∅ ∅ ∅ ∅ ∅ 0 [] OutEmpty [] [].

(** ** Leg names (script.js 383-385) *)

Definition getLegKey (a b : nat) : nat * nat := (a, b).

Definition getWaypointLabel (st : state) (idx : nat) : string :=
  getOr (roadbookLabels st !! idx) ("#" +:+ pretty idx).

Definition getDefaultLegLabel (st : state) (a b : nat) : string :=
  getWaypointLabel st a +:+ " → " +:+ getWaypointLabel st b.

(** ** Leg total time on binary64 floats

    The expression of script.js 426 and 616, evaluated as the engine
    evaluates it. *)
Definition totalH_f (baseH condPct stopsMin : float) : float :=
  (baseH * (1 + condPct / 100) + stopsMin / 60)%float.

(** ** Summary card (script.js 965-993) *)

Definition updateSummaryCard (st : state) : state :=
  let out :=
    if bool_decide (length (trackLatLngs st) = 0%nat) ||
       bool_decide (length (cumDistKm st) = 0%nat)
    then OutEmpty
    else
      let activityTimeH := default 0%Q (last (cumTimeH st)) in
      let totalTimeH :=
        if Qeq_bool (lastTotalAdjustedH st) 0 then activityTimeH
        else lastTotalAdjustedH st in
      OutSummary (default 0%Q (last (cumDistKm st)))
                 (default 0%Q (last (cumAscentM st)))
                 (default 0%Q (last (cumDescentM st)))
                 activityTimeH totalTimeH in
  mkState (trackLatLngs st) (trackBreakIdx st) (cumDistKm st) (cumAscentM st)
    (cumDescentM st) (cumTimeH st) (roadbookIdx st) (roadbookLabels st)
    (legLabels st) (legStopsMin st) (legCondPct st) (legCritical st)
    (lastTotalAdjustedH st) (markers st) out (roadbooksEl st) (alerts st).

(** ** Table render (script.js 394-518) *)

Definition setTable (st : state) (total : Q) (rows : list tableRow) : state :=
  mkState (trackLatLngs st) (trackBreakIdx st) (cumDistKm st) (cumAscentM st)
    (cumDescentM st) (cumTimeH st) (roadbookIdx st) (roadbookLabels st)
    (legLabels st) (legStopsMin st) (legCondPct st) (legCritical st)
    total (markers st) (outputEl st) rows (alerts st).

(** The body of [for (let k = 1; k < roadbookIdx.length; k++)] (405-429). *)
Definition renderLeg (st : state) (k : nat) : legEntry :=
  let lastIdx := (length (trackLatLngs st) - 1)%nat in
  let aRaw := default 0%nat (roadbookIdx st !! (k - 1)%nat) in
  let bRaw := default 0%nat (roadbookIdx st !! k) in
  let a := Nat.max 0 (Nat.min aRaw lastIdx) in
  let b := Nat.max 0 (Nat.min bRaw lastIdx) in
  let key := getLegKey a b in
  let dA := default 0%Q (cumDistKm st !! a) in
  let dB := default dA (cumDistKm st !! b) in
  let uA := default 0%Q (cumAscentM st !! a) in
  let uB := default uA (cumAscentM st !! b) in
  let vA := default 0%Q (cumDescentM st !! a) in
  let vB := default vA (cumDescentM st !! b) in
  let tA := default 0%Q (cumTimeH st !! a) in
  let tB := default tA (cumTimeH st !! b) in
  let distKm := (dB - dA)%Q in
  let ascM := (uB - uA)%Q in
  let desM := (vB - vA)%Q in
  let timeH := (tB - tA)%Q in
  let stopsMin := default 0%Q (legStopsMin st !! key) in
  let condPct := default 0%Q (legCondPct st !! key) in
  let totalH := (timeH * (1 + condPct / 100) + stopsMin / 60)%Q in
  mkLeg k a b distKm ascM desM timeH stopsMin condPct totalH.

Definition legEntries (st : state) : list legEntry :=
  map (renderLeg st) (seq 1 (length (roadbookIdx st) - 1)).

(** The body of [for (const L of legEntries)] (459-507), on the running
    sums and the rows so far. *)
Definition renderRow (st : state) (totalAdjustedH : Q)
    (acc : (Q * Q * Q * Q) * list tableRow) (L : legEntry)
    : (Q * Q * Q * Q) * list tableRow :=
  let '((cumDistKmShown, cumAscMShown, cumDesMShown, cumTimeAdjH), rows) := acc in
  let cumDistKmShown := (cumDistKmShown + l_distKm L)%Q in
  let cumAscMShown := (cumAscMShown + l_ascM L)%Q in
  let cumDesMShown := (cumDesMShown + l_desM L)%Q in
  let cumTimeAdjH := (cumTimeAdjH + l_totalH L)%Q in
  let key := getLegKey (l_a L) (l_b L) in
  let autoLabel := getDefaultLegLabel st (l_a L) (l_b L) in
  let displayLabel := getOr (legLabels st !! key) autoLabel in
  let remainingH := (totalAdjustedH - cumTimeAdjH)%Q in
  let isCritical := default false (legCritical st !! key) in
  ((cumDistKmShown, cumAscMShown, cumDesMShown, cumTimeAdjH),
   rows ++ [mkRow L displayLabel isCritical cumDistKmShown cumAscMShown
              cumDesMShown cumTimeAdjH remainingH]).

Definition renderRoadbooksTable (st : state) : state :=
  if bool_decide (length (trackLatLngs st) = 0%nat) ||
     (length (roadbookIdx st) <? 2)%nat
  then updateSummaryCard (setTable st (lastTotalAdjustedH st) [])
  else
    let entries := legEntries st in
    let totalAdjustedH := foldl (fun s L => (s + l_totalH L)%Q) 0%Q entries in
    let rows := (foldl (renderRow st totalAdjustedH) ((0, 0, 0, 0)%Q, []) entries).2 in
    updateSummaryCard (setTable st totalAdjustedH rows).

(** ** Roadbooks: add, remove, labels (script.js 319-380) *)

Definition setRoadbooks (st : state) (idx : list nat) (labels : gmap nat string)
    (ms : list marker) : state :=
  mkState (trackLatLngs st) (trackBreakIdx st) (cumDistKm st) (cumAscentM st)
    (cumDescentM st) (cumTimeH st) idx labels
    (legLabels st) (legStopsMin st) (legCondPct st) (legCritical st)
    (lastTotalAdjustedH st) ms (outputEl st) (roadbooksEl st) (alerts st).

(** [markers.find(mm => mm.__idx === idx)] followed by the tooltip update. *)
Fixpoint setTooltip (idx : nat) (txt : string) (ms : list marker) : list marker :=
  match ms with
  | [] => []
  | m :: r =>
      if (m_idx m =? idx)%nat then mkMarker (m_idx m) (m_locked m) txt :: r
      else m :: setTooltip idx txt r
  end.

Definition setRoadbookLabel (idx : nat) (newLabel : string) (st : state) : state :=
  let label := trim newLabel in
  if bool_decide (idx ∈ roadbookIdx st) then
    let txt := if truthy label then label else "#" +:+ pretty idx in
    setRoadbooks st (roadbookIdx st) (<[idx := txt]> (roadbookLabels st))
      (setTooltip idx txt (markers st))
  else st.

(** [roadbookIdx.indexOf(i)], [-1] when absent. *)
Definition indexOf (i : nat) (l : list nat) : Z :=
  match list_find (fun x => x = i) l with
  | Some (pos, _) => Z.of_nat pos
  | None => (-1)%Z
  end.

Definition addRoadbookIndex (i : nat) (noRender : bool) (label : string)
    (locked : bool) (st : state) : state :=
  let i := Nat.max 0 (Nat.min (length (trackLatLngs st) - 1) i) in
  if bool_decide (i ∈ roadbookIdx st) then
    let newLabel := trim label in
    let cur := roadbookLabels st !! i in
    let st :=
      if truthy newLabel &&
         (negb (truthy (default EmptyString cur)) ||
          bool_decide (cur = Some ("#" +:+ pretty i)))
      then setRoadbookLabel i newLabel st else st in
    if noRender then st else renderRoadbooksTable st
  else
    let idx := merge_sort Nat.le (roadbookIdx st ++ [i]) in
    let initial :=
      if truthy (trim label) then trim label
      else if truthy (default EmptyString (roadbookLabels st !! i))
      then default EmptyString (roadbookLabels st !! i)
      else if (i =? 0)%nat then "Start"
      else if (i =? length (trackLatLngs st) - 1)%nat then "Finish"
      else "WP " +:+ pretty (indexOf i idx) in
    let st :=
      setRoadbooks st idx (<[i := initial]> (roadbookLabels st))
        (markers st ++ [mkMarker i locked initial]) in
    if noRender then st else renderRoadbooksTable st.

(** [arr.splice(pos, 1)] at the first position where [f] holds. *)
Fixpoint removeFirst {A} (f : A -> bool) (l : list A) : list A :=
  match l with
  | [] => []
  | x :: r => if f x then r else x :: removeFirst f r
  end.

(** The click handler that [addRoadbookIndex] attaches to the marker [m]
    (script.js 349-361). *)
Definition markerClick (m : marker) (st : state) : state :=
  if m_locked m then st
  else
    let i := m_idx m in
    let idx := removeFirst (Nat.eqb i) (roadbookIdx st) in
    let ms := removeFirst (fun mm => (m_idx mm =? i)%nat) (markers st) in
    let labels := delete i (roadbookLabels st) in
    let legLabels' :=
      filter (fun kv : (nat * nat) * string => ¬ (kv.1.1 = i ∨ kv.1.2 = i))
             (legLabels st) in
    let stops := delete (i, S i) (legStopsMin st) in
    let cond := delete (i, S i) (legCondPct st) in
    renderRoadbooksTable
      (mkState (trackLatLngs st) (trackBreakIdx st) (cumDistKm st)
         (cumAscentM st) (cumDescentM st) (cumTimeH st) idx labels
         legLabels' stops cond (legCritical st)
         (lastTotalAdjustedH st) ms (outputEl st) (roadbooksEl st) (alerts st)).

(** ** Editors (script.js 540-585): the [blur] and [change] handlers,
    after [sanitizeInt] has read a non-negative integer from the cell. *)

Definition setLegStops (key : nat * nat) (val : nat) (st : state) : state :=
  renderRoadbooksTable
    (mkState (trackLatLngs st) (trackBreakIdx st) (cumDistKm st)
       (cumAscentM st) (cumDescentM st) (cumTimeH st) (roadbookIdx st)
       (roadbookLabels st) (legLabels st)
       (<[key := inject_Z (Z.of_nat val)]> (legStopsMin st))
       (legCondPct st) (legCritical st)
       (lastTotalAdjustedH st) (markers st) (outputEl st) (roadbooksEl st)
       (alerts st)).

Definition setLegCond (key : nat * nat) (val : nat) (st : state) : state :=
  renderRoadbooksTable
    (mkState (trackLatLngs st) (trackBreakIdx st) (cumDistKm st)
       (cumAscentM st) (cumDescentM st) (cumTimeH st) (roadbookIdx st)
       (roadbookLabels st) (legLabels st) (legStopsMin st)
       (<[key := inject_Z (Z.of_nat val)]> (legCondPct st)) (legCritical st)
       (lastTotalAdjustedH st) (markers st) (outputEl st) (roadbooksEl st)
       (alerts st)).

Definition setLegCritical (key : nat * nat) (yes : bool) (st : state) : state :=
  mkState (trackLatLngs st) (trackBreakIdx st) (cumDistKm st)
    (cumAscentM st) (cumDescentM st) (cumTimeH st) (roadbookIdx st)
    (roadbookLabels st) (legLabels st) (legStopsMin st) (legCondPct st)
    (<[key := yes]> (legCritical st))
    (lastTotalAdjustedH st) (markers st) (outputEl st) (roadbooksEl st)
    (alerts st).

(** [setLegLabelByKey] (script.js 387-391) *)
Definition setLegLabelByKey (key : nat * nat) (label : string) (st : state) : state :=
  let txt := trim label in
  mkState (trackLatLngs st) (trackBreakIdx st) (cumDistKm st)
    (cumAscentM st) (cumDescentM st) (cumTimeH st) (roadbookIdx st)
    (roadbookLabels st)
    (if truthy txt then <[key := txt]> (legLabels st) else delete key (legLabels st))
    (legStopsMin st) (legCondPct st) (legCritical st)
    (lastTotalAdjustedH st) (markers st) (outputEl st) (roadbooksEl st)
    (alerts st).

(** ** Save (script.js 589-653) *)

(** One element of the [legs] array of a saved plan. *)
Record planLeg := mkPlanLeg {
  p_leg : legEntry; p_name : string;
  p_cumDistKm : Q; p_cumAscM : Q; p_cumDesM : Q; p_cumTimeAdjH : Q;
  p_critical : bool
}.

(** The body of [for (let k = 1; k < roadbookIdx.length; k++)] (595-629),
    on the running sums and the legs so far. *)
Definition serializeLeg (st : state)
    (acc : (Q * Q * Q * Q) * list planLeg) (k : nat)
    : (Q * Q * Q * Q) * list planLeg :=
  let '((cumDistKmShown, cumAscMShown, cumDesMShown, cumTimeAdjH), legs) := acc in
  let lastIdx := (length (trackLatLngs st) - 1)%nat in
  let aRaw := default 0%nat (roadbookIdx st !! (k - 1)%nat) in
  let bRaw := default 0%nat (roadbookIdx st !! k) in
  let a := Nat.max 0 (Nat.min aRaw lastIdx) in
  let b := Nat.max 0 (Nat.min bRaw lastIdx) in
  let key := getLegKey a b in
  let dA := default 0%Q (cumDistKm st !! a) in
  let dB := default dA (cumDistKm st !! b) in
  let uA := default 0%Q (cumAscentM st !! a) in
  let uB := default uA (cumAscentM st !! b) in
  let vA := default 0%Q (cumDescentM st !! a) in
  let vB := default vA (cumDescentM st !! b) in
  let tA := default 0%Q (cumTimeH st !! a) in
  let tB := default tA (cumTimeH st !! b) in
  let distKm := (dB - dA)%Q in
  let ascM := (uB - uA)%Q in
  let desM := (vB - vA)%Q in
  let baseH := (tB - tA)%Q in
  let stopsMin := default 0%Q (legStopsMin st !! key) in
  let condPct := default 0%Q (legCondPct st !! key) in
  let name := getOr (legLabels st !! key) (getDefaultLegLabel st a b) in
  let totalH := (baseH * (1 + condPct / 100) + stopsMin / 60)%Q in
  let cumDistKmShown := (cumDistKmShown + distKm)%Q in
  let cumAscMShown := (cumAscMShown + ascM)%Q in
  let cumDesMShown := (cumDesMShown + desM)%Q in
  let cumTimeAdjH := (cumTimeAdjH + totalH)%Q in
  ((cumDistKmShown, cumAscMShown, cumDesMShown, cumTimeAdjH),
   legs ++ [mkPlanLeg
              (mkLeg k a b distKm ascM desM baseH stopsMin condPct totalH)
              name cumDistKmShown cumAscMShown cumDesMShown cumTimeAdjH
              (default false (legCritical st !! key))]).

(** The saved plan, without the fields read from the clock and from the
    form ([createdAt], [signature], [settings]). *)
Record plan := mkPlan {
  plan_version : nat;
  plan_roadbookIdx : list nat;
  plan_roadbookLabels : gmap nat string;
  plan_legLabels : gmap (nat * nat) string;
  plan_legStopsMin : gmap (nat * nat) Q;
  plan_legCondPct : gmap (nat * nat) Q;
  plan_legCritical : gmap (nat * nat) bool;
  plan_legs : list planLeg
}.

Definition serializePlan (st : state) : plan :=
  let legs :=
    (foldl (serializeLeg st) ((0, 0, 0, 0)%Q, [])
           (seq 1 (length (roadbookIdx st) - 1))).2 in
  mkPlan 1 (roadbookIdx st) (roadbookLabels st) (legLabels st)
    (legStopsMin st) (legCondPct st) (legCritical st) legs.

(** ** GPX parsing (script.js 746-822)

    The DOM of the parsed file: a [wpt], [rtept] or [trkpt] element with
    its [lat] and [lon] attributes ([None] when [parseFloat] is not
    finite), its [ele] child and the text of its [name], [cmt] and [sym]
    children ([None] when the child is absent). *)
Record gpxPt := mkGpxPt {
  g_lat : option Q; g_lon : option Q; g_ele : option Q;
  g_name : option string; g_cmt : option string; g_sym : option string
}.

Inductive xmlDoc :=
  | ParserError
  | Document (wpts : list gpxPt) (rtepts : list gpxPt) (trksegs : list (list gpxPt)).

(** [{lat, lon, ele}] when [lat] and [lon] are finite. *)
Definition toPoint (pt : gpxPt) : option point :=
  match g_lat pt, g_lon pt with
  | Some la, Some lo => Some (mkPoint la lo (g_ele pt))
  | _, _ => None
  end.

Definition parseGPXToSegments (xml : xmlDoc) : list (list point) :=
  match xml with
  | ParserError => []
  | Document _ rtepts trksegs =>
      match trksegs with
      | _ :: _ =>
          filter (fun arr => (2 <= length arr)%nat) (map (omap toPoint) trksegs)
      | [] =>
          let pts := omap toPoint rtepts in
          if (2 <=? length pts)%nat then [pts] else []
      end
  end.

(** [a?.textContent || b?.textContent || c?.textContent], the empty string
    when all three are absent or empty. *)
Definition firstText (pt : gpxPt) : string :=
  getOr (g_name pt) (getOr (g_cmt pt) (getOr (g_sym pt) EmptyString)).

Definition namedPoint (pt : gpxPt) : option (Q * Q * string) :=
  match g_lat pt, g_lon pt with
  | Some la, Some lo => Some (la, lo, trim (firstText pt))
  | _, _ => None
  end.

(** A track point counts when its first present child among [name],
    [cmt], [sym] has a non-empty trimmed text. *)
Definition namedTrackPoint (pt : gpxPt) : option (Q * Q * string) :=
  match g_name pt ?? g_cmt pt ?? g_sym pt with
  | None => None
  | Some txt =>
      match g_lat pt, g_lon pt with
      | Some la, Some lo =>
          if truthy (trim txt) then Some (la, lo, trim txt) else None
      | _, _ => None
      end
  end.

Definition parseGPXRoadbooks (xml : xmlDoc) : list (Q * Q * string) :=
  match xml with
  | ParserError => []
  | Document wpts rtepts trksegs =>
      omap namedPoint wpts ++ omap namedPoint rtepts ++
      omap namedTrackPoint (concat trksegs)
  end.

(** ** Main flow (script.js 123-291) *)

(** The form: the chosen file and the fields read with [parseFloat]. *)
Record form := mkForm {
  gpxFile : option xmlDoc;
  importRoadbooks : bool;
  f_speedFlat : option Q;
  f_speedVert : option Q;
  f_downhillFactor : option Q;
  f_spacingM : option Q;
  f_smoothWinM : option Q;
  f_elevDeadbandM : option Q
}.

Definition readSettings (f : form) : settings :=
  mkSettings (toPosNum (f_speedFlat f) 4)
             (toPosNum (f_speedVert f) 300)
             (toPosNum (f_downhillFactor f) (6667 # 10000))
             (clamp (toPosNum (f_spacingM f) 5) 1 100)
             (clamp (toPosNum (f_smoothWinM f) 35) 5 500)
             (clamp (toNonNegNum (f_elevDeadbandM f) 2) 0 20).

Definition alert (msg : string) (st : state) : state :=
  mkState (trackLatLngs st) (trackBreakIdx st) (cumDistKm st) (cumAscentM st)
    (cumDescentM st) (cumTimeH st) (roadbookIdx st) (roadbookLabels st)
    (legLabels st) (legStopsMin st) (legCondPct st) (legCritical st)
    (lastTotalAdjustedH st) (markers st) (outputEl st) (roadbooksEl st)
    (alerts st ++ [msg]).

Definition setOutput (out : output) (st : state) : state :=
  mkState (trackLatLngs st) (trackBreakIdx st) (cumDistKm st) (cumAscentM st)
    (cumDescentM st) (cumTimeH st) (roadbookIdx st) (roadbookLabels st)
    (legLabels st) (legStopsMin st) (legCondPct st) (legCritical st)
    (lastTotalAdjustedH st) (markers st) out (roadbooksEl st) (alerts st).

(** [// reset globals] (151-164) *)
Definition resetGlobals (st : state) : state :=
  mkState [] [] [0%Q] [0%Q] [0%Q] [0%Q] [] ∅ ∅ ∅ ∅ ∅
    (lastTotalAdjustedH st) [] (outputEl st) (roadbooksEl st) (alerts st).

(** The track part of the state, as the segment loop updates it. *)
Record track := mkTrack {
  t_latlngs : list (Q * Q);
  t_breaks : list nat;
  t_dist : list Q;
  t_asc : list Q;
  t_des : list Q;
  t_time : list Q
}.

(** [arr[arr.length - 1]] *)
Definition lastOf (arr : list Q) : Q := default 0%Q (last arr).

(** [// push a carry-forward so cum* arrays gain +1 here] (187-192) *)
Definition pushCarry (t : track) : track :=
  mkTrack (t_latlngs t) (t_breaks t)
    (t_dist t ++ [lastOf (t_dist t)]) (t_asc t ++ [lastOf (t_asc t)])
    (t_des t ++ [lastOf (t_des t)]) (t_time t ++ [lastOf (t_time t)]).

Section MainFlow.

Variable haversineKm : Q -> Q -> Q -> Q -> Q.

(** The body of [for (let i = 1; i < resampled.length; i++)] (199-237),
    without the debug rows and the unused running totals. *)
Definition stepBody (cfg : settings) (resampled : list point)
    (elevFiltered : list (option Q)) (t : track) (i : nat) : track :=
  let p1 := resampled !!! (i - 1)%nat in
  let p2 := resampled !!! i in
  let distKm := haversineKm (lat p1) (lon p1) (lat p2) (lon p2) in
  let dEleF := dEleFOf (at_ elevFiltered (i - 1)) (at_ elevFiltered i) in
  let ascentM := ascentOf dEleF in
  let descentM := descentOf dEleF in
  let segTimeH := segTime cfg distKm ascentM descentM in
  mkTrack (t_latlngs t) (t_breaks t)
    (t_dist t ++ [(lastOf (t_dist t) + distKm)%Q])
    (t_asc t ++ [(lastOf (t_asc t) + ascentM)%Q])
    (t_des t ++ [(lastOf (t_des t) + descentM)%Q])
    (t_time t ++ [(lastOf (t_time t) + segTimeH)%Q]).

(** The body of [for (const pts of segments)] (170-241); [None] when the
    resampler does not return. *)
Definition processSegment (cfg : settings) (acc : track * nat)
    (pts : list point) : option (track * nat) :=
  let '(t, globalIdxOffset) := acc in
  if (length pts <? 2)%nat then Some acc
  else
    let filled := fillElevationOnPoints pts in
    match resampleByDistance haversineKm filled (spacingM cfg) with
    | None => None
    | Some resampled =>
        if (length resampled <? 2)%nat then Some acc
        else
          let winSamples :=
            clampToOdd (Z.max 3 (round (smoothWinM cfg / spacingM cfg))) 3 999 in
          let elev := map ele resampled in
          let elevSmooth := medianFilter elev (Z.to_nat winSamples) in
          let elevFiltered := cumulativeDeadbandFilter elevSmooth (elevDeadbandM cfg) in
          let t := mkTrack (t_latlngs t) (t_breaks t ++ [length (t_latlngs t)])
                     (t_dist t) (t_asc t) (t_des t) (t_time t) in
          let t := if (0 <? length (t_latlngs t))%nat then pushCarry t else t in
          let latlngs := map (fun p => (lat p, lon p)) resampled in
          let t := mkTrack (t_latlngs t ++ latlngs) (t_breaks t)
                     (t_dist t) (t_asc t) (t_des t) (t_time t) in
          let t := foldl (stepBody cfg resampled elevFiltered) t
                     (seq 1 (length resampled - 1)) in
          Some (t, (globalIdxOffset + length resampled)%nat)
    end.

Fixpoint processSegments (cfg : settings) (acc : track * nat)
    (segments : list (list point)) : option (track * nat) :=
  match segments with
  | [] => Some acc
  | pts :: rest =>
      match processSegment cfg acc pts with
      | None => None
      | Some acc' => processSegments cfg acc' rest
      end
  end.

Definition trackOf (st : state) : track :=
  mkTrack (trackLatLngs st) (trackBreakIdx st) (cumDistKm st) (cumAscentM st)
    (cumDescentM st) (cumTimeH st).

Definition setTrack (t : track) (st : state) : state :=
  mkState (t_latlngs t) (t_breaks t) (t_dist t) (t_asc t) (t_des t) (t_time t)
    (roadbookIdx st) (roadbookLabels st)
    (legLabels st) (legStopsMin st) (legCondPct st) (legCritical st)
    (lastTotalAdjustedH st) (markers st) (outputEl st) (roadbooksEl st)
    (alerts st).

(** The body of [for (const wp of waypoints)] (259-263). *)
Definition importWaypoint (st : state) (wp : Q * Q * string) : state :=
  let '(la, lo, name) := wp in
  let idx := nearestIndexOnTrack haversineKm la lo (trackLatLngs st) in
  if negb (bool_decide (idx ∈ roadbookIdx st))
  then addRoadbookIndex idx true (if truthy name then name else "WP") false st
  else if negb (truthy (default EmptyString (roadbookLabels st !! idx))) && truthy name
  then setRoadbookLabel idx name st
  else st.

(** The click handler of the Calculate button; [None] when it does not
    return. *)
Definition calculate (f : form) (st : state) : option state :=
  match gpxFile f with
  | None => Some (alert "Please upload a GPX file." st)
  | Some gpx =>
      let cfg := readSettings f in
      if negb (Qltb 0 (speedFlatKmh cfg)) || negb (Qltb 0 (speedVertMh cfg)) ||
         negb (Qltb 0 (downhillFactor cfg))
      then Some (alert "Please provide valid positive numbers for speeds and downhill factor." st)
      else
        let segments := parseGPXToSegments gpx in
        if bool_decide (length segments = 0%nat)
        then Some (setOutput (OutMessage "<p>No track segments found.</p>") st)
        else
          let st := resetGlobals st in
          match processSegments cfg (trackOf st, 0%nat) segments with
          | None => None
          | Some (t, _) =>
              let st := setTrack t st in
              let st :=
                if (2 <=? length (trackLatLngs st))%nat
                then addRoadbookIndex (length (trackLatLngs st) - 1) true "Finish" true
                       (addRoadbookIndex 0 true "Start" true st)
                else st in
              let st :=
                if importRoadbooks f
                then foldl importWaypoint st (parseGPXRoadbooks gpx)
                else st in
              Some (updateSummaryCard (renderRoadbooksTable st))
          end
  end.

End MainFlow.

(** ** Clear button (script.js 295-307) *)

Definition clearRoadbooks (st : state) : state :=
  if bool_decide (length (trackLatLngs st) = 0%nat) then st
  else
    let st :=
      mkState (trackLatLngs st) (trackBreakIdx st) (cumDistKm st) (cumAscentM st)
        (cumDescentM st) (cumTimeH st) [] ∅ ∅ ∅ ∅ ∅
        (lastTotalAdjustedH st) [] (outputEl st) (roadbooksEl st) (alerts st) in
    renderRoadbooksTable
      (addRoadbookIndex (length (trackLatLngs st) - 1) true "Finish" true
         (addRoadbookIndex 0 true "Start" true st)).

(** ** Save and load (script.js 657-684, 936-944) *)

(** The field [n] of [trackSignature()], [None] when it returns [null];
    its other fields are read from the form and never compared. *)
Definition trackSignature (st : state) : option nat :=
  if bool_decide (length (trackLatLngs st) = 0%nat) then None
  else Some (length (trackLatLngs st)).

(** A parsed plan file, as [restorePlanFromJSON] reads it: the [n] of its
    [signature], its array of indices and its five objects, each [None]
    when the file does not have it. The indices are natural numbers, the
    labels strings, the stops and markups numbers and the flags booleans,
    as [serializePlan] writes them. *)
Record planFile := mkPlanFile {
  pf_signature : option nat;
  pf_roadbookIdx : option (list nat);
  pf_roadbookLabels : option (gmap nat string);
  pf_legLabels : option (gmap (nat * nat) string);
  pf_legStopsMin : option (gmap (nat * nat) Q);
  pf_legCondPct : option (gmap (nat * nat) Q);
  pf_legCritical : option (gmap (nat * nat) bool)
}.

(** The click handler of the Save button (679-684), with the file read
    back: [None] when there is no track and nothing is written. *)
Definition savePlan (st : state) : option planFile :=
  if bool_decide (length (trackLatLngs st) = 0%nat) then None
  else
    let data := serializePlan st in
    Some (mkPlanFile (trackSignature st) (Some (plan_roadbookIdx data))
            (Some (plan_roadbookLabels data)) (Some (plan_legLabels data))
            (Some (plan_legStopsMin data)) (Some (plan_legCondPct data))
            (Some (plan_legCritical data))).

(** [for (const i of roadbookIdx)] (671-674). The iterator reads the
    array as the body leaves it, at the position [pos]; [None] when the
    fuel runs out. *)
Fixpoint restoreLoop (fuel pos : nat) (st : state) : option state :=
  match fuel with
  | O => None
  | S fuel' =>
      match roadbookIdx st !! pos with
      | None => Some st
      | Some i =>
          let locked :=
            bool_decide (i = 0%nat) ||
            bool_decide (i = (length (trackLatLngs st) - 1)%nat) in
          restoreLoop fuel' (S pos)
            (addRoadbookIndex i true
               (default EmptyString (roadbookLabels st !! i)) locked st)
      end
  end.

Definition restorePlanFromJSON (p : planFile) (st : state) : option state :=
  let warn :=
    alert "Heads-up: this saved plan may belong to a different GPX or settings." in
  let st :=
    match trackSignature st, pf_signature p with
    | Some n, Some n' => if bool_decide (n = n') then st else warn st
    | _, _ => warn st
    end in
  let st :=
    mkState (trackLatLngs st) (trackBreakIdx st) (cumDistKm st) (cumAscentM st)
      (cumDescentM st) (cumTimeH st)
      (default (roadbookIdx st) (pf_roadbookIdx p))
      (default ∅ (pf_roadbookLabels p)) (default ∅ (pf_legLabels p))
      (default ∅ (pf_legStopsMin p)) (default ∅ (pf_legCondPct p))
      (default ∅ (pf_legCritical p))
      (lastTotalAdjustedH st) [] (outputEl st) (roadbooksEl st) (alerts st) in
  match restoreLoop (length (roadbookIdx st) + 2) 0 st with
  | Some st => Some (renderRoadbooksTable st)
  | None => None
  end.

(** ** Text of the cells (script.js 924-926, 954-963)

    The numbers of this part are integers, exact here; the doubles of the
    source agree with them below [2^53]. *)

(** [\d] *)
Definition isDigit (c : Ascii.ascii) : bool :=
  (48 <=? Ascii.nat_of_ascii c)%nat && (Ascii.nat_of_ascii c <=? 57)%nat.

Definition digitOf (c : Ascii.ascii) : N := N.of_nat (Ascii.nat_of_ascii c - 48).

(** [parseInt(m[0], 10)], on the run of digits that starts the string. *)
Fixpoint scanDigits (s : string) (acc : N) : N :=
  match s with
  | String c r => if isDigit c then scanDigits r (10 * acc + digitOf c)%N else acc
  | EmptyString => acc
  end.

(** [String(str).match(/\d+/)] on the text, then the parse; the default
    when no digit is found. *)
Fixpoint firstDigits (s : string) (def : N) : N :=
  match s with
  | String c r => if isDigit c then scanDigits s 0 else firstDigits r def
  | EmptyString => def
  end.

Definition sanitizeInt (str : option string) (def : N) : N :=
  firstDigits (default EmptyString str) def.

Definition minutesToText (min : N) : string := pretty min +:+ " min".

Definition percentToText (pct : N) : string := pretty pct +:+ " %".

(** [h] and [m] of [fmtHrs], from the integer [totalMinutes]:
    [Math.floor] rounds down, [%] keeps the sign of [totalMinutes]. *)
Definition hrsParts (totalMinutes : Z) : Z * Z :=
  ((totalMinutes / 60)%Z, Z.rem totalMinutes 60).

(** [s.padStart(2, "0")] *)
Definition padStart2 (s : string) : string :=
  match s with
  | EmptyString => "00"
  | String c EmptyString => String "0"%char s
  | _ => s
  end.

Definition fmtHrs (hours : Q) : string :=
  let totalMinutes := round (hours * 60) in
  let '(h, m) := hrsParts totalMinutes in
  pretty h +:+ ":" +:+ padStart2 (pretty m) +:+ " h".

(** [escapeHtml]: the replacement of one character. *)
Definition escapeChar (c : Ascii.ascii) : string :=
  if Ascii.eqb c "&"%char then "&amp;"
  else if Ascii.eqb c "<"%char then "&lt;"
  else if Ascii.eqb c ">"%char then "&gt;"
  else if Ascii.eqb c "034"%char then "&quot;"
  else if Ascii.eqb c "'"%char then "&#39;"
  else String c EmptyString.

Fixpoint escapeHtml (s : string) : string :=
  match s with
  | EmptyString => EmptyString
  | String c r => escapeChar c +:+ escapeHtml r
  end.

(** ** The deadband rule in the words of the specification

    The filter of section 4.4 as its text reads, to compare with
    [cumulativeDeadbandFilter]. *)

(** "nulls treated as carrying forward the prior value" *)
Fixpoint carryForward (prior : Q) (l : list (option Q)) : list Q :=
  match l with
  | [] => []
  | x :: r => let v := default prior x in v :: carryForward v r
  end.

(** The null-filled input: nulls carry the prior value forward, and the
    leading ones are "back-filled with this same first value". [None] when
    no sample is present. *)
Fixpoint nullFilled (l : list (option Q)) : option (list Q) :=
  match l with
  | [] => None
  | Some v :: r => Some (v :: carryForward v r)
  | None :: r =>
      match nullFilled r with
      | Some (v :: f) => Some (v :: v :: f)
      | _ => None
      end
  end.

(** "compute delta = current_raw - previous_raw and add it to cumErr. If
    |cumErr| exceeds the deadband threshold, the output advances by
    cumErr - sign(cumErr)*deadband, and cumErr resets to
    sign(cumErr)*deadband.  If |cumErr| stays within the band, the output
    holds at the previous value." *)
Fixpoint deadbandRule (deadband previous_raw output cumErr : Q)
    (raw : list Q) : list Q :=
  match raw with
  | [] => []
  | current_raw :: rest =>
      let delta := (current_raw - previous_raw)%Q in
      let cumErr := (cumErr + delta)%Q in
      if Qltb deadband (Qabs cumErr) then
        let output := (output + (cumErr - sign cumErr * deadband))%Q in
        output :: deadbandRule deadband current_raw output (sign cumErr * deadband)%Q rest
      else output :: deadbandRule deadband current_raw output cumErr rest
  end.

Definition deadbandSpec (elev : list (option Q)) (deadband : Q) : list (option Q) :=
  match nullFilled elev with
  | Some (first :: rest) =>
      Some first :: map Some (deadbandRule deadband first first 0 rest)
  | _ => elev
  end.

(** Equality of numbers-or-null up to [==]. *)
Definition oeq (x y : option Q) : Prop :=
  match x, y with
  | Some a, Some b => (a == b)%Q
  | None, None => True
  | _, _ => False
  end.

(** ** A distance to run the model with

    A rational stand-in for the great-circle distance, in kilometres: 111
    km for a degree of latitude or of longitude.  It is only used to
    evaluate the model on concrete tracks; the general statements are
    about any non-negative distance. *)
Definition planarKm (lat1 lon1 lat2 lon2 : Q) : Q :=
  (111 * (Qabs (lat2 - lat1) + Qabs (lon2 - lon1)))%Q.

(** The same distance, not finite when a latitude lies beyond 90 degrees. *)
Definition planarX (lat1 lon1 lat2 lon2 : Q) : option Q :=
  if Qle_bool (Qabs lat1) 90 && Qle_bool (Qabs lat2) 90
  then Some (planarKm lat1 lon1 lat2 lon2) else None.

(** * Vocabulary of the statements *)

(** ** Deadband filter *)

(** The samples after [out[i0]] as the loop produces them: the output and
    the accumulated error after every turn, given the raw sample, the
    output and the error of the turn before. *)
Fixpoint dbRun (deadband : Q) (prevRaw : option Q) (o e : Q)
    (rest : list (option Q)) : list (Q * Q) :=
  match rest with
  | [] => []
  | x :: r =>
      let prev := prevRaw ?? x ?? Some o in
      let cur := x ?? prev in
      let e' := (e + (num cur - num prev))%Q in
      if Qltb deadband (Qabs e') then
        let o' := (o + (e' - sign e' * deadband))%Q in
        (o', (sign e' * deadband)%Q) :: dbRun deadband x o' (sign e' * deadband)%Q r
      else (o, e') :: dbRun deadband x o e' r
  end.

(** ** Distance resampler *)

(** [k] as a number. *)
Definition Qn (k : nat) : Q := inject_Z (Z.of_nat k).

(** The targets that the [for] loop pushes from [s] on: [n] of them. *)
Fixpoint ramp (n : nat) (s spacing : Q) : list Q :=
  match n with
  | O => []
  | S n' => s :: ramp n' (s + spacing)%Q spacing
  end.

(** The targets after [if (targets[targets.length - 1] < total) targets.push(total)]. *)
Definition finalTargets (n : nat) (spacing total : Q) : list Q :=
  match last (ramp n 0 spacing) with
  | Some t => if Qltb t total then ramp n 0 spacing ++ [total] else ramp n 0 spacing
  | None => ramp n 0 spacing
  end.

(** The length in metres of the input step from point [i] to point [i+1]. *)
Definition stepLen (haversineKm : Q → Q → Q → Q → Q) (points : list point)
    (i : nat) : Q :=
  let p := points !!! i in
  let q := points !!! S i in
  (haversineKm (lat p) (lon p) (lat q) (lon q) * 1000)%Q.

(** The same length when the distance may not be finite. *)
Definition stepLenX (haversineX : Q → Q → Q → Q → option Q) (points : list point)
    (i : nat) : option Q :=
  let p := points !!! i in
  let q := points !!! S i in
  (fun km => km * 1000)%Q <$> haversineX (lat p) (lon p) (lat q) (lon q).

(** [pt] is the point at arc length [t]: input step [j] is the first one
    whose end is at [t] or beyond, and [pt] lies on it at the fraction
    that the source computes. *)
Definition bracket (points : list point) (cum : list Q) (t : Q) (pt : point) : Prop :=
  ∃ j t0 t1,
    (1 <= j)%nat ∧ cum !! (j - 1)%nat = Some t0 ∧ cum !! j = Some t1 ∧
    (t0 <= t)%Q ∧ (t <= t1)%Q ∧
    (∀ i c, (1 <= i < j)%nat → cum !! i = Some c → (c < t)%Q) ∧
    pt = interpolate (points !!! (j - 1)%nat) (points !!! j)
           (clamp ((t - t0) / (if Qeq_bool (t1 - t0) 0 then 1 else t1 - t0)) 0 1).

(** The elevations are all present or all absent, as the gap filler
    leaves them. *)
Definition uniformEle (points : list point) : Prop :=
  (∀ p, p ∈ points → is_Some (ele p)) ∨ (∀ p, p ∈ points → ele p = None).

(** ** Cumulative arrays *)

(** Every entry is at most the next one. *)
Definition mono (l : list Q) : Prop :=
  ∀ i c c', l !! i = Some c → l !! S i = Some c' → (c <= c')%Q.

(** A prefix-sum array: it starts at 0 and never decreases. *)
Definition cumOk (l : list Q) : Prop := l !! 0%nat = Some 0%Q ∧ mono l.

(** [P] on each of the four cumulative arrays. *)
Definition all4 (P : list Q → Prop) (t : track) : Prop :=
  P (t_dist t) ∧ P (t_asc t) ∧ P (t_des t) ∧ P (t_time t).

(** [R] between each of the four cumulative arrays before and after. *)
Definition rel4 (R : list Q → list Q → Prop) (t t' : track) : Prop :=
  R (t_dist t) (t_dist t') ∧ R (t_asc t) (t_asc t') ∧
  R (t_des t) (t_des t') ∧ R (t_time t) (t_time t').

(** [arr'] is [arr] with [m] more entries. *)
Definition grows (m : nat) (arr arr' : list Q) : Prop :=
  ∃ e, arr' = arr ++ e ∧ length e = m.

(** The entry at [b] repeats the entry before it. *)
Definition seamAt (b : nat) (arr : list Q) : Prop :=
  ∃ c, arr !! (b - 1)%nat = Some c ∧ arr !! b = Some c.

(** One entry per trajectory point; the lone [0] when there is no point. *)
Definition aligned (t : track) : Prop :=
  all4 (fun arr => length arr = Nat.max 1 (length (t_latlngs t))) t.

Definition seams (t : track) : Prop :=
  ∀ b, b ∈ t_breaks t →
       (b < length (t_latlngs t))%nat ∧ ((0 < b)%nat → all4 (seamAt b) t).

(** The cumulative array after the carry-forward of a segment that is not
    the first one. *)
Definition carried (t : track) (arr : list Q) : list Q :=
  if (0 <? length (t_latlngs t))%nat then arr ++ [lastOf arr] else arr.

(** ** Direction of a profile *)

(** [b] is not below [a] on a climb ([up]), not above it on a descent. *)
Definition towards (up : bool) (a b : Q) : Prop :=
  if up then (a <= b)%Q else (b <= a)%Q.

(** ** Waypoints *)

(** The waypoint indices are strictly increasing and on the track; every
    waypoint has a label that is not empty, and exactly one marker, whose
    tooltip is that label. *)
Definition waypointsOk (st : state) : Prop :=
  StronglySorted lt (roadbookIdx st) ∧
  Forall (fun i => (i <= length (trackLatLngs st) - 1)%nat) (roadbookIdx st) ∧
  Forall (fun i => ∃ s, roadbookLabels st !! i = Some s ∧ truthy s = true)
         (roadbookIdx st) ∧
  m_idx <$> markers st ≡ₚ roadbookIdx st ∧
  Forall (fun m => roadbookLabels st !! m_idx m = Some (m_tooltip m)) (markers st).

(** The waypoints Start and Finish, at the first and the last point of
    the track: their labels and their markers, which are locked and come
    first; every other marker is unlocked. *)
Definition startFinish (st : state) : Prop :=
  let n := (length (trackLatLngs st) - 1)%nat in
  roadbookLabels st !! 0%nat = Some "Start" ∧
  roadbookLabels st !! n = Some "Finish" ∧
  ∃ rest, markers st = mkMarker 0 true "Start" :: mkMarker n true "Finish" :: rest ∧
          Forall (fun m => m_locked m = false) rest.

(** No leg has a name, a stop, a condition markup or a critical flag. *)
Definition noLegEdits (st : state) : Prop :=
  legLabels st = ∅ ∧ legStopsMin st = ∅ ∧ legCondPct st = ∅ ∧ legCritical st = ∅.

(** ** Rows of the table *)

(** The running sum of the figure [g] over [legs] as the loops of the
    script compute it: from 0, one leg after the other. *)
Definition runSum (g : legEntry → Q) (legs : list legEntry) : Q :=
  foldl (fun s L => (s + g L)%Q) 0%Q legs.

(** [arr[i] ?? 0] *)
Definition atQ (arr : list Q) (i : nat) : Q := default 0%Q (arr !! i).

(** The row [R] is the row of the leg number [k] of [legs]: its
    accumulated figures are the running sums over the legs up to this
    one. *)
Definition rowSums (legs : list legEntry) (k : nat) (R : tableRow) : Prop :=
  legs !! k = Some (r_leg R) ∧
  r_cumDistKm R = runSum l_distKm (take (S k) legs) ∧
  r_cumAscM R = runSum l_ascM (take (S k) legs) ∧
  r_cumDesM R = runSum l_desM (take (S k) legs) ∧
  r_cumTimeAdjH R = runSum l_totalH (take (S k) legs).

(** The leg [P] of a saved plan holds what the row [R] of the table
    shows. *)
Definition sameLeg (P : planLeg) (R : tableRow) : Prop :=
  p_leg P = r_leg R ∧ p_name P = r_label R ∧ p_critical P = r_critical R ∧
  p_cumDistKm P = r_cumDistKm R ∧ p_cumAscM P = r_cumAscM R ∧
  p_cumDesM P = r_cumDesM R ∧ p_cumTimeAdjH P = r_cumTimeAdjH R.

(** ** Strings *)

(** No character of the string is white space. *)
Fixpoint spaceless (s : string) : bool :=
  match s with
  | EmptyString => true
  | String c r => negb (Ascii.is_space c) && spaceless r
  end.

(** ** Elevation gaps *)

(** The last and the first present elevation of a list of points. *)
Definition lastPresent (pts : list point) : option Q := last (omap ele pts).

Definition firstPresent (pts : list point) : option Q := head (omap ele pts).

(** ** Example states and files *)

(** A track of two points with a base time of 2 hours, a 30 minute stop
    and a 10 percent markup on its only leg. *)
Definition twoHourLeg : state :=
  mkState [(0, 0); (0, 1)]%Q [0%nat] [0; 8]%Q [0; 0]%Q [0; 0]%Q [0; 2]%Q
    [0%nat; 1%nat] ∅ ∅ {[ (0%nat, 1%nat) := 30%Q ]} {[ (0%nat, 1%nat) := 10%Q ]} ∅
    0 [] OutEmpty [] [].

(** A track of five points with the locked Start and Finish. *)
Definition fivePoints : state :=
  addRoadbookIndex 4 true "Finish" true
    (addRoadbookIndex 0 true "Start" true
       (mkState [(0, 0); (0, 1); (0, 2); (0, 3); (0, 4)]%Q [0%nat]
          [0; 1; 2; 3; 4]%Q [0; 0; 0; 0; 0]%Q [0; 0; 0; 0; 0]%Q [0; 1; 2; 3; 4]%Q
          [] ∅ ∅ ∅ ∅ ∅ 0 [] OutEmpty [] [])).

(** The user clicks the map at point 2, then names the first leg, gives
    it a 15 minute stop and a 10 percent markup, and gives the second leg
    a 20 minute stop and marks it critical. *)
Definition withWaypoint : state :=
  setLegCritical (2, 4)%nat true
    (setLegStops (2, 4)%nat 20
       (setLegCond (0, 2)%nat 10
          (setLegStops (0, 2)%nat 15
             (setLegLabelByKey (0, 2)%nat "Climb"
                (addRoadbookIndex 2 false EmptyString false fivePoints))))).

(** A GPX file with one track segment of two points, about 11 metres
    apart. *)
Definition oneSegmentDoc : xmlDoc :=
  Document [] []
    [[mkGpxPt (Some 0%Q) (Some 0%Q) (Some 10%Q) None None None;
      mkGpxPt (Some 0%Q) (Some (1 # 10000)) (Some 12%Q) None None None]].

(** The same file with a second segment, recorded without moving. *)
Definition twoSegmentsDoc : xmlDoc :=
  Document [] []
    [[mkGpxPt (Some 0%Q) (Some 0%Q) (Some 10%Q) None None None;
      mkGpxPt (Some 0%Q) (Some (1 # 10000)) (Some 12%Q) None None None];
     [mkGpxPt (Some 1%Q) (Some 1%Q) None None None None;
      mkGpxPt (Some 1%Q) (Some 1%Q) None None None None]].

(** The form with its fields left empty, so that the defaults apply. *)
Definition oneSegment : form :=
  mkForm (Some oneSegmentDoc) true None None None None None None.

Definition twoSegments : form :=
  mkForm (Some twoSegmentsDoc) true None None None None None None.

(** * Properties *)

(** ** Comparisons and signs *)

Lemma Qltb_true (a b : Q) : Qltb a b = true <-> (a < b)%Q.
Proof.
  unfold Qltb. destruct (Qlt_le_dec a b) as [H | H]; split; intros; try done.
  exfalso. apply (Qlt_irrefl a). eapply Qlt_le_trans; eauto.
Qed.

Lemma Qltb_false (a b : Q) : Qltb a b = false <-> (b <= a)%Q.
Proof.
  unfold Qltb. destruct (Qlt_le_dec a b) as [H | H]; split; intros; try done.
  exfalso. apply (Qlt_irrefl a). eapply Qlt_le_trans; eauto.
Qed.

Ltac case_Qltb :=
  match goal with
  | |- context [Qltb ?a ?b] =>
      let H := fresh "Hlt" in
      destruct (Qltb a b) eqn:H;
      [apply Qltb_true in H | apply Qltb_false in H]
  | |- context [Qle_bool ?a ?b] =>
      let H := fresh "Hle" in
      destruct (Qle_bool a b) eqn:H;
      [apply Qle_bool_iff in H
      | assert (~ (a <= b)%Q) by (rewrite <- Qle_bool_iff, H; discriminate);
        clear H]
  end.

Lemma ascent_descent_cases (dEleF : Q) :
  ((0 < dEleF)%Q ∧ ascentOf dEleF = dEleF ∧ descentOf dEleF = 0%Q) ∨
  ((dEleF < 0)%Q ∧ ascentOf dEleF = 0%Q ∧ descentOf dEleF = (- dEleF)%Q) ∨
  ((dEleF == 0)%Q ∧ ascentOf dEleF = 0%Q ∧ descentOf dEleF = 0%Q).
Proof.
  unfold ascentOf, descentOf. repeat case_Qltb; try lra; auto.
  right; right. repeat split. lra.
Qed.

(** ** Leg table and saved plan *)

Lemma serializeLeg_foldl (st : state) (ks : list nat) acc legs :
  map p_leg (foldl (serializeLeg st) (acc, legs) ks).2 =
  map p_leg legs ++ map (renderLeg st) ks.
Proof.
  revert acc legs. induction ks as [| k ks IH]; intros acc legs; simpl.
  - by rewrite app_nil_r.
  - destruct (serializeLeg st (acc, legs) k) as [acc' legs'] eqn:E.
    destruct acc as [[[d u] v] t]. unfold serializeLeg in E.
    injection E as _ <-. rewrite IH, map_app. simpl. by rewrite <- app_assoc.
Qed.

(** C1. Every leg of the rendered table and every leg of the saved plan
    has [totalH = baseH * (1 + condPct/100) + stopsMin/60], the markup
    applied to the base time before the stop minutes are added; both lists
    hold the same legs, so the table and the plan use the same formula; a
    leg with [baseH = 2], [stopsMin = 30] and [condPct = 10] totals 2.7
    hours, also when the expression is evaluated on binary64 floats. *)
Theorem leg_total_time_composition (st : state) :
  let formula (L : legEntry) :=
    (l_baseH L * (1 + l_condPct L / 100) + l_stopsMin L / 60)%Q in
  Forall (fun L => l_totalH L = formula L) (legEntries st) ∧
  Forall (fun P => l_totalH (p_leg P) = formula (p_leg P))
         (plan_legs (serializePlan st)) ∧
  map p_leg (plan_legs (serializePlan st)) = legEntries st ∧
  (∀ L, L ∈ legEntries st →
        (l_baseH L == 2)%Q → (l_stopsMin L == 30)%Q → (l_condPct L == 10)%Q →
        (l_totalH L == 27 # 10)%Q) ∧
  totalH_f 2 10 30 = 0x1.599999999999ap+1%float.
Proof.
  intros formula.
  assert (Hrender : Forall (fun L => l_totalH L = formula L) (legEntries st)).
  { unfold legEntries. apply Forall_forall. intros L HL.
    apply list_elem_of_fmap in HL as [k [-> _]]. reflexivity. }
  assert (Hsame : map p_leg (plan_legs (serializePlan st)) = legEntries st).
  { unfold serializePlan, legEntries. simpl. by rewrite serializeLeg_foldl. }
  split_and!; auto.
  - rewrite Forall_forall in Hrender. apply Forall_forall. intros P HP.
    apply Hrender. rewrite <- Hsame. by apply list_elem_of_fmap_2.
  - intros L HL Hb Hs Hc. rewrite Forall_forall in Hrender.
    rewrite (Hrender L HL). unfold formula. rewrite Hb, Hs, Hc. reflexivity.
Qed.

Lemma leg_total_time_composition_witness :
  ∃ L, legEntries twoHourLeg = [L] ∧ (l_totalH L == 27 # 10)%Q.
Proof.
  exists (renderLeg twoHourLeg 1). split; [reflexivity |].
  apply (proj1 (proj2 (proj2 (proj2 (leg_total_time_composition twoHourLeg))))).
  - apply list_elem_of_here.
  - vm_compute. reflexivity.
  - vm_compute. reflexivity.
  - vm_compute. reflexivity.
Defined.

(** ** Per-step time model *)

Section StepModel.

Variable haversineKm : Q -> Q -> Q -> Q -> Q.

(** C2. The time that a step adds to [cumTimeH] is
    [max(h, v) + 0.5 * min(h, v)] with [h = distKm / speedFlatKmh] and
    [v = max(ascentM, descentM) / speedVertMh], times [downhillFactor]
    exactly when [descentM > 0] and [descentM >= ascentM]. *)
Theorem step_time_model (cfg : settings) (resampled : list point)
    (elevFiltered : list (option Q)) (t : track) (i : nat)
    (Hvert : (0 < speedVertMh cfg)%Q) :
  let p1 := resampled !!! (i - 1)%nat in
  let p2 := resampled !!! i in
  let distKm := haversineKm (lat p1) (lon p1) (lat p2) (lon p2) in
  let dEleF := dEleFOf (at_ elevFiltered (i - 1)) (at_ elevFiltered i) in
  let ascentM := ascentOf dEleF in
  let descentM := descentOf dEleF in
  let h := (distKm / speedFlatKmh cfg)%Q in
  let v := (Qmax ascentM descentM / speedVertMh cfg)%Q in
  let stepTime := (Qmax h v + (1 # 2) * Qmin h v)%Q in
  ∃ segTimeH,
    t_time (stepBody haversineKm cfg resampled elevFiltered t i) =
      t_time t ++ [(lastOf (t_time t) + segTimeH)%Q] ∧
    ((0 < descentM)%Q ∧ (ascentM <= descentM)%Q →
       (segTimeH == stepTime * downhillFactor cfg)%Q) ∧
    (¬ ((0 < descentM)%Q ∧ (ascentM <= descentM)%Q) →
       (segTimeH == stepTime)%Q).
Proof.
  intros p1 p2 distKm dEleF ascentM descentM h v stepTime.
  exists (segTime cfg distKm ascentM descentM). split; [reflexivity |].
  assert (Hv : (vertTime cfg ascentM descentM == v)%Q).
  { subst v ascentM descentM. unfold vertTime.
    destruct (ascent_descent_cases dEleF) as [(Hd & -> & ->) | [(Hd & -> & ->) | (Hd & -> & ->)]].
    - rewrite (proj2 (Qltb_true 0 dEleF) Hd), (proj2 (Qltb_true 0 dEleF) Hd).
      rewrite Q.max_l by lra. reflexivity.
    - assert (Hn : (0 < - dEleF)%Q) by lra.
      rewrite (proj2 (Qltb_false 0 0) (Qle_refl 0)), (proj2 (Qltb_true _ _) Hn).
      rewrite Q.max_r by lra. reflexivity.
    - rewrite (proj2 (Qltb_false 0 0) (Qle_refl 0)), (proj2 (Qltb_false 0 0) (Qle_refl 0)).
      rewrite Q.max_l by lra. field. lra. }
  assert (Hbase : (Qmax (flatTime cfg distKm) (vertTime cfg ascentM descentM) +
                   (1 # 2) * Qmin (flatTime cfg distKm) (vertTime cfg ascentM descentM)
                   == stepTime)%Q).
  { subst stepTime. unfold flatTime. fold h. by rewrite Hv. }
  unfold segTime, downhill. split.
  - intros [Hpos Hge].
    rewrite (proj2 (Qltb_true _ _) Hpos), (proj2 (Qle_bool_iff _ _) Hge). simpl.
    by rewrite Hbase.
  - intros Hnot. case_Qltb; simpl; [case_Qltb; simpl |]; try done.
    exfalso. apply Hnot. by split.
Qed.

End StepModel.

Lemma step_time_model_witness :
  let cfg := mkSettings 4 300 (2 # 3) 5 35 2 in
  ∃ segTimeH,
    t_time (stepBody planarKm cfg
              [mkPoint 0 0 (Some 10%Q); mkPoint 0 (1 # 1000) (Some 4%Q)]
              [Some 10%Q; Some 4%Q]
              (mkTrack [] [] [0%Q] [0%Q] [0%Q] [0%Q]) 1) = [0%Q; (0 + segTimeH)%Q] ∧
    (segTimeH == 151 # 6000)%Q.
Proof.
  intros cfg.
  destruct (step_time_model planarKm cfg
              [mkPoint 0 0 (Some 10%Q); mkPoint 0 (1 # 1000) (Some 4%Q)]
              [Some 10%Q; Some 4%Q]
              (mkTrack [] [] [0%Q] [0%Q] [0%Q] [0%Q]) 1)
    as (s & Hs & Hdown & _).
  - vm_compute. reflexivity.
  - exists s. split; [exact Hs |].
    rewrite Hdown.
    + vm_compute. reflexivity.
    + split; vm_compute; [reflexivity | discriminate].
Defined.


(** C10. The ascent and the descent of a step come from the one signed
    difference [dEleF] of the filtered elevations, so they are never both
    positive, and the downhill test [descentM > 0 && descentM >= ascentM]
    holds exactly when [descentM > 0]. *)
Theorem ascent_descent_exclusive (e1 e2 : option Q) :
  let dEleF := dEleFOf e1 e2 in
  let ascentM := ascentOf dEleF in
  let descentM := descentOf dEleF in
  (0 <= ascentM)%Q ∧ (0 <= descentM)%Q ∧
  ((ascentM == 0)%Q ∨ (descentM == 0)%Q) ∧
  ¬ ((0 < ascentM)%Q ∧ (0 < descentM)%Q) ∧
  (downhill ascentM descentM = true ↔ (0 < descentM)%Q) ∧
  (((0 < descentM)%Q ∧ (ascentM <= descentM)%Q) ↔ (0 < descentM)%Q).
Proof.
  intros dEleF ascentM descentM. subst ascentM descentM. unfold downhill.
  destruct (ascent_descent_cases dEleF)
    as [(Hd & -> & ->) | [(Hd & -> & ->) | (Hd & -> & ->)]];
    split_and!; try lra; try (left; lra); try (right; lra).
  - rewrite andb_true_iff, Qltb_true. intuition lra.
  - rewrite andb_true_iff, Qltb_true, Qle_bool_iff. intuition lra.
  - rewrite andb_true_iff, Qltb_true. intuition lra.
Qed.

(** ** Validation of the form *)

Lemma toPosNum_pos (v : option Q) (d : Q) : (0 < d)%Q → (0 < toPosNum v d)%Q.
Proof.
  intros Hd. unfold toPosNum. destruct v as [n |]; [| done].
  by case_Qltb.
Qed.

Lemma clamp_bounds (x a b : Q) : (a <= b)%Q → (a <= clamp x a b)%Q ∧ (clamp x a b <= b)%Q.
Proof.
  intros Hab. unfold clamp. split.
  - apply Q.le_max_l.
  - apply Q.max_lub; [done | apply Q.le_min_l].
Qed.

Lemma readSettings_valid (f : form) :
  let cfg := readSettings f in
  (0 < speedFlatKmh cfg)%Q ∧ (0 < speedVertMh cfg)%Q ∧ (0 < downhillFactor cfg)%Q ∧
  (1 <= spacingM cfg)%Q ∧ (0 <= elevDeadbandM cfg)%Q.
Proof.
  simpl. split_and!; try (apply toPosNum_pos; reflexivity).
  - by apply clamp_bounds.
  - by apply clamp_bounds.
Qed.

Lemma settings_check_passes (f : form) :
  let cfg := readSettings f in
  negb (Qltb 0 (speedFlatKmh cfg)) || negb (Qltb 0 (speedVertMh cfg)) ||
  negb (Qltb 0 (downhillFactor cfg)) = false.
Proof.
  intros cfg. destruct (readSettings_valid f) as (H1 & H2 & H3 & _).
  fold cfg in H1, H2, H3.
  by rewrite (proj2 (Qltb_true _ _) H1), (proj2 (Qltb_true _ _) H2),
    (proj2 (Qltb_true _ _) H3).
Qed.

(** ** Runs that find no segment *)

(** C9. When the chosen file parses to no usable segment (a parser error
    included), the run ends with the message "No track segments found."
    in the output and leaves the trajectory, the cumulative arrays, the
    waypoints with their labels and markers and the leg overrides as they
    were. *)
Theorem no_segments_no_mutation (haversineKm : Q → Q → Q → Q → Q)
    (f : form) (st : state) (gpx : xmlDoc)
    (Hfile : gpxFile f = Some gpx)
    (Hnone : parseGPXToSegments gpx = []) :
  parseGPXToSegments ParserError = [] ∧
  ∃ st', calculate haversineKm f st = Some st' ∧
    outputEl st' = OutMessage "<p>No track segments found.</p>" ∧
    trackLatLngs st' = trackLatLngs st ∧
    trackBreakIdx st' = trackBreakIdx st ∧
    cumDistKm st' = cumDistKm st ∧
    cumAscentM st' = cumAscentM st ∧
    cumDescentM st' = cumDescentM st ∧
    cumTimeH st' = cumTimeH st ∧
    roadbookIdx st' = roadbookIdx st ∧
    roadbookLabels st' = roadbookLabels st ∧
    markers st' = markers st ∧
    legLabels st' = legLabels st ∧
    legStopsMin st' = legStopsMin st ∧
    legCondPct st' = legCondPct st ∧
    legCritical st' = legCritical st ∧
    lastTotalAdjustedH st' = lastTotalAdjustedH st ∧
    roadbooksEl st' = roadbooksEl st.
Proof.
  split; [reflexivity |].
  exists (setOutput (OutMessage "<p>No track segments found.</p>") st).
  split; [| by split_and!].
  unfold calculate. rewrite Hfile, settings_check_passes, Hnone. reflexivity.
Qed.

Lemma no_segments_no_mutation_witness :
  ∃ st',
    calculate planarKm (mkForm (Some ParserError) true None None None None None None)
      twoHourLeg = Some st' ∧
    outputEl st' = OutMessage "<p>No track segments found.</p>" ∧
    cumTimeH st' = [0; 2]%Q ∧ roadbookIdx st' = [0; 1]%nat.
Proof.
  destruct (no_segments_no_mutation planarKm
              (mkForm (Some ParserError) true None None None None None None)
              twoHourLeg ParserError eq_refl eq_refl)
    as (_ & st' & Hrun & Hout & _ & _ & _ & _ & _ & Htime & Hidx & _).
  exists st'. by split_and!.
Defined.

(** ** Removing a waypoint *)

(** C8 on the code: clicking the marker of the interior waypoint 2 removes
    the waypoint and the custom label of the leg that ended there, but the
    stop minutes, the condition percent and the criticality flag stored
    under the keys [0|2] and [2|4] all stay in their maps. *)
Theorem markerClick_keeps_overrides :
  let st' := markerClick (mkMarker 2 false "WP 1") withWaypoint in
  markers withWaypoint !! 2%nat = Some (mkMarker 2 false "WP 1") ∧
  roadbookIdx withWaypoint = [0; 2; 4]%nat ∧
  roadbookIdx st' = [0; 4]%nat ∧
  legLabels withWaypoint !! (0, 2)%nat = Some "Climb" ∧
  legLabels st' !! (0, 2)%nat = None ∧
  legStopsMin st' !! (0, 2)%nat = Some 15%Q ∧
  legStopsMin st' !! (2, 4)%nat = Some 20%Q ∧
  legCondPct st' !! (0, 2)%nat = Some 10%Q ∧
  legCritical st' !! (2, 4)%nat = Some true.
Proof. vm_compute. by split_and!. Qed.

(** ** Deadband filter *)

Lemma at_lookup (arr : list (option Q)) (i : nat) (x : option Q) :
  arr !! i = Some x → at_ arr i = x.
Proof. unfold at_. by intros ->. Qed.

Lemma firstNonNull_inv (elev : list (option Q)) (fuel i0 : nat) (first : option Q) :
  first = at_ elev i0 →
  (∀ k, (k < i0)%nat → at_ elev k = None) →
  (i0 < length elev)%nat → (length elev <= fuel + i0)%nat →
  ∃ f j, firstNonNull fuel elev first i0 = (f, j) ∧
    (j < length elev)%nat ∧ f = at_ elev j ∧
    (∀ k, (k < j)%nat → at_ elev k = None) ∧
    (f = None → j = (length elev - 1)%nat).
Proof.
  revert i0 first. induction fuel as [| fuel IH]; intros i0 first Hf Hnull Hlt Hfuel.
  - lia.
  - simpl. destruct first as [v |].
    + exists (Some v), i0. by split_and!.
    + destruct (i0 <? length elev - 1)%nat eqn:E.
      * apply Nat.ltb_lt in E.
        apply IH; [done | | lia | lia].
        intros k Hk. destruct (decide (k = i0)) as [-> | Hne]; [done |].
        apply Hnull. lia.
      * apply Nat.ltb_ge in E. exists None, i0. split_and!; try done. lia.
Qed.

Lemma firstNonNull_found (elev : list (option Q)) (first : Q) (i0 : nat) :
  elev !! i0 = Some (Some first) →
  (∀ k, (k < i0)%nat → elev !! k = Some None) →
  firstNonNull (length elev) elev (at_ elev 0) 0 = (Some first, i0).
Proof.
  intros Hfirst Hnull.
  assert (Hlen : (i0 < length elev)%nat) by (by eapply lookup_lt_Some).
  destruct (firstNonNull_inv elev (length elev) 0 (at_ elev 0))
    as (f & j & -> & Hj & Hf & Hbefore & Hlast); try done; try lia.
  assert (j = i0) as ->.
  { destruct (Nat.lt_trichotomy j i0) as [Hlt | [-> | Hgt]]; [| done |].
    - rewrite (at_lookup _ _ _ (Hnull j Hlt)) in Hf. specialize (Hlast Hf). lia.
    - specialize (Hbefore i0 Hgt). by rewrite (at_lookup _ _ _ Hfirst) in Hbefore. }
  by rewrite Hf, (at_lookup _ _ _ Hfirst).
Qed.

Lemma deadbandStep_S (elev : list (option Q)) (d : Q) (out : list (option Q))
    (e o : Q) (i : nat) (x : option Q) :
  at_ elev (S i) = x → at_ out i = Some o →
  deadbandStep elev d (out, e) (S i) =
    let prev := at_ elev i ?? x ?? Some o in
    let e' := (e + (num (x ?? prev) - num prev))%Q in
    if Qltb d (Qabs e')
    then (<[S i := Some (o + (e' - sign e' * d))%Q]> out, (sign e' * d)%Q)
    else (<[S i := Some o]> out, e').
Proof.
  intros <- Ho. unfold deadbandStep. cbn [Nat.sub]. rewrite Nat.sub_0_r, Ho.
  reflexivity.
Qed.

Lemma deadband_loop (elev : list (option Q)) (d : Q) (rest : list (option Q)) :
  ∀ (i : nat) (out : list (option Q)) (e o : Q),
    drop (S i) elev = rest →
    length out = length elev →
    out !! i = Some (Some o) →
    let out' := (foldl (deadbandStep elev d) (out, e) (seq (S i) (length rest))).1 in
    length out' = length elev ∧
    ∀ k, out' !! k =
         if decide (i < k < length elev)%nat
         then Some (Some (dbRun d (at_ elev i) o e rest !!! (k - S i)%nat).1)
         else out !! k.
Proof.
  induction rest as [| x r IH]; intros i out e o Hdrop Hlen Hi;
    cbn [length seq foldl dbRun].
  - split; [done |]. intros k. case_decide as Hk; [| done].
    assert (length (drop (S i) elev) = 0%nat) by by rewrite Hdrop.
    rewrite length_drop in *. lia.
  - assert (Hx : elev !! S i = Some x).
    { pose proof (lookup_drop elev (S i) 0) as H.
      rewrite Hdrop, Nat.add_0_r in H. by rewrite <- H. }
    assert (HSi : (S i < length elev)%nat) by (by eapply lookup_lt_Some).
    assert (Hr : drop (S (S i)) elev = r).
    { replace (S (S i)) with (S i + 1)%nat by lia. by rewrite <- drop_drop, Hdrop. }
    rewrite (deadbandStep_S elev d out e o i x (at_lookup _ _ _ Hx) (at_lookup _ _ _ Hi)).
    cbv zeta.
    set (prev := at_ elev i ?? x ?? Some o).
    set (e' := (e + (num (x ?? prev) - num prev))%Q).
    destruct (Qltb d (Qabs e')) eqn:Hmove.
    + set (o' := (o + (e' - sign e' * d))%Q).
      destruct (IH (S i) (<[S i := Some o']> out) (sign e' * d)%Q o' Hr)
        as [Hlen' Hlook].
      { by rewrite length_insert. }
      { apply list_lookup_insert_eq. lia. }
      split; [done |]. intros k. rewrite Hlook.
      rewrite (at_lookup _ _ _ Hx).
      repeat case_decide; try lia.
      * replace (k - S i)%nat with (S (k - S (S i))) by lia. done.
      * assert (k = S i) as -> by lia.
        rewrite list_lookup_insert_eq by lia. by rewrite Nat.sub_diag.
      * rewrite list_lookup_insert_ne by lia. done.
    + destruct (IH (S i) (<[S i := Some o]> out) e' o Hr) as [Hlen' Hlook].
      { by rewrite length_insert. }
      { apply list_lookup_insert_eq. lia. }
      split; [done |]. intros k. rewrite Hlook.
      rewrite (at_lookup _ _ _ Hx).
      repeat case_decide; try lia.
      * replace (k - S i)%nat with (S (k - S (S i))) by lia. done.
      * assert (k = S i) as -> by lia.
        rewrite list_lookup_insert_eq by lia. by rewrite Nat.sub_diag.
      * rewrite list_lookup_insert_ne by lia. done.
Qed.

Lemma backfill_loop (i0 : nat) (v : option Q) :
  ∀ (j : nat) (out : list (option Q)),
    (j <= i0)%nat → (i0 < length out)%nat → out !! i0 = Some v →
    let out' := foldl (fun o k => <[k := at_ o i0]> o) out (seq (i0 - j) j) in
    length out' = length out ∧
    ∀ k, out' !! k = if decide (i0 - j <= k < i0)%nat then Some v else out !! k.
Proof.
  induction j as [| j IH]; intros out Hj Hlen Hv; simpl.
  - split; [done |]. intros k. case_decide; [lia | done].
  - rewrite (at_lookup _ _ _ Hv).
    replace (S (i0 - S j)) with (i0 - j)%nat by lia.
    destruct (IH (<[(i0 - S j)%nat := v]> out)) as [Hlen' Hlook].
    { lia. }
    { by rewrite length_insert. }
    { rewrite list_lookup_insert_ne by lia. done. }
    rewrite length_insert in Hlen'. split; [done |].
    intros k. rewrite Hlook. repeat case_decide; try lia; try done.
    + assert (k = (i0 - S j)%nat) as -> by lia.
      apply list_lookup_insert_eq. lia.
    + rewrite list_lookup_insert_ne by lia. done.
Qed.

(** The filter, sample by sample: the first present sample up to its
    index, then the outputs of [dbRun]. *)
Lemma deadband_lookup (elev : list (option Q)) (d first : Q) (i0 : nat) :
  elev !! i0 = Some (Some first) →
  (∀ k, (k < i0)%nat → elev !! k = Some None) →
  let out := cumulativeDeadbandFilter elev d in
  let run := dbRun d (Some first) first 0 (drop (S i0) elev) in
  length out = length elev ∧
  ∀ k, (k < length elev)%nat →
       out !! k = Some (Some (if decide (k <= i0)%nat then first
                              else (run !!! (k - S i0)%nat).1)).
Proof.
  intros Hfirst Hnull out run.
  assert (Hi0 : (i0 < length elev)%nat) by (by eapply lookup_lt_Some).
  subst out. unfold cumulativeDeadbandFilter.
  destruct (Nat.eqb_spec (length elev) 0) as [Hz | _]; [lia |].
  rewrite (firstNonNull_found elev first i0 Hfirst Hnull).
  set (out0 := <[i0 := Some first]> (replicate (length elev) None)).
  assert (Hlen0 : length out0 = length elev).
  { subst out0. by rewrite length_insert, length_replicate. }
  assert (Hout0 : out0 !! i0 = Some (Some first)).
  { subst out0. apply list_lookup_insert_eq. by rewrite length_replicate. }
  destruct (deadband_loop elev d (drop (S i0) elev) i0 out0 0%Q first eq_refl Hlen0 Hout0)
    as [Hlen1 Hlook1].
  rewrite length_drop in Hlen1, Hlook1.
  destruct (foldl (deadbandStep elev d) (out0, 0%Q) (seq (S i0) (length elev - S i0)))
    as [out1 e1] eqn:Hloop.
  simpl in Hlen1, Hlook1.
  rewrite (at_lookup _ _ _ Hfirst) in Hlook1. fold run in Hlook1.
  assert (Hout1 : out1 !! i0 = Some (Some first)).
  { rewrite Hlook1. case_decide; [lia | done]. }
  destruct (backfill_loop i0 (Some first) i0 out1) as [Hlen2 Hlook2]; try done; try lia.
  rewrite Nat.sub_diag in Hlen2, Hlook2.
  split; [congruence |].
  intros k Hk. rewrite Hlook2, Hlook1.
  repeat case_decide; try lia; try done.
  assert (k = i0) as -> by lia. subst out0. done.
Qed.

Lemma sign_eq (a b : Q) : (a == b)%Q → sign a = sign b.
Proof.
  intros H. unfold sign.
  destruct (Qlt_le_dec 0 a), (Qlt_le_dec 0 b); try lra; try done.
  destruct (Qlt_le_dec a 0), (Qlt_le_dec b 0); try lra; done.
Qed.

(** One turn of the loop on an accumulated error that equals [E]. *)
Lemma deadband_branch (d o e' E : Q) :
  (e' == E)%Q →
  let res :=
    if Qltb d (Qabs e') then ((o + (e' - sign e' * d))%Q, (sign e' * d)%Q)
    else (o, e') in
  ((d < Qabs E)%Q → (res.1 == o + (E - sign E * d))%Q ∧ (res.2 == sign E * d)%Q) ∧
  ((Qabs E <= d)%Q → (res.1 == o)%Q ∧ (res.2 == E)%Q).
Proof.
  intros Heq res. subst res.
  assert (Habs : (Qabs e' == Qabs E)%Q) by (by rewrite Heq).
  rewrite (sign_eq _ _ Heq).
  case_Qltb; simpl; split; intros Hc; try lra; split; try lra.
Qed.

(** The difference of two raw samples, [0] when one of them is null. *)
Lemma raw_delta (p x : option Q) (o : Q) :
  let prev := p ?? x ?? Some o in
  let cur := x ?? prev in
  (num cur - num prev ==
   match p, x with Some a, Some c => c - a | _, _ => 0 end)%Q.
Proof. destruct p as [a |], x as [c |]; simpl; ring. Qed.

Lemma dbRun_rule (d : Q) (rest : list (option Q)) :
  ∀ (p : option Q) (o e : Q) (j : nat),
    (j < length rest)%nat →
    let raw := p :: rest in
    let run := (o, e) :: dbRun d p o e rest in
    ∃ o_prev e_prev o_j e_j,
      run !! j = Some (o_prev, e_prev) ∧ run !! S j = Some (o_j, e_j) ∧
      let delta :=
        match mjoin (raw !! j), mjoin (raw !! S j) with
        | Some a, Some c => (c - a)%Q
        | _, _ => 0%Q
        end in
      let E := (e_prev + delta)%Q in
      ((d < Qabs E)%Q → (o_j == o_prev + (E - sign E * d))%Q ∧ (e_j == sign E * d)%Q) ∧
      ((Qabs E <= d)%Q → (o_j == o_prev)%Q ∧ (e_j == E)%Q).
Proof.
  induction rest as [| x r IH]; intros p o e j Hj; cbn [length] in Hj; [lia |].
  cbn [dbRun]. cbv zeta.
  set (prev := p ?? x ?? Some o).
  set (e' := (e + (num (x ?? prev) - num prev))%Q).
  assert (He' : (e' == e + match p, x with Some a, Some c => c - a | _, _ => 0 end)%Q).
  { subst e' prev. by rewrite raw_delta. }
  pose proof (deadband_branch d o e' _ He') as Hbranch. cbv zeta in Hbranch.
  destruct j as [| j].
  - destruct (Qltb d (Qabs e')); do 4 eexists; (split; [reflexivity |]);
      (split; [reflexivity |]); exact Hbranch.
  - destruct (Qltb d (Qabs e')).
    + destruct (IH x (o + (e' - sign e' * d))%Q (sign e' * d)%Q j) as
        (o1 & e1 & o2 & e2 & H1 & H2 & Hrule); [lia |].
      exists o1, e1, o2, e2. split; [exact H1 | split; [exact H2 | exact Hrule]].
    + destruct (IH x o e' j) as (o1 & e1 & o2 & e2 & H1 & H2 & Hrule); [lia |].
      exists o1, e1, o2, e2. split; [exact H1 | split; [exact H2 | exact Hrule]].
Qed.

(** C3, as the code has it. From the first present sample [first], at
    index [i0], the filter keeps an accumulated error [cumErr], 0 at [i0].
    At every later index [i], [delta] is [elev[i] - elev[i-1]] when both
    samples are present and 0 when either is null; [delta] is added to the
    error; when the absolute error exceeds the deadband the output advances
    by [cumErr - sign(cumErr) * deadband] and the error becomes
    [sign(cumErr) * deadband]; otherwise the output holds the previous
    value and the error is kept.  Up to [i0] the output is [first]. *)
Theorem deadband_step_rule (elev : list (option Q)) (deadband first : Q) (i0 : nat)
    (Hfirst : elev !! i0 = Some (Some first))
    (Hnull : ∀ k, (k < i0)%nat → elev !! k = Some None) :
  let out := cumulativeDeadbandFilter elev deadband in
  length out = length elev ∧
  (∀ k, (k <= i0)%nat → out !! k = Some (Some first)) ∧
  ∃ cumErr : nat → Q,
    cumErr i0 = 0%Q ∧
    ∀ i, (i0 < i < length elev)%nat →
      ∃ o_prev o,
        out !! (i - 1)%nat = Some (Some o_prev) ∧ out !! i = Some (Some o) ∧
        let delta :=
          match at_ elev (i - 1), at_ elev i with
          | Some previous_raw, Some current_raw => (current_raw - previous_raw)%Q
          | _, _ => 0%Q
          end in
        let e := (cumErr (i - 1)%nat + delta)%Q in
        ((deadband < Qabs e)%Q →
           (o == o_prev + (e - sign e * deadband))%Q ∧
           (cumErr i == sign e * deadband)%Q) ∧
        ((Qabs e <= deadband)%Q → (o == o_prev)%Q ∧ (cumErr i == e)%Q).
Proof.
  intros out.
  assert (Hi0 : (i0 < length elev)%nat) by (by eapply lookup_lt_Some).
  destruct (deadband_lookup elev deadband first i0 Hfirst Hnull) as [Hlen Hlook].
  fold out in Hlen, Hlook.
  set (rest := drop (S i0) elev) in *.
  set (run := (first, 0%Q) :: dbRun deadband (Some first) first 0 rest).
  assert (Hraw : drop i0 elev = Some first :: rest) by (by apply drop_S).
  split; [done |]. split.
  { intros k Hk. rewrite Hlook by lia. by case_decide; [| lia]. }
  exists (fun i => (run !!! (i - i0)%nat).2). split.
  { by rewrite Nat.sub_diag. }
  intros i Hi.
  destruct (dbRun_rule deadband rest (Some first) first 0 (i - S i0))
    as (o_prev & e_prev & o & e_i & Hprev & Hcur & Hrule).
  { subst rest. rewrite length_drop. lia. }
  fold run in Hprev, Hcur.
  replace (S (i - S i0)) with (i - i0)%nat in Hcur, Hrule by lia.
  exists o_prev, o. split_and!.
  - rewrite Hlook by lia. do 2 f_equal. case_decide.
    + assert (i - S i0 = 0)%nat as Hz by lia. rewrite Hz in Hprev. unfold run in Hprev.
      cbn in Hprev. congruence.
    + replace (i - S i0)%nat with (S (i - 1 - S i0)) in Hprev by lia.
      unfold run in Hprev. cbn in Hprev. by rewrite (list_lookup_total_correct _ _ _ Hprev).
  - rewrite Hlook by lia. do 2 f_equal. case_decide; [lia |].
    replace (i - i0)%nat with (S (i - S i0)) in Hcur by lia.
    unfold run in Hcur. cbn in Hcur. by rewrite (list_lookup_total_correct _ _ _ Hcur).
  - cbv zeta.
    replace (i - 1 - i0)%nat with (i - S i0)%nat by lia.
    rewrite (list_lookup_total_correct _ _ _ Hprev).
    rewrite (list_lookup_total_correct _ _ _ Hcur).
    rewrite <- Hraw, !lookup_drop in Hrule.
    replace (i0 + (i - S i0))%nat with (i - 1)%nat in Hrule by lia.
    replace (i0 + (i - i0))%nat with i in Hrule by lia.
    exact Hrule.
Qed.

Lemma deadband_step_rule_witness :
  let elev := [None; Some 10; None; Some 20; Some 25]%Q in
  let out := cumulativeDeadbandFilter elev 2 in
  length out = 5%nat ∧ ∀ k, (k <= 1)%nat → out !! k = Some (Some 10%Q).
Proof.
  intros elev out.
  assert (Hnull : ∀ k, (k < 1)%nat → elev !! k = Some None).
  { intros k Hk. destruct k; [reflexivity | lia]. }
  destruct (deadband_step_rule elev 2 10 1 eq_refl Hnull) as (Hlen & Hlead & _).
  split; [exact Hlen | exact Hlead].
Defined.

(** C3 as the specification words it ([deadbandSpec]: a null carries the
    prior value forward, so the sample after a gap is compared with the
    sample before the gap) fails on the code: for the samples 10, null, 20
    and a deadband of 2 the rule gives 10, 10, 18 and the code 10, 10, 10. *)
Lemma deadband_spec_counterexample :
  ¬ Forall2 oeq (cumulativeDeadbandFilter [Some 10; None; Some 20]%Q 2)
                (deadbandSpec [Some 10; None; Some 20]%Q 2).
Proof.
  intros H.
  eapply (Forall2_lookup_lr _ _ _ 2) in H;
    [| vm_compute; reflexivity | vm_compute; reflexivity].
  vm_compute in H. discriminate.
Qed.

(** ** Deadband 0 *)

Lemma zero_band_turn (o e' v E : Q) :
  (e' == E)%Q → (o == v)%Q →
  let res :=
    if Qltb 0 (Qabs e') then ((o + (e' - sign e' * 0))%Q, (sign e' * 0)%Q)
    else (o, e') in
  (res.1 == v + E)%Q ∧ (res.2 == 0)%Q.
Proof.
  intros He Ho res.
  destruct (deadband_branch 0 o e' E He) as [Hmove Hhold]. fold res in Hmove, Hhold.
  destruct (Qlt_le_dec 0 (Qabs E)) as [Hlt | Hle].
  - destruct (Hmove Hlt) as [-> ->]. split; [rewrite Ho |]; ring.
  - destruct (Hhold Hle) as [-> ->].
    apply Qabs_Qle_condition in Hle. split; lra.
Qed.

Lemma dbRun_cons (d : Q) (p x : option Q) (o e : Q) (r : list (option Q)) :
  dbRun d p o e (x :: r) =
    let prev := p ?? x ?? Some o in
    let e' := (e + (num (x ?? prev) - num prev))%Q in
    let res :=
      if Qltb d (Qabs e') then ((o + (e' - sign e' * d))%Q, (sign e' * d)%Q)
      else (o, e') in
    res :: dbRun d x res.1 res.2 r.
Proof. cbn [dbRun]. cbv zeta. by destruct (Qltb d _). Qed.

(** With deadband 0 no error is carried from one turn to the next. *)
Lemma dbRun_zero_err (rest : list (option Q)) :
  ∀ (p : option Q) (o e : Q),
    Forall (fun pr => (pr.2 == 0)%Q) (dbRun 0 p o e rest).
Proof.
  induction rest as [| x r IH]; intros p o e; [constructor |].
  rewrite dbRun_cons. cbv zeta.
  set (prev := p ?? x ?? Some o).
  set (e' := (e + (num (x ?? prev) - num prev))%Q).
  destruct (zero_band_turn o e' o e') as [_ H2]; [reflexivity | reflexivity |].
  constructor; [exact H2 | apply IH].
Qed.

(** C4, as the code has it. With deadband 0 the filter returns, up to the
    index [i0] of the first present sample, that sample; at every later
    index [i] it returns the previous output plus [elev[i] - elev[i-1]]
    when both samples are present, and the previous output when either of
    them is null.  The output is a running sum of the steps between
    neighbouring present samples and not a copy of the input: it misses the
    change of level across a gap, and it is the null-filled input only as
    far as these sums give the samples back. *)
Theorem deadband_zero_passthrough (elev : list (option Q)) (first : Q) (i0 : nat)
    (Hfirst : elev !! i0 = Some (Some first))
    (Hnull : ∀ k, (k < i0)%nat → elev !! k = Some None) :
  let out := cumulativeDeadbandFilter elev 0 in
  length out = length elev ∧
  (∀ k, (k <= i0)%nat → out !! k = Some (Some first)) ∧
  ∀ i, (i0 < i < length elev)%nat →
    ∃ o_prev o,
      out !! (i - 1)%nat = Some (Some o_prev) ∧ out !! i = Some (Some o) ∧
      (o == o_prev +
            match at_ elev (i - 1), at_ elev i with
            | Some previous_raw, Some current_raw => current_raw - previous_raw
            | _, _ => 0
            end)%Q.
Proof.
  intros out.
  assert (Hi0 : (i0 < length elev)%nat) by (by eapply lookup_lt_Some).
  destruct (deadband_lookup elev 0 first i0 Hfirst Hnull) as [Hlen Hlook].
  fold out in Hlen, Hlook.
  set (rest := drop (S i0) elev) in *.
  set (run := (first, 0%Q) :: dbRun 0 (Some first) first 0 rest).
  assert (Hraw : drop i0 elev = Some first :: rest) by (by apply drop_S).
  assert (Herr : Forall (fun pr => (pr.2 == 0)%Q) run).
  { subst run. constructor; [reflexivity | apply dbRun_zero_err]. }
  split; [done |]. split.
  { intros k Hk. rewrite Hlook by lia. by case_decide; [| lia]. }
  intros i Hi.
  destruct (dbRun_rule 0 rest (Some first) first 0 (i - S i0))
    as (o_prev & e_prev & o & e_i & Hprev & Hcur & Hrule).
  { subst rest. rewrite length_drop. lia. }
  fold run in Hprev, Hcur.
  assert (He : (e_prev == 0)%Q).
  { rewrite Forall_forall in Herr.
    apply (Herr (o_prev, e_prev)). by eapply list_elem_of_lookup_2. }
  replace (S (i - S i0)) with (i - i0)%nat in Hcur, Hrule by lia.
  exists o_prev, o. split_and!.
  - rewrite Hlook by lia. do 2 f_equal. case_decide.
    + assert (i - S i0 = 0)%nat as Hz by lia. rewrite Hz in Hprev. unfold run in Hprev.
      cbn in Hprev. congruence.
    + replace (i - S i0)%nat with (S (i - 1 - S i0)) in Hprev by lia.
      unfold run in Hprev. cbn in Hprev. by rewrite (list_lookup_total_correct _ _ _ Hprev).
  - rewrite Hlook by lia. do 2 f_equal. case_decide; [lia |].
    replace (i - i0)%nat with (S (i - S i0)) in Hcur by lia.
    unfold run in Hcur. cbn in Hcur. by rewrite (list_lookup_total_correct _ _ _ Hcur).
  - rewrite <- Hraw, !lookup_drop in Hrule.
    replace (i0 + (i - S i0))%nat with (i - 1)%nat in Hrule by lia.
    replace (i0 + (i - i0))%nat with i in Hrule by lia.
    cbv zeta in Hrule.
    change (mjoin (elev !! (i - 1)%nat)) with (at_ elev (i - 1)) in Hrule.
    change (mjoin (elev !! i)) with (at_ elev i) in Hrule.
    set (delta := match at_ elev (i - 1), at_ elev i with
                  | Some a, Some c => (c - a)%Q
                  | _, _ => 0%Q
                  end) in *.
    destruct Hrule as [Hmove Hhold].
    destruct (Qlt_le_dec 0 (Qabs (e_prev + delta))) as [Hlt | Hle].
    + destruct (Hmove Hlt) as [-> _]. lra.
    + destruct (Hhold Hle) as [-> _].
      apply Qabs_Qle_condition in Hle. lra.
Qed.

Lemma deadband_zero_passthrough_witness :
  let elev := [None; Some 10; Some 25; None; Some 25; Some 20; None]%Q in
  let out := cumulativeDeadbandFilter elev 0 in
  length out = length elev ∧
  (∀ k, (k <= 1)%nat → out !! k = Some (Some 10%Q)) ∧
  ∀ i, (1 < i < length elev)%nat →
    ∃ o_prev o,
      out !! (i - 1)%nat = Some (Some o_prev) ∧ out !! i = Some (Some o) ∧
      (o == o_prev +
            match at_ elev (i - 1), at_ elev i with
            | Some previous_raw, Some current_raw => current_raw - previous_raw
            | _, _ => 0
            end)%Q.
Proof.
  intros elev.
  assert (Hnull : ∀ k, (k < 1)%nat → elev !! k = Some None).
  { intros k Hk. destruct k; [reflexivity | lia]. }
  exact (deadband_zero_passthrough elev 10 1 eq_refl Hnull).
Defined.

(** C4 as stated fails on the code.  Across a gap: for the samples 10,
    null, 20 the null-filled input is 10, 10, 20 and the filter with
    deadband 0 returns 10, 10, 10.  Without any gap, on binary64 floats:
    from the sample 0.3 to the sample 0.9 the turn of the loop returns
    0.3 + (0.9 - 0.3), which is the float after 0.9. *)
Lemma deadband_zero_counterexample :
  (nullFilled [Some 10; None; Some 20]%Q = Some [10; 10; 20]%Q ∧
   ¬ Forall2 oeq (cumulativeDeadbandFilter [Some 10; None; Some 20]%Q 0)
                 (map Some [10; 10; 20]%Q)) ∧
  deadbandTurn_f 0 0x1.3333333333333p-2 0x1.ccccccccccccdp-1 0x1.3333333333333p-2 0 =
    (0x1.ccccccccccccep-1, 0)%float.
Proof.
  split; [| by vm_compute].
  split; [reflexivity |]. intros H.
  eapply (Forall2_lookup_lr _ _ _ 2) in H;
    [| vm_compute; reflexivity | vm_compute; reflexivity].
  vm_compute in H. discriminate.
Qed.

(** ** Distance resampler *)

Lemma Qn_S (k : nat) : (Qn (S k) == Qn k + 1)%Q.
Proof. unfold Qn. rewrite Nat2Z.inj_succ, <- Z.add_1_r, inject_Z_plus. reflexivity. Qed.

Lemma Qn_nonneg (k : nat) : (0 <= Qn k)%Q.
Proof. unfold Qn. change 0%Q with (inject_Z 0). rewrite <- Zle_Qle. lia. Qed.

Lemma Qn_le (i j : nat) : (i <= j)%nat → (Qn i <= Qn j)%Q.
Proof. intros H. unfold Qn. rewrite <- Zle_Qle. lia. Qed.

Lemma ramp_length (n : nat) (s sp : Q) : length (ramp n s sp) = n.
Proof. revert s. induction n as [| n IH]; intros s; simpl; [done |]. by rewrite IH. Qed.

Lemma ramp_lookup (n : nat) (sp : Q) :
  ∀ (s : Q) (k : nat) (t : Q), ramp n s sp !! k = Some t → (t == s + Qn k * sp)%Q.
Proof.
  induction n as [| n IH]; intros s k t Hk; [done |].
  destruct k as [| k]; cbn in Hk.
  - injection Hk as <-. change (Qn 0) with 0%Q. ring.
  - apply IH in Hk. rewrite Hk, Qn_S. ring.
Qed.

Lemma targetsLoop_ramp (total sp : Q) (Hsp : (0 < sp)%Q) :
  ∀ (m fuel : nat) (s : Q) (acc : list Q),
    (total < s + Qn m * sp)%Q → (m < fuel)%nat →
    ∃ n, (n <= m)%nat ∧
      targetsLoop fuel s total sp acc = Some (acc ++ ramp n s sp) ∧
      (∀ k t, ramp n s sp !! k = Some t → (t <= total)%Q) ∧
      (total < s + Qn n * sp)%Q.
Proof.
  induction m as [| m IH]; intros fuel s acc Hm Hfuel;
    (destruct fuel as [| fuel]; [lia |]); cbn [targetsLoop].
  - change (Qn 0) with 0%Q in Hm.
    assert (Hs : (total < s)%Q) by lra.
    case_Qltb; [lra |]. exists 0%nat. split_and!; try done.
    + by rewrite app_nil_r.
  - case_Qltb.
    + destruct (IH fuel (s + sp)%Q (acc ++ [s])) as (n & Hn & Hrun & Hle' & Hgt).
      { rewrite Qn_S in Hm. lra. }
      { lia. }
      exists (S n). split_and!.
      * lia.
      * rewrite Hrun. by rewrite <- app_assoc.
      * intros k t Hk. destruct k as [| k]; cbn in Hk.
        -- by injection Hk as <-.
        -- by eapply Hle'.
      * rewrite Qn_S. lra.
    + exists 0%nat. split_and!; try done; try lia.
      * by rewrite app_nil_r.
      * change (Qn 0) with 0%Q. lra.
Qed.

Lemma targets_spec (total sp : Q) :
  (0 < sp)%Q → (0 < total)%Q →
  ∃ n, (1 <= n)%nat ∧
    targetsLoop (targetsFuel total sp) 0 total sp [] = Some (ramp n 0 sp) ∧
    (∀ k t, ramp n 0 sp !! k = Some t → (t <= total)%Q) ∧
    (total < Qn n * sp)%Q.
Proof.
  intros Hsp Htot.
  set (F := Qfloor (total / sp)).
  assert (HF : (0 <= F)%Z).
  { change 0%Z with (Qfloor 0). apply Qfloor_resp_le.
    apply Qle_shift_div_l; [done | lra]. }
  destruct (targetsLoop_ramp total sp Hsp (S (Z.to_nat F)) (targetsFuel total sp) 0 [])
    as (n & Hn & Hrun & Hle & Hgt).
  - assert (Hq : (Qn (S (Z.to_nat F)) == inject_Z (F + 1))%Q).
    { unfold Qn. rewrite Nat2Z.inj_succ, Z2Nat.id by done. reflexivity. }
    rewrite Hq. pose proof (Qlt_floor (total / sp)) as Hlt. fold F in Hlt.
    assert (Hmul : (total / sp * sp < inject_Z (F + 1) * sp)%Q).
    { by apply Qmult_lt_r. }
    assert (Hdiv : (total / sp * sp == total)%Q) by (field; lra).
    lra.
  - unfold targetsFuel. fold F. lia.
  - exists n. split_and!; try done.
    + destruct n; [| lia]. change (Qn 0) with 0%Q in Hgt. lra.
    + lra.
Qed.

(** *** The gap filler leaves the elevations all present or all absent *)

Lemma fillPass_some (e : Q) (pts : list point) :
  Forall (fun p => is_Some (ele p)) (fillPass (Some e) pts).
Proof.
  revert e. induction pts as [| p r IH]; intros e; simpl; [constructor |].
  destruct (ele p) as [e' |] eqn:Hp; constructor; simpl; eauto.
Qed.

Lemma fillPass_none (pts : list point) :
  Forall (fun p => ele p = None) pts → Forall (fun p => ele p = None) (fillPass None pts).
Proof.
  induction 1 as [| p r Hp Hr IH]; simpl; [constructor |].
  rewrite Hp. by constructor.
Qed.

Lemma fillPass_shape (pts : list point) :
  ∃ a b, fillPass None pts = a ++ b ∧
    Forall (fun p => ele p = None) a ∧ Forall (fun p => is_Some (ele p)) b.
Proof.
  induction pts as [| p r (a & b & Heq & Ha & Hb)]; simpl.
  - exists [], []. by split_and!.
  - destruct (ele p) as [e |] eqn:Hp.
    + exists [], (p :: fillPass (Some e) r). split_and!; [done | constructor |].
      constructor; [by rewrite Hp | apply fillPass_some].
    + exists (mkPoint (lat p) (lon p) None :: a), b. rewrite Heq.
      split_and!; [done | by constructor | done].
Qed.

Lemma fillElevationOnPoints_uniform (pts : list point) :
  uniformEle (fillElevationOnPoints pts).
Proof.
  unfold fillElevationOnPoints, uniformEle.
  destruct (fillPass_shape pts) as (a & b & -> & Ha & Hb).
  rewrite rev_app_distr.
  destruct (rev b) as [| x r] eqn:Hrev.
  - right. intros p Hp. apply list_elem_of_In, in_rev, list_elem_of_In in Hp.
    revert p Hp. apply Forall_forall. apply fillPass_none.
    simpl. apply Forall_forall. intros p Hp.
    apply list_elem_of_In, in_rev, list_elem_of_In in Hp.
    by apply (proj1 (Forall_forall _ _) Ha).
  - left. intros p Hp. apply list_elem_of_In, in_rev, list_elem_of_In in Hp.
    revert p Hp. apply Forall_forall.
    assert (Hx : is_Some (ele x)).
    { apply (proj1 (Forall_forall _ _) Hb).
      apply list_elem_of_In, in_rev. rewrite Hrev. by left. }
    destruct Hx as [e He]. simpl. rewrite He.
    constructor; [by rewrite He | apply fillPass_some].
Qed.

Section ResamplerProofs.

Variable haversineKm : Q → Q → Q → Q → Q.
Hypothesis haversine_nonneg : ∀ a b c d, (0 <= haversineKm a b c d)%Q.

Lemma arcLengths_prefix (points : list point) (m : nat) :
  let cum := foldl (arcStep haversineKm points) [0%Q] (seq 1 m) in
  length cum = S m ∧ cum !! 0%nat = Some 0%Q ∧
  ∀ i, (i < m)%nat →
       ∃ c, cum !! i = Some c ∧ cum !! S i = Some (c + stepLen haversineKm points i)%Q.
Proof.
  induction m as [| m IH]; cbv zeta.
  - split_and!; try done. intros i Hi. lia.
  - rewrite seq_S, foldl_app. cbn [foldl].
    destruct IH as (Hlen & Hzero & Hstep).
    set (cum := foldl (arcStep haversineKm points) [0%Q] (seq 1 m)) in *.
    unfold arcStep. replace (1 + m - 1)%nat with m by lia.
    destruct (lookup_lt_is_Some_2 cum m) as [c Hc]; [lia |].
    rewrite Hc. cbn [default from_option id].
    split_and!.
    + rewrite length_app. simpl. lia.
    + rewrite lookup_app_l by lia. done.
    + intros i Hi. destruct (decide (i = m)) as [-> | Hne].
      * exists c. split.
        -- rewrite lookup_app_l by lia. done.
        -- rewrite lookup_app_r by lia. rewrite Hlen, Nat.sub_diag. reflexivity.
      * destruct (Hstep i) as (c' & H1 & H2); [lia |].
        exists c'. split; rewrite lookup_app_l; try done; try lia.
Qed.

Lemma arcLengths_spec (points : list point) :
  let cum := arcLengths haversineKm points in
  length cum = S (length points - 1) ∧ cum !! 0%nat = Some 0%Q ∧
  ∀ i, (i < length points - 1)%nat →
       ∃ c, cum !! i = Some c ∧ cum !! S i = Some (c + stepLen haversineKm points i)%Q.
Proof. apply arcLengths_prefix. Qed.

Lemma arcLengths_mono (points : list point) (i j : nat) (c c' : Q) :
  (i <= j)%nat →
  arcLengths haversineKm points !! i = Some c →
  arcLengths haversineKm points !! j = Some c' → (c <= c')%Q.
Proof.
  destruct (arcLengths_spec points) as (Hlen & _ & Hstep).
  intros Hij Hi. revert c'. induction Hij as [| j Hij IH]; intros c' Hj.
  - rewrite Hi in Hj. injection Hj as <-. apply Qle_refl.
  - assert (Hjlt : (S j < length (arcLengths haversineKm points))%nat)
      by (by eapply lookup_lt_Some).
    destruct (Hstep j) as (cj & H1 & H2); [lia |].
    rewrite H2 in Hj. injection Hj as <-.
    specialize (IH cj H1).
    pose proof (haversine_nonneg (lat (points !!! j)) (lon (points !!! j))
                  (lat (points !!! S j)) (lon (points !!! S j))) as Hd.
    unfold stepLen. lra.
Qed.

Lemma arcLengths_nonneg (points : list point) (i : nat) (c : Q) :
  arcLengths haversineKm points !! i = Some c → (0 <= c)%Q.
Proof.
  intros Hi. destruct (arcLengths_spec points) as (_ & Hzero & _).
  eapply (arcLengths_mono points 0 i); [lia | done | done].
Qed.

Lemma advance_spec (cum : list Q) (t : Q) :
  ∀ (fuel j : nat),
    (length cum < fuel + j)%nat →
    let j' := advance fuel cum t j in
    (j <= j')%nat ∧
    (∀ i c, (j <= i < j')%nat → cum !! i = Some c → (c < t)%Q) ∧
    (∀ c, cum !! j' = Some c → (t <= c)%Q).
Proof.
  induction fuel as [| fuel IH]; intros j Hfuel; cbn [advance].
  - split_and!; [lia | intros; lia |].
    intros c Hc. apply lookup_lt_Some in Hc. lia.
  - destruct (cum !! j) as [c |] eqn:Hj.
    + case_Qltb.
      * destruct (IH (S j)) as (Hle & Hbelow & Hexit); [lia |].
        split_and!; [lia | | done].
        intros i c' Hi Hc'. destruct (decide (i = j)) as [-> | Hne].
        -- rewrite Hj in Hc'. by injection Hc' as <-.
        -- apply (Hbelow i); [lia | done].
      * split_and!; [lia | intros; lia |].
        intros c' Hc'. rewrite Hj in Hc'. by injection Hc' as <-.
    + split_and!; [lia | intros; lia |]. intros c Hc. by rewrite Hj in Hc.
Qed.

Lemma resample_loop (points : list point) (cum : list Q) (total : Q) :
  (2 <= length cum)%nat →
  cum !! 0%nat = Some 0%Q →
  cum !! (length cum - 1)%nat = Some total →
  ∀ (T : list Q) (out : list point) (j : nat),
    (∀ k t, T !! k = Some t → (0 <= t)%Q ∧ (t <= total)%Q) →
    (∀ k t t', T !! k = Some t → T !! S k = Some t' → (t <= t')%Q) →
    (1 <= j)%nat →
    (∀ i c t, (1 <= i < j)%nat → cum !! i = Some c → T !! 0%nat = Some t → (c < t)%Q) →
    ∃ outs j',
      foldl (resampleStep points cum) (out, j) T = (out ++ outs, j') ∧
      Forall2 (bracket points cum) T outs.
Proof.
  intros Hlen Hzero Hlast.
  induction T as [| t T IH]; intros out j Hbound Hsorted Hj Hbelow; cbn [foldl].
  - exists [], j. split; [by rewrite app_nil_r | constructor].
  - destruct (Hbound 0%nat t eq_refl) as [Ht0 Httot].
    unfold resampleStep at 2.
    destruct (advance_spec cum t (length cum) j) as (Hle & Hadv & Hexit); [lia |].
    set (j1 := advance (length cum) cum t j) in *.
    assert (Hall : ∀ i c, (1 <= i < j1)%nat → cum !! i = Some c → (c < t)%Q).
    { intros i c Hi Hc. destruct (decide (i < j)%nat).
      - apply (Hbelow i c t); [lia | done | done].
      - apply (Hadv i c); [lia | done]. }
    assert (Hj1 : (j1 < length cum)%nat).
    { destruct (decide (j1 < length cum)%nat) as [| Hge]; [done |].
      exfalso. specialize (Hall (length cum - 1)%nat total). 
      assert ((total < t)%Q) by (apply Hall; [lia | done]). lra. }
    destruct (Nat.leb_spec (length cum) j1) as [| _]; [lia |].
    destruct (lookup_lt_is_Some_2 cum j1 Hj1) as [t1 Ht1].
    destruct (lookup_lt_is_Some_2 cum (j1 - 1)%nat) as [t0 Ht0']; [lia |].
    rewrite Ht1, Ht0'. cbn [default from_option id].
    set (pt := interpolate _ _ _).
    assert (Hbr : bracket points cum t pt).
    { exists j1, t0, t1. split_and!; try done; try lia.
      - destruct (decide (j1 = 1%nat)) as [E | Hne].
        + rewrite E in Ht0'. simpl in Ht0'. rewrite Hzero in Ht0'.
          by injection Ht0' as <-.
        + apply Qlt_le_weak. apply (Hall (j1 - 1)%nat); [lia | done].
      - by apply Hexit. }
    destruct (IH (out ++ [pt]) j1) as (outs & j' & Hrun & Hall2).
    + intros k t' Hk. apply (Hbound (S k)). done.
    + intros k ta tb Ha Hb. apply (Hsorted (S k)); done.
    + lia.
    + intros i c t' Hi Hc Ht'.
      eapply Qlt_le_trans; [by apply (Hall i) |].
      by apply (Hsorted 0%nat).
    + exists (pt :: outs), j'. split; [| by constructor].
      rewrite Hrun. by rewrite <- app_assoc.
Qed.

Lemma total_lookup (points : list point) :
  arcLengths haversineKm points !! (length (arcLengths haversineKm points) - 1)%nat =
  Some (lastOf (arcLengths haversineKm points)).
Proof.
  destruct (arcLengths_spec points) as (Hlen & _ & _).
  unfold lastOf. rewrite last_lookup.
  replace (Init.Nat.pred (length (arcLengths haversineKm points)))
    with (length (arcLengths haversineKm points) - 1)%nat by lia.
  destruct (lookup_lt_is_Some_2 (arcLengths haversineKm points)
              (length (arcLengths haversineKm points) - 1)) as [c Hc]; [lia |].
  by rewrite Hc.
Qed.

Lemma positive_total_two_points (points : list point) :
  (0 < lastOf (arcLengths haversineKm points))%Q → (2 <= length points)%nat.
Proof.
  intros Hpos. destruct (arcLengths_spec points) as (Hlen & Hzero & _).
  destruct (decide (2 <= length points)%nat) as [| Hsmall]; [done |].
  exfalso. pose proof (total_lookup points) as Htot.
  replace (length (arcLengths haversineKm points) - 1)%nat with 0%nat in Htot by lia.
  rewrite Hzero in Htot. injection Htot as Htot. rewrite <- Htot in Hpos. lra.
Qed.

Lemma finalTargets_spec (n : nat) (sp total : Q) :
  (0 < sp)%Q → (1 <= n)%nat →
  (∀ k t, ramp n 0 sp !! k = Some t → (t <= total)%Q) →
  let T := finalTargets n sp total in
  (∀ k t, T !! k = Some t → (0 <= t)%Q ∧ (t <= total)%Q) ∧
  (∀ k t t', T !! k = Some t → T !! S k = Some t' → (t <= t')%Q) ∧
  T !! 0%nat = Some 0%Q ∧
  (∀ k, (k < n)%nat → ∃ t, T !! k = Some t ∧ (t == Qn k * sp)%Q) ∧
  (∃ t, last T = Some t ∧ (t == total)%Q) ∧
  (((Qn (n - 1) * sp == total)%Q ∧ length T = n) ∨
   ((Qn (n - 1) * sp < total)%Q ∧ length T = S n ∧ T !! n = Some total)).
Proof.
  intros Hsp Hn Hle T.
  assert (Hramp : ∀ k t, ramp n 0 sp !! k = Some t → (t == Qn k * sp)%Q).
  { intros k t Hk. rewrite (ramp_lookup _ _ _ _ _ Hk). ring. }
  assert (Hrlen := ramp_length n 0 sp).
  destruct (lookup_lt_is_Some_2 (ramp n 0 sp) (n - 1)) as [tl Htl]; [lia |].
  assert (Hlast : last (ramp n 0 sp) = Some tl).
  { rewrite last_lookup, Hrlen. by replace (Init.Nat.pred n) with (n - 1)%nat by lia. }
  pose proof (Hramp _ _ Htl) as Htl_eq. pose proof (Hle _ _ Htl) as Htl_le.
  assert (Hin : ∀ k t, ramp n 0 sp !! k = Some t → (0 <= t)%Q ∧ (t <= tl)%Q).
  { intros k t Hk. pose proof (Hramp _ _ Hk) as Hk_eq.
    assert (k <= n - 1)%nat by (apply lookup_lt_Some in Hk; lia).
    pose proof (Qn_nonneg k). pose proof (Qn_le k (n - 1)).
    split; [nra |]. rewrite Hk_eq, Htl_eq. apply Qmult_le_compat_r; [auto | lra]. }
  assert (Hmono : ∀ k t t', ramp n 0 sp !! k = Some t → ramp n 0 sp !! S k = Some t' → (t <= t')%Q).
  { intros k t t' Hk Hk'. rewrite (Hramp _ _ Hk), (Hramp _ _ Hk'), Qn_S. nra. }
  assert (Htl0 : (0 <= tl)%Q) by (by destruct (Hin _ _ Htl)).
  subst T. unfold finalTargets. rewrite Hlast.
  case_Qltb.
  - split_and!.
    + intros k t Hk. apply lookup_app_Some in Hk as [Hk | [Hge Hk]].
      * destruct (Hin _ _ Hk). split; [done | lra].
      * apply list_lookup_singleton_Some in Hk as [_ <-]. split; lra.
    + intros k t t' Hk Hk'.
      apply lookup_app_Some in Hk as [Hk | [Hge Hk]];
        apply lookup_app_Some in Hk' as [Hk' | [Hge' Hk']].
      * by eapply Hmono.
      * apply list_lookup_singleton_Some in Hk' as [_ <-]. destruct (Hin _ _ Hk). lra.
      * apply lookup_lt_Some in Hk'. lia.
      * apply list_lookup_singleton_Some in Hk as [? _].
        apply list_lookup_singleton_Some in Hk' as [? _]. lia.
    + rewrite lookup_app_l by lia. destruct n; [lia | done].
    + intros k Hk. destruct (lookup_lt_is_Some_2 (ramp n 0 sp) k) as [t Ht]; [lia |].
      exists t. split; [by rewrite lookup_app_l by lia | by apply Hramp].
    + exists total. split; [by rewrite last_snoc | reflexivity].
    + right. split_and!.
      * by rewrite <- Htl_eq.
      * rewrite length_app. simpl. lia.
      * rewrite lookup_app_r by lia. by rewrite Hrlen, Nat.sub_diag.
  - split_and!.
    + intros k t Hk. destruct (Hin _ _ Hk). split; [done | lra].
    + done.
    + destruct n; [lia | done].
    + intros k Hk. destruct (lookup_lt_is_Some_2 (ramp n 0 sp) k) as [t Ht]; [lia |].
      exists t. split; [done | by apply Hramp].
    + exists tl. split; [done | lra].
    + left. split; [rewrite <- Htl_eq; lra | done].
Qed.

Lemma resample_zero (points : list point) (sp : Q) :
  (lastOf (arcLengths haversineKm points) == 0)%Q →
  resampleByDistance haversineKm points sp =
    Some (take (Nat.min (length points) 2) points).
Proof.
  intros Hzero. unfold resampleByDistance. fold (lastOf (arcLengths haversineKm points)).
  by rewrite (proj2 (Qeq_bool_iff _ 0) Hzero).
Qed.

Lemma resample_positive (points : list point) (sp : Q) :
  (0 < sp)%Q →
  let cum := arcLengths haversineKm points in
  let total := lastOf cum in
  (0 < total)%Q →
  ∃ n out,
    (1 <= n)%nat ∧
    (∀ k t, ramp n 0 sp !! k = Some t → (t <= total)%Q) ∧
    (total < Qn n * sp)%Q ∧
    resampleByDistance haversineKm points sp = Some out ∧
    Forall2 (bracket points cum) (finalTargets n sp total) out.
Proof.
  intros Hsp cum total Hpos.
  destruct (targets_spec total sp Hsp Hpos) as (n & Hn & Hloop & Hle & Hgt).
  destruct (arcLengths_spec points) as (Hlen & Hzero & _). fold cum in Hlen, Hzero.
  pose proof (positive_total_two_points points Hpos) as H2.
  pose proof (total_lookup points) as Htot. fold cum in Htot. fold total in Htot.
  destruct (finalTargets_spec n sp total Hsp Hn Hle) as (Hb & Hs & _).
  destruct (resample_loop points cum total) with (T := finalTargets n sp total)
    (out := @nil point) (j := 1%nat) as (outs & j' & Hrun & Hall); try done; try lia.
  exists n, outs. split_and!; try done.
  unfold resampleByDistance. fold cum. unfold lastOf in total. fold total.
  assert (Hne : Qeq_bool total 0 = false).
  { destruct (Qeq_bool total 0) eqn:E; [| done]. apply Qeq_bool_iff in E. lra. }
  rewrite Hne. cbn [isFinite negb orb]. rewrite Hloop.
  unfold finalTargets in Hrun. rewrite Hrun. reflexivity.
Qed.

Lemma uniformEle_pair (points : list point) (p q : point) :
  uniformEle points → p ∈ points → q ∈ points → ele p = None → ele q = None.
Proof.
  intros [Hall | Hnone] Hp Hq Hnull; [| by apply Hnone].
  destruct (Hall p Hp) as [e He]. congruence.
Qed.

Lemma clamp_0 (z : Q) : (z == 0)%Q → (clamp z 0 1 == 0)%Q.
Proof.
  intros Hz. unfold clamp.
  destruct (Q.max_spec 0 (Qmin 1 z)) as [[H E] | [H E]]; rewrite E;
    destruct (Q.min_spec 1 z) as [[H' E'] | [H' E']]; rewrite E' in *; lra.
Qed.

Lemma clamp_1 (z : Q) : (z == 1)%Q → (clamp z 0 1 == 1)%Q.
Proof.
  intros Hz. unfold clamp.
  destruct (Q.max_spec 0 (Qmin 1 z)) as [[H E] | [H E]]; rewrite E;
    destruct (Q.min_spec 1 z) as [[H' E'] | [H' E']]; rewrite E' in *; lra.
Qed.

Lemma interpolate_start (p0 p1 : point) (a : Q) :
  (a == 0)%Q →
  (lat (interpolate p0 p1 a) == lat p0)%Q ∧ (lon (interpolate p0 p1 a) == lon p0)%Q ∧
  ((ele p0 = None → ele p1 = None) → oeq (ele (interpolate p0 p1 a)) (ele p0)).
Proof.
  intros Ha. cbn [interpolate lat lon ele]. split_and!.
  - rewrite Ha. ring.
  - rewrite Ha. ring.
  - intros Himp. destruct (ele p0) as [e0 |], (ele p1) as [e1 |]; simpl; try done.
    + rewrite Ha. ring.
    + by specialize (Himp eq_refl).
Qed.

(** *** Distances that are not finite *)

Lemma arcLengthsX_prefix (haversineX : Q → Q → Q → Q → option Q)
    (points : list point) (m : nat) :
  let cum := foldl (arcStepX haversineX points) [Some 0%Q] (seq 1 m) in
  length cum = S m ∧ cum !! 0%nat = Some (Some 0%Q) ∧
  ∀ i, (i < m)%nat →
       ∃ c, cum !! i = Some c ∧
            cum !! S i = Some (match c, stepLenX haversineX points i with
                               | Some c, Some d => Some (c + d)%Q
                               | _, _ => None
                               end).
Proof.
  induction m as [| m IH]; cbv zeta.
  - split_and!; try done. intros i Hi. lia.
  - rewrite seq_S, foldl_app. cbn [foldl].
    destruct IH as (Hlen & Hzero & Hstep).
    set (cum := foldl (arcStepX haversineX points) [Some 0%Q] (seq 1 m)) in *.
    unfold arcStepX. replace (1 + m - 1)%nat with m by lia.
    destruct (lookup_lt_is_Some_2 cum m) as [c Hc]; [lia |].
    rewrite Hc. cbn [mjoin option_join].
    split_and!.
    + rewrite length_app. simpl. lia.
    + rewrite lookup_app_l by lia. done.
    + intros i Hi. destruct (decide (i = m)) as [-> | Hne].
      * exists c. split.
        -- rewrite lookup_app_l by lia. done.
        -- rewrite lookup_app_r by lia. rewrite Hlen, Nat.sub_diag. reflexivity.
      * destruct (Hstep i) as (c' & H1 & H2); [lia |].
        exists c'. split; rewrite lookup_app_l; try done; try lia.
Qed.

(** One distance that is not finite and the total is not finite. *)
Lemma arcLengthsX_nonfinite (haversineX : Q → Q → Q → Q → option Q)
    (points : list point) (i : nat) :
  (S i < length points)%nat → stepLenX haversineX points i = None →
  mjoin (last (arcLengthsX haversineX points)) = None.
Proof.
  intros Hi Hnone.
  destruct (arcLengthsX_prefix haversineX points (length points - 1))
    as (Hlen & _ & Hstep).
  fold (arcLengthsX haversineX points) in Hlen, Hstep.
  set (cum := arcLengthsX haversineX points) in *.
  assert (Hfrom : ∀ k, (S i <= k)%nat → (k < length cum)%nat → cum !! k = Some None).
  { induction 1 as [| k Hk IH]; intros Hlt.
    - destruct (Hstep i) as (c & _ & ->); [lia |]. rewrite Hnone. by destruct c.
    - destruct (Hstep k) as (c & Hc & ->); [lia |].
      rewrite IH in Hc by lia. by injection Hc as <-. }
  rewrite last_lookup, Hfrom; [done | lia | lia].
Qed.

Lemma arcLengthsX_finite (haversineX : Q → Q → Q → Q → option Q)
    (points : list point) :
  (∀ i, (S i < length points)%nat →
        stepLenX haversineX points i = Some (stepLen haversineKm points i)) →
  arcLengthsX haversineX points = Some <$> arcLengths haversineKm points.
Proof.
  intros Hfin. unfold arcLengthsX, arcLengths.
  assert (Hm : ∀ m, (m <= length points - 1)%nat →
            foldl (arcStepX haversineX points) [Some 0%Q] (seq 1 m) =
            Some <$> foldl (arcStep haversineKm points) [0%Q] (seq 1 m)).
  { induction m as [| m IH]; intros Hle; [done |].
    rewrite !seq_S, !foldl_app. cbn [foldl]. rewrite IH by lia.
    destruct (arcLengths_prefix points m) as (Hlen & _ & _).
    set (cum := foldl (arcStep haversineKm points) [0%Q] (seq 1 m)) in *.
    unfold arcStepX, arcStep. replace (1 + m - 1)%nat with m by lia.
    destruct (lookup_lt_is_Some_2 cum m) as [c Hc]; [lia |].
    rewrite list_lookup_fmap, Hc. cbn [fmap option_fmap option_map mjoin option_join].
    pose proof (Hfin m ltac:(lia)) as Hd. unfold stepLenX, stepLen in Hd.
    replace (1 + m)%nat with (S m) by lia.
    rewrite Hd. cbn [default from_option id]. by rewrite fmap_app. }
  by apply Hm.
Qed.

(** With finite distances the two embeddings of the resampler agree. *)
Lemma resampleX_finite (haversineX : Q → Q → Q → Q → option Q)
    (points : list point) (sp : Q) :
  (∀ i, (S i < length points)%nat →
        stepLenX haversineX points i = Some (stepLen haversineKm points i)) →
  resampleByDistanceX haversineX points sp = resampleByDistance haversineKm points sp.
Proof.
  intros Hfin. unfold resampleByDistanceX, resampleByDistance.
  rewrite (arcLengthsX_finite haversineX points Hfin).
  destruct (arcLengths_spec points) as (Hlen & _ & _).
  set (cum := arcLengths haversineKm points) in *.
  rewrite fmap_last.
  destruct (last cum) as [total |] eqn:Hlast.
  2: { apply last_None in Hlast. rewrite Hlast in Hlen. done. }
  cbn [fmap option_fmap option_map mjoin option_join default from_option id
       isFinite negb orb].
  rewrite <- list_fmap_compose.
  assert (Hid : (default 0%Q ∘ Some) <$> cum = cum).
  { rewrite <- (list_fmap_id cum) at 2. by apply list_fmap_ext. }
  by rewrite Hid.
Qed.

(** *** The points where the track stands still at its end *)

Lemma stalled_tail (points : list point) (j : nat) :
  (∀ a b c d, (haversineKm a b c d == 0)%Q → (a == c)%Q ∧ (b == d)%Q) →
  (∃ c, arcLengths haversineKm points !! j = Some c ∧
        (c == lastOf (arcLengths haversineKm points))%Q) →
  ∀ k, (j <= k)%nat → (k < length points)%nat →
    (lat (points !!! k) == lat (points !!! j))%Q ∧
    (lon (points !!! k) == lon (points !!! j))%Q.
Proof.
  intros Hzero (cj & Hcj & Hj).
  destruct (arcLengths_spec points) as (Hlen & _ & Hstep).
  pose proof (total_lookup points) as Htot.
  set (cum := arcLengths haversineKm points) in *.
  set (total := lastOf cum) in *.
  induction 1 as [| k Hk IH]; intros Hlt; [split; reflexivity |].
  destruct IH as [Hlat Hlon]; [lia |].
  destruct (Hstep k) as (c & Hc & Hc'); [lia |].
  assert (Hlow : (cj <= c)%Q) by (by eapply (arcLengths_mono points j k)).
  assert (Hhigh : (c + stepLen haversineKm points k <= total)%Q).
  { eapply (arcLengths_mono points (S k) (length cum - 1)); [lia | done | done]. }
  pose proof (haversine_nonneg (lat (points !!! k)) (lon (points !!! k))
                (lat (points !!! S k)) (lon (points !!! S k))) as Hd.
  unfold stepLen in Hhigh.
  destruct (Hzero (lat (points !!! k)) (lon (points !!! k))
                  (lat (points !!! S k)) (lon (points !!! S k))) as [E1 E2]; [lra |].
  split; [by rewrite <- E1 | by rewrite <- E2].
Qed.

(** C7, as the code has it. For a positive spacing.  When a distance
    between two neighbouring input points is not finite, or when the total
    arc length is 0, the resampler returns the first two input points (or
    the fewer there are) unchanged.  When the total arc length is
    positive, the [for] loop pushes the running sums 0, 0 + spacing,
    (0 + spacing) + spacing, ... as long as they are not above the total,
    [n] of them, and the total itself is pushed after them when the last
    sum is below it; so the last target is the total.  The resampler
    returns one point per target, every one on the input step that
    brackets its target.  The first output point has the position of the
    first input point, and its elevation when the input elevations are all
    present or all absent.  The last output point is the point at the
    fraction 1, [p0 + 1 * (p1 - p0)] in each coordinate, of the input step
    that ends at the first input point [j] at which the arc length reaches
    the total; [j] is the last input point when the last input step has a
    positive length, and it has the position of the last input point when
    only points at the same position are at distance 0. *)
Theorem resample_targets (haversineX : Q → Q → Q → Q → option Q)
    (points : list point) (spacing : Q)
    (Hsp : (0 < spacing)%Q) :
  let cum := arcLengths haversineKm points in
  let total := lastOf cum in
  ((∃ i, (S i < length points)%nat ∧ stepLenX haversineX points i = None) →
     resampleByDistanceX haversineX points spacing =
       Some (take (Nat.min (length points) 2) points)) ∧
  ((∀ i, (S i < length points)%nat →
         stepLenX haversineX points i = Some (stepLen haversineKm points i)) →
     resampleByDistanceX haversineX points spacing =
       resampleByDistance haversineKm points spacing) ∧
  ((total == 0)%Q →
     resampleByDistance haversineKm points spacing =
       Some (take (Nat.min (length points) 2) points)) ∧
  ((0 < total)%Q →
     ∃ (n : nat) (out : list point),
       let sums := ramp n 0 spacing in
       let targets := finalTargets n spacing total in
       resampleByDistance haversineKm points spacing = Some out ∧
       (1 <= n)%nat ∧
       (∀ t, t ∈ sums → (t <= total)%Q) ∧
       (∃ t, last sums = Some t ∧ (total < t + spacing)%Q) ∧
       Forall2 (bracket points cum) targets out ∧
       (∃ t, last targets = Some t ∧ (t == total)%Q) ∧
       (∃ p q, points !! 0%nat = Some p ∧ out !! 0%nat = Some q ∧
          (lat q == lat p)%Q ∧ (lon q == lon p)%Q ∧
          (uniformEle points → oeq (ele q) (ele p))) ∧
       (∃ j a,
          (1 <= j < length points)%nat ∧
          (∃ c, cum !! j = Some c ∧ (c == total)%Q) ∧
          (∀ i c, (1 <= i < j)%nat → cum !! i = Some c → (c < total)%Q) ∧
          (a == 1)%Q ∧
          last out = Some (interpolate (points !!! (j - 1)%nat) (points !!! j) a) ∧
          ((0 < stepLen haversineKm points (length points - 2))%Q →
           j = (length points - 1)%nat) ∧
          ((∀ a b c d, (haversineKm a b c d == 0)%Q → (a == c)%Q ∧ (b == d)%Q) →
           (lat (points !!! j) == lat (points !!! (length points - 1)%nat))%Q ∧
           (lon (points !!! j) == lon (points !!! (length points - 1)%nat))%Q))).
Proof.
  intros cum total. split.
  { intros (i & Hi & Hnone). unfold resampleByDistanceX.
    by rewrite (arcLengthsX_nonfinite haversineX points i Hi Hnone). }
  split; [apply resampleX_finite |].
  split; [apply resample_zero |].
  intros Hpos.
  destruct (resample_positive points spacing Hsp Hpos)
    as (n & out & Hn & Hle & Hgt & Hrun & Hall).
  fold cum in Hall. fold total in Hle, Hgt, Hall.
  destruct (finalTargets_spec n spacing total Hsp Hn Hle)
    as (Hbound & Hsorted & Hfirst & Hmult & (tl & Htl & Htl_eq) & Hshape).
  set (T := finalTargets n spacing total) in *.
  destruct (arcLengths_spec points) as (Hlen & Hzero & Hstep). fold cum in Hlen, Hzero, Hstep.
  pose proof (positive_total_two_points points Hpos) as H2.
  pose proof (total_lookup points) as Htot. fold cum in Htot. fold total in Htot.
  assert (Hnonneg : ∀ i c, cum !! i = Some c → (0 <= c)%Q).
  { intros i c. apply arcLengths_nonneg. }
  assert (Hmono : ∀ i j c c', (i <= j)%nat → cum !! i = Some c → cum !! j = Some c' → (c <= c')%Q).
  { intros i j c c'. apply arcLengths_mono. }
  assert (Hmem : ∀ i, (i < length points)%nat → points !!! i ∈ points).
  { intros i Hi. apply list_elem_of_lookup. exists i.
    by apply list_lookup_lookup_total_lt. }
  exists n, out. cbv zeta. fold T.
  split_and!; try done.
  - intros t Ht. apply list_elem_of_lookup in Ht as [k Hk]. by eapply Hle.
  - destruct (lookup_lt_is_Some_2 (ramp n 0 spacing) (n - 1)) as [t Ht].
    { rewrite ramp_length. lia. }
    exists t. split.
    + rewrite last_lookup, ramp_length.
      by replace (Init.Nat.pred n) with (n - 1)%nat by lia.
    + apply ramp_lookup in Ht.
      assert (Hq : (Qn n == Qn (n - 1) + 1)%Q).
      { rewrite <- Qn_S. by replace (S (n - 1)) with n by lia. }
      assert (Hq' : (Qn n * spacing == Qn (n - 1) * spacing + spacing)%Q)
        by (rewrite Hq; ring).
      rewrite Hq' in Hgt. unfold total, cum. lra.
  - by exists tl.
  - (* first point *)
    destruct (Forall2_lookup_l _ _ _ _ _ Hall Hfirst) as (q & Hq & Hbr).
    destruct Hbr as (j & t0 & t1 & Hj & Ht0 & Ht1 & _ & _ & Hbelow & ->).
    assert (j = 1%nat) as ->.
    { destruct (decide (j = 1%nat)) as [| Hne]; [done |]. exfalso.
      destruct (lookup_lt_is_Some_2 cum 1) as [c Hc].
      { apply lookup_lt_Some in Ht1. lia. }
      specialize (Hbelow 1%nat c). specialize (Hnonneg 1%nat c Hc).
      assert ((c < 0)%Q) by (apply Hbelow; [lia | done]). lra. }
    cbn [Nat.sub] in *. rewrite Hzero in Ht0. injection Ht0 as <-.
    destruct (lookup_lt_is_Some_2 points 0) as [p Hp]; [lia |].
    exists p, (interpolate (points !!! 0%nat) (points !!! 1%nat)
                 (clamp ((0 - 0) / (if Qeq_bool (t1 - 0) 0 then 1 else t1 - 0)) 0 1)).
    rewrite (list_lookup_total_correct _ _ _ Hp) in Hq |- *.
    assert (Ha : (clamp ((0 - 0) / (if Qeq_bool (t1 - 0) 0 then 1 else t1 - 0)) 0 1 == 0)%Q).
    { apply clamp_0. unfold Qdiv. ring. }
    destruct (interpolate_start p (points !!! 1%nat) _ Ha) as (Hlat & Hlon & Hele).
    split_and!; try done.
    intros Hu. apply Hele. apply (uniformEle_pair points); try done.
    + apply list_elem_of_lookup. by exists 0%nat.
    + apply Hmem. lia.
  - (* last point *)
    assert (Hlen_out : length T = length out) by (by eapply Forall2_length).
    assert (HTlen : (1 <= length T)%nat).
    { apply lookup_lt_Some in Hfirst. lia. }
    rewrite last_lookup in Htl.
    destruct (Forall2_lookup_l _ _ _ _ _ Hall Htl) as (q & Hq & Hbr).
    destruct Hbr as (j & t0 & t1 & Hj & Ht0 & Ht1 & Hlow & Hhigh & Hbelow & ->).
    assert (Hjlen : (j < length cum)%nat) by (by eapply lookup_lt_Some).
    assert (Ht1_le : (t1 <= total)%Q).
    { eapply (Hmono j (length cum - 1)%nat); [lia | done | done]. }
    assert (Ht0_lt : (t0 < tl)%Q).
    { destruct (decide (j = 1%nat)) as [E | Hne].
      - rewrite E in Ht0. cbn in Ht0. rewrite Hzero in Ht0. injection Ht0 as <-. lra.
      - apply (Hbelow (j - 1)%nat); [lia | done]. }
    assert (Hne0 : Qeq_bool (t1 - t0) 0 = false).
    { destruct (Qeq_bool (t1 - t0) 0) eqn:E; [| done]. apply Qeq_bool_iff in E. lra. }
    assert (Ha : (clamp ((tl - t0) / (if Qeq_bool (t1 - t0) 0 then 1 else t1 - t0)) 0 1
                  == 1)%Q).
    { rewrite Hne0. apply clamp_1. assert (tl == t1)%Q as -> by lra. field. lra. }
    assert (Hreach : ∃ c, cum !! j = Some c ∧ (c == total)%Q).
    { exists t1. split; [done | lra]. }
    exists j, (clamp ((tl - t0) / (if Qeq_bool (t1 - t0) 0 then 1 else t1 - t0)) 0 1).
    split_and!; try done.
    + lia.
    + intros i c Hi Hc. specialize (Hbelow i c Hi Hc). lra.
    + rewrite last_lookup, <- Hlen_out. done.
    + intros Hstep_pos.
      destruct (decide (j = (length points - 1)%nat)) as [| Hne]; [done |]. exfalso.
      destruct (Hstep (length points - 2)%nat) as (c & Hc & Hc'); [lia |].
      replace (S (length points - 2)) with (length cum - 1)%nat in Hc' by lia.
      rewrite Htot in Hc'. injection Hc' as Hc'.
      assert (Heq : (total == c + stepLen haversineKm points (length points - 2))%Q)
        by (rewrite <- Hc'; reflexivity).
      assert ((t1 <= c)%Q).
      { eapply (Hmono j (length points - 2)%nat); [lia | done | done]. }
      lra.
    + intros Hstill.
      destruct (stalled_tail points j Hstill Hreach (length points - 1)) as [E1 E2];
        [lia | lia |].
      split; [by rewrite E1 | by rewrite E2].
Qed.

End ResamplerProofs.

Lemma planarKm_nonneg (a b c d : Q) : (0 <= planarKm a b c d)%Q.
Proof.
  unfold planarKm. pose proof (Qabs_nonneg (c - a)). pose proof (Qabs_nonneg (d - b)).
  nra.
Qed.

Lemma planarKm_zero (a b c d : Q) :
  (planarKm a b c d == 0)%Q → (a == c)%Q ∧ (b == d)%Q.
Proof.
  unfold planarKm. intros H.
  pose proof (Qabs_nonneg (c - a)) as H1. pose proof (Qabs_nonneg (d - b)) as H2.
  assert (E1 : (Qabs (c - a) <= 0)%Q) by lra.
  assert (E2 : (Qabs (d - b) <= 0)%Q) by lra.
  apply Qabs_Qle_condition in E1, E2. split; lra.
Qed.

Lemma resample_targets_witness :
  let off := [mkPoint 0 0 None; mkPoint 100 0 None; mkPoint 0 0 None] in
  let still := [mkPoint 1 2 (Some 3%Q); mkPoint 1 2 (Some 3%Q); mkPoint 1 2 None] in
  let points :=
    [mkPoint 0 0 (Some 10%Q); mkPoint 0 (1 # 10000) (Some 12%Q);
     mkPoint 0 (2 # 10000) (Some 11%Q)] in
  let cum := arcLengths planarKm points in
  let total := lastOf cum in
  resampleByDistanceX planarX off 5 = Some (take 2 off) ∧
  resampleByDistanceX planarX points 5 = resampleByDistance planarKm points 5 ∧
  resampleByDistance planarKm still 5 = Some (take 2 still) ∧
  (∃ (n : nat) (out : list point),
    let sums := ramp n 0 5 in
    let targets := finalTargets n 5 total in
    resampleByDistance planarKm points 5 = Some out ∧
    (1 <= n)%nat ∧
    (∀ t, t ∈ sums → (t <= total)%Q) ∧
    (∃ t, last sums = Some t ∧ (total < t + 5)%Q) ∧
    Forall2 (bracket points cum) targets out ∧
    (∃ t, last targets = Some t ∧ (t == total)%Q) ∧
    (∃ p q, points !! 0%nat = Some p ∧ out !! 0%nat = Some q ∧
       (lat q == lat p)%Q ∧ (lon q == lon p)%Q ∧
       (uniformEle points → oeq (ele q) (ele p))) ∧
    (∃ j a,
       (1 <= j < length points)%nat ∧
       (∃ c, cum !! j = Some c ∧ (c == total)%Q) ∧
       (∀ i c, (1 <= i < j)%nat → cum !! i = Some c → (c < total)%Q) ∧
       (a == 1)%Q ∧
       last out = Some (interpolate (points !!! (j - 1)%nat) (points !!! j) a) ∧
       ((0 < stepLen planarKm points (length points - 2))%Q →
        j = (length points - 1)%nat) ∧
       ((∀ a b c d, (planarKm a b c d == 0)%Q → (a == c)%Q ∧ (b == d)%Q) →
        (lat (points !!! j) == lat (points !!! (length points - 1)%nat))%Q ∧
        (lon (points !!! j) == lon (points !!! (length points - 1)%nat))%Q))) ∧
  (∀ a b c d, (planarKm a b c d == 0)%Q → (a == c)%Q ∧ (b == d)%Q).
Proof.
  intros off still points cum total.
  split; [| split; [| split; [| split]]]; [| | | | apply planarKm_zero].
  - apply (proj1 (resample_targets planarKm planarKm_nonneg planarX off 5 eq_refl)).
    exists 0%nat. split; [cbn; lia | by vm_compute].
  - apply (proj1 (proj2 (resample_targets planarKm planarKm_nonneg planarX points 5
                           eq_refl))).
    intros i Hi. cbn [length points] in Hi.
    destruct i as [| [| i]]; [by vm_compute | by vm_compute | lia].
  - apply (proj1 (proj2 (proj2 (resample_targets planarKm planarKm_nonneg planarX still 5
                                  eq_refl)))).
    by vm_compute.
  - apply (proj2 (proj2 (proj2 (resample_targets planarKm planarKm_nonneg planarX points 5
                                  eq_refl)))).
    by vm_compute.
Defined.

(** C7 as stated fails on the code.  The last output point is not the
    last input point: when the track stands still at its end while the
    recorded elevation changes (the last two input points have the same
    position and the elevations 2 and 3), the total arc length is reached
    at the second point and the last output point carries its elevation 2.
    The offsets are not the multiples of the spacing: on binary64 floats a
    total of 22 m at a spacing of 2.2 m gives twelve targets, the running
    sum 21.999999999999996 and then the total 22, where the multiples end
    with [10 * 2.2], which is 22.  And the point at the fraction 1 of a step
    is not its end exactly: [0.3 + 1 * (0.9 - 0.3)] is the float after
    0.9. *)
Lemma resample_last_counterexample :
  let points :=
    [mkPoint 0 0 (Some 1%Q); mkPoint 0 (1 # 1000) (Some 2%Q);
     mkPoint 0 (1 # 1000) (Some 3%Q)] in
  ((0 < lastOf (arcLengths planarKm points))%Q ∧
   ∃ out q,
     resampleByDistance planarKm points 100 = Some out ∧
     last out = Some q ∧
     oeq (ele q) (Some 2%Q) ∧
     ¬ oeq (ele q) (ele (mkPoint 0 (1 # 1000) (Some 3%Q)))) ∧
  (∃ targets,
     targets_f 20 22 0x1.199999999999ap+1 = Some targets ∧
     length targets = 12%nat ∧
     targets !! 10%nat = Some 0x1.5ffffffffffffp+4%float ∧
     targets !! 11%nat = Some 22%float ∧
     (10 * 0x1.199999999999ap+1 = 22)%float) ∧
  lerp_f 0x1.3333333333333p-2 0x1.ccccccccccccdp-1 1 = 0x1.ccccccccccccep-1%float.
Proof.
  intros points. split_and!.
  - vm_compute; reflexivity.
  - eexists. eexists. split; [vm_compute; reflexivity |].
    split; [reflexivity |]. split; vm_compute; [reflexivity | discriminate].
  - eexists. split; [vm_compute; reflexivity |]. by vm_compute.
  - by vm_compute.
Qed.

(** ** Cumulative arrays *)

Lemma lastOf_lookup (l : list Q) :
  (0 < length l)%nat → l !! (length l - 1)%nat = Some (lastOf l).
Proof.
  intros Hlen. unfold lastOf. rewrite last_lookup.
  replace (Init.Nat.pred (length l)) with (length l - 1)%nat by lia.
  destruct (lookup_lt_is_Some_2 l (length l - 1)) as [c Hc]; [lia |]. by rewrite Hc.
Qed.

Lemma cumOk_snoc (l : list Q) (x : Q) :
  cumOk l → (lastOf l <= x)%Q → cumOk (l ++ [x]).
Proof.
  intros [Hzero Hmono] Hx.
  assert (Hlen : (0 < length l)%nat) by (by eapply lookup_lt_Some).
  split.
  - by rewrite lookup_app_l.
  - intros i c c' Hi Hi'.
    assert (Hbound : (S i < length (l ++ [x]))%nat) by (by eapply lookup_lt_Some).
    rewrite length_app in Hbound. simpl in Hbound.
    rewrite lookup_app_l in Hi by lia.
    destruct (decide (S i < length l)%nat) as [Hin | Hout].
    + rewrite lookup_app_l in Hi' by done. by eapply Hmono.
    + rewrite lookup_app_r in Hi' by lia.
      replace (S i - length l)%nat with 0%nat in Hi' by lia. injection Hi' as <-.
      replace i with (length l - 1)%nat in Hi by lia.
      rewrite lastOf_lookup in Hi by done. by injection Hi as <-.
Qed.

Lemma mono_le (l : list Q) (i j : nat) (c c' : Q) :
  mono l → (i <= j)%nat → l !! i = Some c → l !! j = Some c' → (c <= c')%Q.
Proof.
  intros Hmono Hij Hi. revert c'. induction Hij as [| j Hij IH]; intros c' Hj.
  - rewrite Hi in Hj. injection Hj as <-. apply Qle_refl.
  - destruct (lookup_lt_is_Some_2 l j) as [cj Hcj].
    { apply lookup_lt_Some in Hj. lia. }
    eapply Qle_trans; [by apply IH | by eapply Hmono].
Qed.

Lemma max_half_min_nonneg (a b : Q) :
  (0 <= a)%Q → (0 <= b)%Q → (0 <= Qmax a b + (1 # 2) * Qmin a b)%Q.
Proof.
  intros Ha Hb.
  destruct (Q.max_spec a b) as [[_ ->] | [_ ->]];
    destruct (Q.min_spec a b) as [[_ ->] | [_ ->]]; lra.
Qed.

Lemma segTime_nonneg (cfg : settings) (distKm ascentM descentM : Q) :
  (0 < speedFlatKmh cfg)%Q → (0 < speedVertMh cfg)%Q → (0 < downhillFactor cfg)%Q →
  (0 <= distKm)%Q →
  (0 <= segTime cfg distKm ascentM descentM)%Q.
Proof.
  intros Hf Hv Hd Hdist.
  assert (Hh : (0 <= flatTime cfg distKm)%Q).
  { unfold flatTime. apply Qle_shift_div_l; [done | lra]. }
  assert (Hvt : (0 <= vertTime cfg ascentM descentM)%Q).
  { unfold vertTime. repeat case_Qltb; try lra;
      (apply Qle_shift_div_l; [done | lra]). }
  pose proof (max_half_min_nonneg _ _ Hh Hvt) as Hbase.
  unfold segTime. destruct (downhill ascentM descentM); [| done].
  apply Qmult_le_0_compat; [done | lra].
Qed.

Lemma ascentOf_nonneg (d : Q) : (0 <= ascentOf d)%Q.
Proof. destruct (ascent_descent_cases d) as [(? & -> & _) | [(? & -> & _) | (? & -> & _)]]; lra. Qed.

Lemma descentOf_nonneg (d : Q) : (0 <= descentOf d)%Q.
Proof. destruct (ascent_descent_cases d) as [(? & _ & ->) | [(? & _ & ->) | (? & _ & ->)]]; lra. Qed.

Lemma fillPass_length (last : option Q) (pts : list point) :
  length (fillPass last pts) = length pts.
Proof.
  revert last. induction pts as [| p r IH]; intros last; simpl; [done |].
  destruct (ele p); simpl; by rewrite IH.
Qed.

Lemma fillElevationOnPoints_length (pts : list point) :
  length (fillElevationOnPoints pts) = length pts.
Proof.
  unfold fillElevationOnPoints.
  by rewrite length_rev, fillPass_length, length_rev, fillPass_length.
Qed.

Section RunProofs.

Variable haversineKm : Q → Q → Q → Q → Q.

Lemma steps_shape (cfg : settings) (rs : list point) (ef : list (option Q)) (m : nat) :
  ∀ t, let t' := foldl (stepBody haversineKm cfg rs ef) t (seq 1 m) in
       t_latlngs t' = t_latlngs t ∧ t_breaks t' = t_breaks t ∧ rel4 (grows m) t t'.
Proof.
  induction m as [| m IH]; intros t; cbv zeta.
  - split_and!; try done. unfold rel4, grows.
    split_and!; exists []; by rewrite app_nil_r.
  - rewrite seq_S, foldl_app. cbn [foldl].
    destruct (IH t) as (Hl & Hb & Hd & Ha & Hde & Ht).
    set (t' := foldl (stepBody haversineKm cfg rs ef) t (seq 1 m)) in *.
    unfold stepBody. cbn [t_latlngs t_breaks]. split_and!; try done.
    unfold rel4, grows in *. cbn [t_dist t_asc t_des t_time].
    destruct Hd as (e1 & -> & H1), Ha as (e2 & -> & H2),
      Hde as (e3 & -> & H3), Ht as (e4 & -> & H4).
    split_and!; eexists; (split; [by rewrite <- app_assoc |]);
      rewrite length_app; simpl; lia.
Qed.

Hypothesis haversine_nonneg : ∀ a b c d, (0 <= haversineKm a b c d)%Q.

Lemma steps_ok (cfg : settings) (rs : list point) (ef : list (option Q)) (m : nat) :
  (0 < speedFlatKmh cfg)%Q → (0 < speedVertMh cfg)%Q → (0 < downhillFactor cfg)%Q →
  ∀ t, all4 cumOk t →
       all4 cumOk (foldl (stepBody haversineKm cfg rs ef) t (seq 1 m)).
Proof.
  intros Hf Hv Hd. induction m as [| m IH]; intros t Hok; [done |].
  rewrite seq_S, foldl_app. cbn [foldl].
  specialize (IH t Hok).
  set (t' := foldl (stepBody haversineKm cfg rs ef) t (seq 1 m)) in *.
  destruct IH as (H1 & H2 & H3 & H4).
  unfold stepBody, all4. cbn [t_dist t_asc t_des t_time].
  set (distKm := haversineKm _ _ _ _).
  assert (Hdist : (0 <= distKm)%Q) by apply haversine_nonneg.
  set (dEleF := dEleFOf _ _).
  pose proof (ascentOf_nonneg dEleF). pose proof (descentOf_nonneg dEleF).
  pose proof (segTime_nonneg cfg distKm (ascentOf dEleF) (descentOf dEleF) Hf Hv Hd Hdist).
  split_and!; apply cumOk_snoc; try done; lra.
Qed.

Lemma resample_two (points : list point) (sp : Q) :
  (0 < sp)%Q → (2 <= length points)%nat →
  ∃ out, resampleByDistance haversineKm points sp = Some out ∧ (2 <= length out)%nat.
Proof.
  intros Hsp Hlen.
  pose proof (total_lookup haversineKm points) as Htot.
  apply (arcLengths_nonneg haversineKm haversine_nonneg) in Htot.
  destruct (Qeq_dec (lastOf (arcLengths haversineKm points)) 0) as [Hz | Hnz].
  - rewrite (resample_zero haversineKm points sp Hz).
    eexists. split; [done |]. rewrite length_take. lia.
  - assert (Hpos : (0 < lastOf (arcLengths haversineKm points))%Q) by lra.
    destruct (resample_positive haversineKm points sp Hsp Hpos)
      as (n & out & Hn & Hle & Hgt & Hrun & Hall).
    destruct (finalTargets_spec n sp _ Hsp Hn Hle) as (_ & _ & _ & _ & _ & Hshape).
    exists out. split; [done |]. rewrite <- (Forall2_length _ _ _ Hall).
    destruct Hshape as [[Heq ->] | (_ & -> & _)]; [| lia].
    destruct n as [| [| n]]; [lia | | lia].
    change (Qn (1 - 1)) with 0%Q in Heq. lra.
Qed.

Lemma processSegment_char (cfg : settings) (t t' : track) (off off' : nat)
    (pts : list point) :
  processSegment haversineKm cfg (t, off) pts = Some (t', off') →
  t' = t ∨
  ∃ rs, (2 <= length rs)%nat ∧
    t_latlngs t' = t_latlngs t ++ map (fun p => (lat p, lon p)) rs ∧
    t_breaks t' = t_breaks t ++ [length (t_latlngs t)] ∧
    rel4 (fun a a' => grows (length rs - 1) (carried t a) a') t t' ∧
    ((0 < speedFlatKmh cfg)%Q → (0 < speedVertMh cfg)%Q → (0 < downhillFactor cfg)%Q →
     all4 cumOk t → all4 cumOk t').
Proof.
  unfold processSegment. intros Hrun.
  destruct (length pts <? 2)%nat; [left; congruence |].
  destruct (resampleByDistance haversineKm (fillElevationOnPoints pts) (spacingM cfg))
    as [rs |]; [| done].
  destruct (Nat.ltb_spec (length rs) 2) as [| Hrs]; [left; congruence |].
  right. exists rs. split; [done |].
  injection Hrun as <- _.
  match goal with
  | |- context [foldl (stepBody haversineKm cfg rs ?ef) ?t0 _] =>
      set (t3 := t0); set (elevFiltered := ef)
  end.
  destruct (steps_shape cfg rs elevFiltered (length rs - 1) t3) as (Hl & Hb & Hrel).
  rewrite Hl, Hb.
  assert (Harr : ∀ proj : track → list Q,
             (proj = t_dist ∨ proj = t_asc ∨ proj = t_des ∨ proj = t_time) →
             proj t3 = carried t (proj t)).
  { intros proj Hproj. subst t3. unfold carried. cbn [t_latlngs].
    destruct (0 <? length (t_latlngs t))%nat;
      destruct Hproj as [-> | [-> | [-> | ->]]]; reflexivity. }
  split_and!.
  - subst t3. cbn [t_latlngs]. by destruct (0 <? length (t_latlngs t))%nat.
  - subst t3. cbn [t_breaks t_latlngs]. by destruct (0 <? length (t_latlngs t))%nat.
  - destruct Hrel as (H1 & H2 & H3 & H4). unfold rel4.
    rewrite <- (Harr t_dist), <- (Harr t_asc), <- (Harr t_des), <- (Harr t_time) by tauto.
    done.
  - intros Hf Hv Hd (H1 & H2 & H3 & H4). apply steps_ok; try done.
    unfold all4.
    rewrite (Harr t_dist), (Harr t_asc), (Harr t_des), (Harr t_time) by tauto.
    unfold carried. destruct (0 <? length (t_latlngs t))%nat; [| done].
    split_and!; apply cumOk_snoc; try done; apply Qle_refl.
Qed.

Lemma processSegment_total (cfg : settings) (acc : track * nat) (pts : list point) :
  (0 < spacingM cfg)%Q → ∃ r, processSegment haversineKm cfg acc pts = Some r.
Proof.
  intros Hsp. destruct acc as [t off]. unfold processSegment.
  destruct (Nat.ltb_spec (length pts) 2) as [| Hlen]; [by eexists |].
  destruct (resample_two (fillElevationOnPoints pts) (spacingM cfg) Hsp)
    as (out & -> & Hout).
  { by rewrite fillElevationOnPoints_length. }
  destruct (Nat.ltb_spec (length out) 2); [lia |]. by eexists.
Qed.

Lemma processSegment_grows (cfg : settings) (t t' : track) (off off' : nat)
    (pts : list point) :
  (0 < spacingM cfg)%Q → (2 <= length pts)%nat →
  processSegment haversineKm cfg (t, off) pts = Some (t', off') →
  t' ≠ t.
Proof.
  intros Hsp Hlen Hrun Heq. subst t'. unfold processSegment in Hrun.
  destruct (Nat.ltb_spec (length pts) 2) as [| _]; [lia |].
  destruct (resample_two (fillElevationOnPoints pts) (spacingM cfg) Hsp)
    as (out & Hres & Hout).
  { by rewrite fillElevationOnPoints_length. }
  rewrite Hres in Hrun.
  destruct (Nat.ltb_spec (length out) 2); [lia |].
  injection Hrun as Hrun _.
  match type of Hrun with
  | foldl (stepBody haversineKm cfg out ?ef) ?t0 _ = _ =>
      destruct (steps_shape cfg out ef (length out - 1) t0) as (Hl & _ & _)
  end.
  rewrite Hrun in Hl. cbn [t_latlngs] in Hl.
  assert (Hcontra : length (t_latlngs t) =
                    length (t_latlngs t ++ map (fun p => (lat p, lon p)) out)).
  { destruct (0 <? length (t_latlngs t))%nat; cbn [pushCarry t_latlngs] in Hl;
      by rewrite <- Hl. }
  rewrite length_app, length_map in Hcontra. lia.
Qed.

Lemma processSegment_inv (cfg : settings) (t t' : track) (off off' : nat)
    (pts : list point) :
  processSegment haversineKm cfg (t, off) pts = Some (t', off') →
  aligned t → seams t →
  aligned t' ∧ seams t' ∧
  (length (t_latlngs t) <= length (t_latlngs t'))%nat ∧
  (t' ≠ t → (2 <= length (t_latlngs t'))%nat).
Proof.
  intros Hrun Hal Hse.
  destruct (processSegment_char cfg t t' off off' pts Hrun)
    as [-> | (rs & Hrs & Hl & Hb & Hrel & _)]; [by split_and! |].
  assert (Hlen' : length (t_latlngs t') = (length (t_latlngs t) + length rs)%nat).
  { by rewrite Hl, length_app, length_map. }
  assert (Hgrow : ∀ a a', length a = Nat.max 1 (length (t_latlngs t)) →
            grows (length rs - 1) (carried t a) a' →
            length a' = Nat.max 1 (length (t_latlngs t')) ∧
            (∀ b, (b < length (t_latlngs t))%nat → a' !! b = a !! b) ∧
            ((0 < length (t_latlngs t))%nat → seamAt (length (t_latlngs t)) a')).
  { intros a a' Ha (e & -> & He). unfold carried.
    destruct (Nat.ltb_spec 0 (length (t_latlngs t))) as [Hpos | Hzero].
    - split_and!.
      + rewrite !length_app, He, Hlen'. simpl. lia.
      + intros b Hb'. rewrite <- app_assoc. by rewrite lookup_app_l by lia.
      + intros _. exists (lastOf a). split.
        * rewrite <- app_assoc, lookup_app_l by lia.
          replace (length (t_latlngs t)) with (length a) by lia.
          apply lastOf_lookup. lia.
        * rewrite lookup_app_l by (rewrite length_app; simpl; lia).
          rewrite lookup_app_r by lia.
          by replace (length (t_latlngs t) - length a)%nat with 0%nat by lia.
    - split_and!.
      + rewrite length_app, He, Hlen'. lia.
      + intros b Hb'. lia.
      + intros Hpos. lia. }
  destruct Hal as (A1 & A2 & A3 & A4). destruct Hrel as (R1 & R2 & R3 & R4).
  destruct (Hgrow _ _ A1 R1) as (L1 & P1 & S1).
  destruct (Hgrow _ _ A2 R2) as (L2 & P2 & S2).
  destruct (Hgrow _ _ A3 R3) as (L3 & P3 & S3).
  destruct (Hgrow _ _ A4 R4) as (L4 & P4 & S4).
  split_and!; try done; try lia.
  intros b Hb'. rewrite Hb in Hb'. apply elem_of_app in Hb' as [Hold | Hnew].
  - destruct (Hse b Hold) as [Hlt Hseam]. split; [lia |].
    intros Hpos. destruct (Hseam Hpos) as (Q1 & Q2 & Q3 & Q4).
    unfold all4, seamAt in *.
    rewrite P1, P1, P2, P2, P3, P3, P4, P4 by lia. done.
  - apply list_elem_of_singleton in Hnew as ->. split; [lia |].
    intros Hpos. unfold all4. auto.
Qed.

Lemma processSegments_inv (cfg : settings) :
  (0 < speedFlatKmh cfg)%Q → (0 < speedVertMh cfg)%Q → (0 < downhillFactor cfg)%Q →
  (0 < spacingM cfg)%Q →
  ∀ (segments : list (list point)) (t : track) (off : nat),
    Forall (fun pts => (2 <= length pts)%nat) segments →
    aligned t → seams t → all4 cumOk t →
    ∃ t' off',
      processSegments haversineKm cfg (t, off) segments = Some (t', off') ∧
      aligned t' ∧ seams t' ∧ all4 cumOk t' ∧
      (length (t_latlngs t) <= length (t_latlngs t'))%nat ∧
      (segments ≠ [] → (2 <= length (t_latlngs t'))%nat).
Proof.
  intros Hf Hv Hd Hsp.
  induction segments as [| pts rest IH]; intros t off Hall Hal Hse Hok.
  - exists t, off. by split_and!.
  - apply Forall_cons in Hall as [Hpts Hrest]. cbn [processSegments].
    destruct (processSegment_total cfg (t, off) pts Hsp) as ([t1 off1] & Hrun).
    rewrite Hrun.
    destruct (processSegment_inv cfg t t1 off off1 pts Hrun Hal Hse)
      as (Hal1 & Hse1 & Hle1 & Htwo).
    pose proof (processSegment_grows cfg t t1 off off1 pts Hsp Hpts Hrun) as Hne.
    assert (Hok1 : all4 cumOk t1).
    { destruct (processSegment_char cfg t t1 off off1 pts Hrun)
        as [-> | (rs & _ & _ & _ & _ & Hcum)]; [done | by apply Hcum]. }
    destruct (IH t1 off1 Hrest Hal1 Hse1 Hok1)
      as (t' & off' & Hrun' & Hal' & Hse' & Hok' & Hle' & _).
    exists t', off'. split_and!; try done; try lia.
    intros _. specialize (Htwo Hne). lia.
Qed.

(** Every segment of two points or more opens with one entry of
    [trackBreakIdx]: the index of its first point. *)
Lemma processSegments_breaks (cfg : settings) :
  (0 < spacingM cfg)%Q →
  ∀ (segments : list (list point)) (t t' : track) (off off' : nat),
    Forall (fun pts => (2 <= length pts)%nat) segments →
    processSegments haversineKm cfg (t, off) segments = Some (t', off') →
    ∃ bs,
      t_breaks t' = t_breaks t ++ bs ∧ length bs = length segments ∧
      StronglySorted lt bs ∧
      Forall (fun b => (length (t_latlngs t) <= b)%nat) bs ∧
      (segments ≠ [] → bs !! 0%nat = Some (length (t_latlngs t))).
Proof.
  intros Hsp.
  induction segments as [| pts rest IH]; intros t t' off off' Hall Hrun.
  - injection Hrun as <- _. exists []. rewrite app_nil_r.
    split_and!; try done; constructor.
  - apply Forall_cons in Hall as [Hpts Hrest]. cbn [processSegments] in Hrun.
    destruct (processSegment haversineKm cfg (t, off) pts) as [[t1 off1] |] eqn:Hone;
      [| done].
    pose proof (processSegment_grows cfg t t1 off off1 pts Hsp Hpts Hone) as Hne.
    destruct (processSegment_char cfg t t1 off off1 pts Hone)
      as [-> | (rs & Hrs & Hl & Hb & _)]; [done |].
    destruct (IH t1 t' off1 off' Hrest Hrun) as (bs & Hbs & Hlen & Hsorted & Hlow & _).
    assert (Hgrow : (length (t_latlngs t) < length (t_latlngs t1))%nat).
    { rewrite Hl, length_app, length_map. lia. }
    exists (length (t_latlngs t) :: bs). split_and!.
    + by rewrite Hbs, Hb, <- app_assoc.
    + cbn [length]. by rewrite Hlen.
    + constructor; [done |]. eapply Forall_impl; [exact Hlow |]. cbn. lia.
    + constructor; [done |]. eapply Forall_impl; [exact Hlow |]. cbn. lia.
    + done.
Qed.

(** *** What the waypoint and table code leaves alone *)

Lemma trackOf_updateSummaryCard (st : state) :
  trackOf (updateSummaryCard st) = trackOf st.
Proof. reflexivity. Qed.

Lemma trackOf_renderRoadbooksTable (st : state) :
  trackOf (renderRoadbooksTable st) = trackOf st.
Proof. unfold renderRoadbooksTable. by case_match. Qed.

Lemma trackOf_setRoadbookLabel (idx : nat) (label : string) (st : state) :
  trackOf (setRoadbookLabel idx label st) = trackOf st.
Proof. unfold setRoadbookLabel. by case_match. Qed.

Lemma trackOf_addRoadbookIndex (i : nat) (noRender : bool) (label : string)
    (locked : bool) (st : state) :
  trackOf (addRoadbookIndex i noRender label locked st) = trackOf st.
Proof.
  unfold addRoadbookIndex.
  repeat case_match;
    rewrite ?trackOf_renderRoadbooksTable, ?trackOf_setRoadbookLabel; reflexivity.
Qed.

Lemma trackOf_importWaypoint (st : state) (wp : Q * Q * string) :
  trackOf (importWaypoint haversineKm st wp) = trackOf st.
Proof.
  unfold importWaypoint. destruct wp as [[la lo] name].
  repeat case_match;
    rewrite ?trackOf_addRoadbookIndex, ?trackOf_setRoadbookLabel; reflexivity.
Qed.

Lemma trackOf_import (wps : list (Q * Q * string)) (st : state) :
  trackOf (foldl (importWaypoint haversineKm) st wps) = trackOf st.
Proof.
  revert st. induction wps as [| wp wps IH]; intros st; simpl; [done |].
  by rewrite IH, trackOf_importWaypoint.
Qed.

Lemma parseGPXToSegments_usable (gpx : xmlDoc) :
  Forall (fun pts => (2 <= length pts)%nat) (parseGPXToSegments gpx).
Proof.
  apply Forall_forall. intros pts Hin. unfold parseGPXToSegments in Hin.
  destruct gpx as [| wpts rtepts trksegs]; [by apply elem_of_nil in Hin |].
  destruct trksegs as [| seg segs].
  - destruct (Nat.leb_spec 2 (length (omap toPoint rtepts))) as [Hle | _].
    + by apply list_elem_of_singleton in Hin as ->.
    + by apply elem_of_nil in Hin.
  - by apply list_elem_of_filter in Hin as [Hlen _].
Qed.

(** A run that finds segments returns, and its track part is what the
    segment loop has built. *)
Lemma calculate_run (f : form) (st : state) (gpx : xmlDoc) :
  gpxFile f = Some gpx → parseGPXToSegments gpx ≠ [] →
  ∃ st' t off,
    calculate haversineKm f st = Some st' ∧
    processSegments haversineKm (readSettings f)
      (mkTrack [] [] [0%Q] [0%Q] [0%Q] [0%Q], 0%nat) (parseGPXToSegments gpx) =
      Some (t, off) ∧
    trackOf st' = t ∧
    aligned t ∧ seams t ∧ all4 cumOk t ∧ (2 <= length (t_latlngs t))%nat.
Proof.
  intros Hfile Hsegs.
  destruct (readSettings_valid f) as (Hf & Hv & Hd & Hsp & _).
  destruct (processSegments_inv (readSettings f) Hf Hv Hd) with
    (segments := parseGPXToSegments gpx)
    (t := mkTrack [] [] [0%Q] [0%Q] [0%Q] [0%Q]) (off := 0%nat)
    as (t & off & Hrun & Hal & Hse & Hok & _ & Htwo).
  - lra.
  - apply parseGPXToSegments_usable.
  - by split_and!.
  - intros b Hb. by apply elem_of_nil in Hb.
  - unfold all4, cumOk, mono. cbn.
    split_and!; try done; intros i c c' Hi Hi'; by destruct i.
  - unfold calculate. rewrite Hfile, settings_check_passes.
    rewrite bool_decide_eq_false_2 by (by destruct (parseGPXToSegments gpx)).
    change (trackOf (resetGlobals st)) with (mkTrack [] [] [0%Q] [0%Q] [0%Q] [0%Q]).
    rewrite Hrun. eexists _, t, off. split; [reflexivity |].
    split; [done |]. split; [| by split_and!; auto].
    rewrite trackOf_updateSummaryCard, trackOf_renderRoadbooksTable.
    destruct (importRoadbooks f); rewrite ?trackOf_import;
      case_match; rewrite ?trackOf_addRoadbookIndex; by destruct t.
Qed.

(** C5, as the code has it. After a calculate run that finds segments, the
    four cumulative arrays have one entry per point of the global
    trajectory (their length is the point count, which is at least 2),
    their entry 0 is zero and they never decrease. *)
Theorem cumulative_arrays_aligned (f : form) (st : state) (gpx : xmlDoc)
    (Hfile : gpxFile f = Some gpx)
    (Hsegs : parseGPXToSegments gpx ≠ []) :
  ∃ st',
    calculate haversineKm f st = Some st' ∧
    (2 <= length (trackLatLngs st'))%nat ∧
    ∀ arr, arr ∈ [cumDistKm st'; cumAscentM st'; cumDescentM st'; cumTimeH st'] →
      length arr = length (trackLatLngs st') ∧
      arr !! 0%nat = Some 0%Q ∧
      ∀ i j c c', (i <= j)%nat → arr !! i = Some c → arr !! j = Some c' → (c <= c')%Q.
Proof.
  destruct (calculate_run f st gpx Hfile Hsegs)
    as (st' & t & off & Hrun & _ & Htr & Hal & _ & Hok & Htwo).
  exists st'. split; [done |].
  change (trackLatLngs st') with (t_latlngs (trackOf st')).
  change (cumDistKm st') with (t_dist (trackOf st')).
  change (cumAscentM st') with (t_asc (trackOf st')).
  change (cumDescentM st') with (t_des (trackOf st')).
  change (cumTimeH st') with (t_time (trackOf st')).
  rewrite Htr. split; [done |].
  destruct Hal as (A1 & A2 & A3 & A4). destruct Hok as (O1 & O2 & O3 & O4).
  intros arr Harr.
  repeat (apply elem_of_cons in Harr as [-> | Harr]);
    [| | | | by apply elem_of_nil in Harr];
    (split_and!; [lia | by match goal with H : cumOk _ |- _ => apply H end |]);
    intros i j c c'; apply mono_le;
    match goal with H : cumOk ?a |- mono ?a => apply H end.
Qed.

(** C6. A segment of two points or more that the segment loop appends to
    a trajectory that already has points is appended as follows: its start
    index, the number of points so far, is pushed to [trackBreakIdx], and
    every cumulative array becomes the old array, then one entry equal to
    its old last entry, then one entry per step of the new segment.  After
    a calculate run that finds segments, [trackBreakIdx] has one entry per
    segment of the file, in increasing order, the first one 0; every entry
    [b] is the index of a point of the trajectory, and at every entry [b]
    after the first each of the four arrays holds at [b] the value it holds
    at [b - 1]: the seam adds no distance, ascent, descent or time. *)
Theorem seam_entry_duplicates (f : form) (st : state) (gpx : xmlDoc)
    (Hfile : gpxFile f = Some gpx)
    (Hsegs : parseGPXToSegments gpx ≠ []) :
  (∀ cfg t off pts,
     t_latlngs t ≠ [] → (0 < spacingM cfg)%Q → (2 <= length pts)%nat →
     ∃ t' off' n,
       processSegment haversineKm cfg (t, off) pts = Some (t', off') ∧
       (2 <= n)%nat ∧
       length (t_latlngs t') = (length (t_latlngs t) + n)%nat ∧
       t_breaks t' = t_breaks t ++ [length (t_latlngs t)] ∧
       rel4 (fun a a' => ∃ e, a' = a ++ [lastOf a] ++ e ∧ length e = (n - 1)%nat) t t') ∧
  ∃ st',
    calculate haversineKm f st = Some st' ∧
    length (trackBreakIdx st') = length (parseGPXToSegments gpx) ∧
    trackBreakIdx st' !! 0%nat = Some 0%nat ∧
    StronglySorted lt (trackBreakIdx st') ∧
    ∀ b, b ∈ trackBreakIdx st' →
      (b < length (trackLatLngs st'))%nat ∧
      ((0 < b)%nat →
       ∀ arr, arr ∈ [cumDistKm st'; cumAscentM st'; cumDescentM st'; cumTimeH st'] →
         ∃ c, arr !! (b - 1)%nat = Some c ∧ arr !! b = Some c).
Proof.
  split.
  - intros cfg t off pts Hne Hsp Hpts.
    destruct (processSegment_total cfg (t, off) pts Hsp) as ([t' off'] & Hrun).
    pose proof (processSegment_grows cfg t t' off off' pts Hsp Hpts Hrun) as Hchg.
    destruct (processSegment_char cfg t t' off off' pts Hrun)
      as [-> | (rs & Hrs & Hl & Hb & Hrel & _)]; [done |].
    exists t', off', (length rs). split_and!; try done.
    + by rewrite Hl, length_app, length_map.
    + unfold rel4, grows, carried in *.
      destruct (Nat.ltb_spec 0 (length (t_latlngs t))) as [_ | Hz].
      * destruct Hrel as ((e1 & -> & ?) & (e2 & -> & ?) & (e3 & -> & ?) & (e4 & -> & ?)).
        split_and!; eexists; (split; [by rewrite <- app_assoc | done]).
      * destruct (t_latlngs t); [done | simpl in Hz; lia].
  - destruct (calculate_run f st gpx Hfile Hsegs)
      as (st' & t & off & Hrun & Hloop & Htr & _ & Hse & _ & _).
    destruct (readSettings_valid f) as (_ & _ & _ & Hsp1 & _).
    assert (Hsp : (0 < spacingM (readSettings f))%Q) by lra.
    destruct (processSegments_breaks (readSettings f) Hsp _ _ _ _ _
                (parseGPXToSegments_usable gpx) Hloop)
      as (bs & Hbs & Hlen & Hsorted & _ & Hhead).
    cbn [t_breaks t_latlngs app length] in Hbs, Hhead.
    exists st'. split; [done |].
    change (trackLatLngs st') with (t_latlngs (trackOf st')).
    change (trackBreakIdx st') with (t_breaks (trackOf st')).
    change (cumDistKm st') with (t_dist (trackOf st')).
    change (cumAscentM st') with (t_asc (trackOf st')).
    change (cumDescentM st') with (t_des (trackOf st')).
    change (cumTimeH st') with (t_time (trackOf st')).
    rewrite Htr, Hbs. split_and!; [done | by apply Hhead | done |].
    rewrite <- Hbs. intros b Hb. destruct (Hse b Hb) as [Hlt Hseam].
    split; [done |]. intros Hpos arr Harr.
    destruct (Hseam Hpos) as (S1 & S2 & S3 & S4).
    repeat (apply elem_of_cons in Harr as [-> | Harr]); try done.
    by apply elem_of_nil in Harr.
Qed.

End RunProofs.

Lemma cumulative_arrays_aligned_witness :
  ∃ st',
    calculate planarKm twoSegments initialState = Some st' ∧
    (2 <= length (trackLatLngs st'))%nat ∧
    ∀ arr, arr ∈ [cumDistKm st'; cumAscentM st'; cumDescentM st'; cumTimeH st'] →
      length arr = length (trackLatLngs st') ∧
      arr !! 0%nat = Some 0%Q ∧
      ∀ i j c c', (i <= j)%nat → arr !! i = Some c → arr !! j = Some c' → (c <= c')%Q.
Proof.
  eapply (cumulative_arrays_aligned planarKm planarKm_nonneg twoSegments initialState).
  - reflexivity.
  - vm_compute. discriminate.
Defined.

(** C5 as stated fails on the code: after the run on a segment of two
    points 11 metres apart, resampled every 5 metres, the trajectory has 4
    points and every cumulative array has 4 entries, not 5. *)
Lemma cumulative_length_counterexample :
  ∃ st',
    calculate planarKm oneSegment initialState = Some st' ∧
    length (trackLatLngs st') = 4%nat ∧
    length (cumDistKm st') = 4%nat ∧
    length (cumDistKm st') ≠ (length (trackLatLngs st') + 1)%nat.
Proof.
  eexists. split; [vm_compute; reflexivity |].
  split_and!; [reflexivity | reflexivity | discriminate].
Qed.

Lemma seam_entry_duplicates_witness :
  ∃ st',
    calculate planarKm twoSegments initialState = Some st' ∧
    trackBreakIdx st' = [0; 4]%nat ∧
    length (trackLatLngs st') = 6%nat ∧
    ∀ arr, arr ∈ [cumDistKm st'; cumAscentM st'; cumDescentM st'; cumTimeH st'] →
      ∃ c, arr !! 3%nat = Some c ∧ arr !! 4%nat = Some c.
Proof.
  assert (Hsegs : parseGPXToSegments twoSegmentsDoc ≠ [])
    by (vm_compute; discriminate).
  destruct (proj2 (seam_entry_duplicates planarKm planarKm_nonneg twoSegments
                     initialState twoSegmentsDoc eq_refl Hsegs))
    as (st' & Hrun & _ & _ & _ & Hseam).
  assert (Hb : trackBreakIdx <$> calculate planarKm twoSegments initialState =
               Some [0; 4]%nat) by (by vm_compute).
  assert (Hn : (fun s => length (trackLatLngs s)) <$>
                 calculate planarKm twoSegments initialState = Some 6%nat)
    by (by vm_compute).
  rewrite Hrun in Hb, Hn. injection Hb as Hb. injection Hn as Hn.
  exists st'. split; [done |]. split; [done |]. split; [done |].
  apply (proj2 (Hseam 4%nat ltac:(rewrite Hb; apply elem_of_cons; right;
                                   apply elem_of_cons; by left))).
  lia.
Defined.

(** * Further properties of the script *)

(** ** Utils *)

(** X1. With odd bounds [minOdd <= maxOdd], [clampToOdd] returns an odd
    number within the bounds, at most 1 away from the clamped value. *)
Theorem clampToOdd_odd (val minOdd maxOdd : Z)
    (Hmin : Z.odd minOdd = true) (Hmax : Z.odd maxOdd = true)
    (Hle : (minOdd <= maxOdd)%Z) :
  let r := clampToOdd val minOdd maxOdd in
  Z.odd r = true ∧ (minOdd <= r <= maxOdd)%Z ∧
  (Z.abs (r - clampZ val minOdd maxOdd) <= 1)%Z.
Proof.
  rewrite Zodd_mod in Hmin, Hmax. apply Z.eqb_eq in Hmin, Hmax.
  unfold clampToOdd. cbv zeta.
  assert (Hv : (minOdd <= clampZ val minOdd maxOdd <= maxOdd)%Z)
    by (unfold clampZ; lia).
  set (v := clampZ val minOdd maxOdd) in *.
  pose proof (Z.mod_pos_bound v 2 eq_refl) as Hmod.
  destruct (Z.eqb_spec (v mod 2) 0) as [Hev | Hodd].
  - assert (Hlt : (v < maxOdd)%Z).
    { destruct (decide (v = maxOdd)) as [E | ?]; [| lia]. rewrite E in Hev. lia. }
    destruct (Z.leb_spec maxOdd v) as [? | _]; [lia |].
    split; [| split; lia].
    rewrite Zodd_mod. apply Z.eqb_eq.
    rewrite Z.add_mod, Hev by lia. reflexivity.
  - split; [| split; lia].
    rewrite Zodd_mod. apply Z.eqb_eq. lia.
Qed.

Lemma clampToOdd_odd_witness :
  let r := clampToOdd (Z.max 3 (round (40 / 5))) 3 999 in
  Z.odd r = true ∧ (3 <= r <= 999)%Z ∧
  (Z.abs (r - clampZ (Z.max 3 (round (40 / 5))) 3 999) <= 1)%Z.
Proof.
  apply (clampToOdd_odd (Z.max 3 (round (40 / 5))) 3 999); [reflexivity | reflexivity | lia].
Defined.

(** ** Per-step time model *)

Lemma vertTime_abs (cfg : settings) (dEleF : Q) :
  (0 < speedVertMh cfg)%Q →
  (vertTime cfg (ascentOf dEleF) (descentOf dEleF) == Qabs dEleF / speedVertMh cfg)%Q.
Proof.
  intros Hv. unfold vertTime.
  destruct (ascent_descent_cases dEleF)
    as [(Hd & -> & ->) | [(Hd & -> & ->) | (Hd & -> & ->)]].
  - rewrite (proj2 (Qltb_true 0 dEleF) Hd), (proj2 (Qltb_true 0 dEleF) Hd).
    rewrite Qabs_pos by lra. reflexivity.
  - assert (Hn : (0 < - dEleF)%Q) by lra.
    rewrite (proj2 (Qltb_false 0 0) (Qle_refl 0)), (proj2 (Qltb_true _ _) Hn).
    rewrite Qabs_neg by lra. reflexivity.
  - rewrite (proj2 (Qltb_false 0 0) (Qle_refl 0)), (proj2 (Qltb_false 0 0) (Qle_refl 0)).
    rewrite Hd. change (Qabs 0) with 0%Q. field. lra.
Qed.

(** X2. The time of a step lies between the larger of its flat time [h]
    and its vertical time [v] and their sum [h + v], both scaled by the
    downhill factor when the step descends. *)
Theorem segTime_between (cfg : settings) (distKm dEleF : Q)
    (Hflat : (0 < speedFlatKmh cfg)%Q) (Hvert : (0 < speedVertMh cfg)%Q)
    (Hfactor : (0 <= downhillFactor cfg)%Q) (Hdist : (0 <= distKm)%Q) :
  let h := (distKm / speedFlatKmh cfg)%Q in
  let v := (Qabs dEleF / speedVertMh cfg)%Q in
  let k := if Qltb dEleF 0 then downhillFactor cfg else 1%Q in
  let T := segTime cfg distKm (ascentOf dEleF) (descentOf dEleF) in
  (k * Qmax h v <= T)%Q ∧ (T <= k * (h + v))%Q.
Proof.
  intros h v k T.
  assert (Hh : (0 <= h)%Q) by (apply Qle_shift_div_l; [done | lra]).
  assert (Hv : (0 <= v)%Q).
  { apply Qle_shift_div_l; [done |]. pose proof (Qabs_nonneg dEleF). lra. }
  assert (Hbase : (T == k * (Qmax h v + (1 # 2) * Qmin h v))%Q).
  { subst T k. unfold segTime, flatTime. fold h.
    pose proof (vertTime_abs cfg dEleF Hvert) as Hvt. fold v in Hvt.
    unfold downhill.
    destruct (ascent_descent_cases dEleF)
      as [(Hd & Ha & He) | [(Hd & Ha & He) | (Hd & Ha & He)]];
      rewrite Ha, He in Hvt |- *.
    - rewrite (proj2 (Qltb_false 0 0) (Qle_refl 0)).
      rewrite (proj2 (Qltb_false dEleF 0)) by lra. cbn [andb].
      rewrite Hvt. ring.
    - rewrite (proj2 (Qltb_true 0 (- dEleF))) by lra.
      rewrite (proj2 (Qle_bool_iff 0 (- dEleF))) by lra.
      rewrite (proj2 (Qltb_true dEleF 0)) by lra. cbn [andb].
      rewrite Hvt. ring.
    - rewrite (proj2 (Qltb_false 0 0) (Qle_refl 0)).
      rewrite (proj2 (Qltb_false dEleF 0)) by lra. cbn [andb].
      rewrite Hvt. ring. }
  assert (Hk : (0 <= k)%Q) by (subst k; destruct (Qltb dEleF 0); lra).
  rewrite Hbase.
  destruct (Q.max_spec h v) as [[? E] | [? E]];
    destruct (Q.min_spec h v) as [[? E'] | [? E']]; rewrite E, E'; nra.
Qed.

Lemma segTime_between_witness :
  let cfg := mkSettings 4 300 (2 # 3) 5 35 2 in
  let T := segTime cfg (1 # 10) (ascentOf (-6)) (descentOf (-6)) in
  ((2 # 3) * Qmax ((1 # 10) / 4) (Qabs (-6) / 300) <= T)%Q ∧
  (T <= (2 # 3) * ((1 # 10) / 4 + Qabs (-6) / 300))%Q.
Proof.
  apply (segTime_between (mkSettings 4 300 (2 # 3) 5 35 2) (1 # 10) (-6));
    vm_compute; first [reflexivity | discriminate].
Defined.

(** ** Median filter *)

Lemma insertSorted_elem (x y : Q) (l : list Q) :
  y ∈ insertSorted x l ↔ y = x ∨ y ∈ l.
Proof.
  induction l as [| z r IH]; simpl.
  - rewrite list_elem_of_singleton. split; [by left | intros [? | H]; [done |]].
    by apply elem_of_nil in H.
  - destruct (Qle_bool x z); rewrite !elem_of_cons; [tauto |]. rewrite IH. tauto.
Qed.

Lemma sortNum_elem (y : Q) (l : list Q) : y ∈ sortNum l ↔ y ∈ l.
Proof.
  unfold sortNum. induction l as [| x r IH]; simpl; [done |].
  rewrite insertSorted_elem, IH, elem_of_cons. tauto.
Qed.

Lemma insertSorted_length (x : Q) (l : list Q) :
  length (insertSorted x l) = S (length l).
Proof.
  induction l as [| z r IH]; simpl; [done |].
  destruct (Qle_bool x z); simpl; [done | by rewrite IH].
Qed.

Lemma sortNum_length (l : list Q) : length (sortNum l) = length l.
Proof.
  unfold sortNum. induction l as [| x r IH]; simpl; [done |].
  by rewrite insertSorted_length, IH.
Qed.

Lemma at_Some (arr : list (option Q)) (k : nat) (x : Q) :
  at_ arr k = Some x → Some x ∈ arr.
Proof.
  unfold at_. destruct (arr !! k) as [[y |] |] eqn:Hk; simpl; try done.
  intros [= ->]. by eapply list_elem_of_lookup_2.
Qed.

Lemma window_values (arr : list (option Q)) (ks : list nat) (x : Q) :
  x ∈ omap (at_ arr) ks → Some x ∈ arr.
Proof.
  intros Hx. apply list_elem_of_omap in Hx as (k & _ & Hk). by eapply at_Some.
Qed.

Lemma medianAt_between (arr : list (option Q)) (half i : nat) (m : Q) :
  medianAt arr half i = Some m →
  ∃ a b, Some a ∈ arr ∧ Some b ∈ arr ∧ (a <= m)%Q ∧ (m <= b)%Q.
Proof.
  unfold medianAt. cbv zeta.
  remember (omap (at_ arr) _) as vals eqn:Hvals.
  assert (Hin : ∀ x, x ∈ sortNum vals → Some x ∈ arr).
  { intros x Hx. apply (proj1 (sortNum_elem _ _)) in Hx. rewrite Hvals in Hx.
    by eapply window_values. }
  pose proof (sortNum_length vals) as Hlen.
  destruct vals as [| v0 vs]; [done |].
  set (sorted := sortNum (v0 :: vs)) in *. cbn [length] in Hlen.
  destruct (Nat.eqb_spec (length sorted mod 2) 0) as [Heven | Hodd].
  - intros Hm.
    assert (Hmid : (1 <= length sorted / 2 < length sorted)%nat).
    { pose proof (Nat.div_mod_eq (length sorted) 2) as Hdm. lia. }
    destruct (lookup_lt_is_Some_2 sorted (length sorted / 2 - 1)) as [x Hx]; [lia |].
    destruct (lookup_lt_is_Some_2 sorted (length sorted / 2)) as [y Hy]; [lia |].
    rewrite Hx, Hy in Hm. unfold num in Hm. cbn [default from_option id] in Hm.
    apply (inj Some) in Hm. rewrite <- Hm.
    pose proof (Hin x (list_elem_of_lookup_2 _ _ _ Hx)).
    pose proof (Hin y (list_elem_of_lookup_2 _ _ _ Hy)).
    destruct (Qlt_le_dec x y).
    + exists x, y. split_and!; try done.
      * apply Qle_shift_div_l; [reflexivity | lra].
      * apply Qle_shift_div_r; [reflexivity | lra].
    + exists y, x. split_and!; try done.
      * apply Qle_shift_div_l; [reflexivity | lra].
      * apply Qle_shift_div_r; [reflexivity | lra].
  - intros Hm. exists m, m.
    pose proof (Hin m (list_elem_of_lookup_2 _ _ _ Hm)).
    split_and!; try done; apply Qle_refl.
Qed.

Lemma medianAt_present (arr : list (option Q)) (half i : nat) (x : Q) :
  arr !! i = Some (Some x) → is_Some (medianAt arr half i).
Proof.
  intros Hi. assert (Hlt : (i < length arr)%nat) by (by eapply lookup_lt_Some).
  unfold medianAt. cbv zeta.
  remember (omap (at_ arr) _) as vals eqn:Hvals.
  assert (Hx : x ∈ vals).
  { rewrite Hvals. apply list_elem_of_omap. exists i. split.
    - apply elem_of_seq. lia.
    - by apply at_lookup. }
  pose proof (sortNum_length vals) as Hlen.
  destruct vals as [| v0 vs]; [by apply elem_of_nil in Hx |].
  set (sorted := sortNum (v0 :: vs)) in *. cbn [length] in Hlen.
  destruct (Nat.eqb_spec (length sorted mod 2) 0) as [Heven | Hodd]; [by eexists |].
  apply lookup_lt_is_Some_2.
  pose proof (Nat.div_mod_eq (length sorted) 2) as Hdm. lia.
Qed.

(** X3. The median filter keeps the length; every value it returns lies
    between two present values of its input; and where the input has a
    value the output has one too. *)
Theorem medianFilter_between (arr : list (option Q)) (win : nat) :
  length (medianFilter arr win) = length arr ∧
  (∀ i m, medianFilter arr win !! i = Some (Some m) →
     ∃ a b, Some a ∈ arr ∧ Some b ∈ arr ∧ (a <= m)%Q ∧ (m <= b)%Q) ∧
  (∀ i x, arr !! i = Some (Some x) →
     ∃ m, medianFilter arr win !! i = Some (Some m)).
Proof.
  unfold medianFilter. cbv zeta. split_and!.
  - by rewrite length_map, length_seq.
  - intros i m Hi. rewrite list_lookup_fmap in Hi.
    destruct (seq 0 (length arr) !! i) as [k |] eqn:Hk; [| done].
    cbn [fmap option_fmap option_map] in Hi. injection Hi as Hi.
    by eapply medianAt_between.
  - intros i x Hi.
    assert (Hlt : (i < length arr)%nat) by (by eapply lookup_lt_Some).
    rewrite list_lookup_fmap, lookup_seq_lt by done.
    destruct (medianAt_present arr (win / 2) i x Hi) as [m Hm].
    exists m. cbn [fmap option_fmap option_map Nat.add]. by rewrite Hm.
Qed.

(** X4. A constant input, every sample present and equal to [v], comes
    out of the median filter constant: every output value equals [v]. *)
Theorem medianFilter_constant (arr : list (option Q)) (win : nat) (v : Q)
    (Hconst : ∀ e, e ∈ arr → e = Some v) :
  ∀ i, (i < length arr)%nat →
       ∃ m, medianFilter arr win !! i = Some (Some m) ∧ (m == v)%Q.
Proof.
  intros i Hi.
  destruct (lookup_lt_is_Some_2 arr i Hi) as [e He].
  pose proof (Hconst e (list_elem_of_lookup_2 _ _ _ He)) as ->.
  destruct (medianAt_present arr (win / 2) i v He) as [m Hm]. exists m. split.
  - unfold medianFilter. cbv zeta.
    rewrite list_lookup_fmap, lookup_seq_lt by done.
    cbn [fmap option_fmap option_map Nat.add]. by rewrite Hm.
  - destruct (medianAt_between arr (win / 2) i m Hm) as (a & b & Ha & Hb & Hle & Hge).
    apply Hconst in Ha, Hb. injection Ha as ->. injection Hb as ->. lra.
Qed.

Lemma medianFilter_constant_witness :
  ∃ m, medianFilter [Some 7; Some 7; Some 7; Some 7]%Q 3 !! 2%nat = Some (Some m) ∧
       (m == 7)%Q.
Proof.
  apply (medianFilter_constant [Some 7; Some 7; Some 7; Some 7]%Q 3 7);
    [| simpl; lia].
  intros e He. repeat (apply elem_of_cons in He as [-> | He]; [done |]).
  by apply elem_of_nil in He.
Defined.

(** ** Deadband filter on a profile without gaps *)

Lemma first_present (elev : list (option Q)) (x : Q) :
  Some x ∈ elev →
  ∃ i0 first, elev !! i0 = Some (Some first) ∧
              ∀ k, (k < i0)%nat → elev !! k = Some None.
Proof.
  induction elev as [| e r IH]; intros Hin; [by apply elem_of_nil in Hin |].
  destruct e as [v |].
  - exists 0%nat, v. split; [done |]. intros k Hk. lia.
  - apply elem_of_cons in Hin as [Heq | Hin]; [done |].
    destruct (IH Hin) as (i0 & first & Hfirst & Hnull).
    exists (S i0), first. split; [done |].
    intros [| k] Hk; [done |]. apply Hnull. lia.
Qed.

(** The filter on [x0 :: rest], all samples present. *)
Lemma deadband_nullfree (x0 : Q) (rest : list Q) (d : Q) :
  let out := cumulativeDeadbandFilter (Some <$> x0 :: rest) d in
  let run := dbRun d (Some x0) x0 0 (Some <$> rest) in
  length out = S (length rest) ∧
  out !! 0%nat = Some (Some x0) ∧
  ∀ j, (j < length rest)%nat → out !! S j = Some (Some (run !!! j).1).
Proof.
  intros out run.
  destruct (deadband_lookup (Some <$> x0 :: rest) d x0 0) as [Hlen Hlook];
    [done | intros k Hk; lia |].
  fold out in Hlen, Hlook.
  rewrite length_fmap in Hlen, Hlook. cbn [length] in Hlen, Hlook.
  split; [done |]. split.
  - rewrite Hlook by lia. done.
  - intros j Hj. rewrite Hlook by lia.
    case_decide; [lia |]. replace (S j - 1)%nat with j by lia. done.
Qed.

Lemma sign_band (d e : Q) :
  (0 <= d)%Q → (d < Qabs e)%Q →
  (sign e == 1 ∧ 0 < e)%Q ∨ (sign e == -1 ∧ e < 0)%Q.
Proof.
  intros Hd He. unfold sign.
  destruct (Qlt_le_dec 0 e) as [Hpos | Hle]; [left; split; [reflexivity | done] |].
  destruct (Qlt_le_dec e 0) as [Hneg | Hge]; [right; split; [reflexivity | done] |].
  rewrite Qabs_neg in He by done. lra.
Qed.

Lemma dbRun_length (d : Q) (rest : list (option Q)) :
  ∀ p o e, length (dbRun d p o e rest) = length rest.
Proof.
  induction rest as [| x r IH]; intros p o e; [done |].
  rewrite dbRun_cons. cbv zeta. cbn [length]. by rewrite IH.
Qed.

(** A turn of the loop on two present samples [p] and [x]. *)
Lemma dbRun_present (d p x o e : Q) (r : list Q) :
  dbRun d (Some p) o e (Some <$> x :: r) =
    let e' := (e + (x - p))%Q in
    let res :=
      if Qltb d (Qabs e') then ((o + (e' - sign e' * d))%Q, (sign e' * d)%Q)
      else (o, e') in
    res :: dbRun d (Some x) res.1 res.2 (Some <$> r).
Proof. cbn [fmap list_fmap]. by rewrite dbRun_cons. Qed.

Lemma deadband_nullfree_eq (x0 : Q) (rest : list Q) (d : Q) :
  cumulativeDeadbandFilter (Some <$> x0 :: rest) d =
    Some <$> x0 :: (dbRun d (Some x0) x0 0 (Some <$> rest)).*1.
Proof.
  destruct (deadband_nullfree x0 rest d) as (Hlen & H0 & Hlook).
  apply list_eq_same_length with (S (length rest));
    [by rewrite length_fmap; cbn [length]; rewrite length_fmap, dbRun_length, length_fmap
    | done |].
  intros k a b Hk Ha Hb.
  destruct k as [| j]; [cbn in Hb; congruence |].
  rewrite Hlook in Ha by lia. injection Ha as <-.
  destruct (lookup_lt_is_Some_2 (dbRun d (Some x0) x0 0 (Some <$> rest)) j)
    as [pr Hpr]; [rewrite dbRun_length, length_fmap; lia |].
  rewrite (list_lookup_total_correct _ _ _ Hpr).
  rewrite list_lookup_fmap in Hb.
  change ((x0 :: ?l) !! S j) with (l !! j) in Hb.
  rewrite list_lookup_fmap, Hpr in Hb. cbn in Hb. congruence.
Qed.

(** On a climb the error never falls below 0 and the output never
    drops; on a descent the error never exceeds 0 and the output never
    rises. *)
Lemma dbRun_towards (up : bool) (d : Q) (Hd : (0 <= d)%Q) (rest : list Q) :
  ∀ (p o e : Q), towards up 0 e → Sorted (towards up) (p :: rest) →
    Sorted (towards up) (o :: (dbRun d (Some p) o e (Some <$> rest)).*1).
Proof.
  induction rest as [| x r IH]; intros p o e He Hs.
  { repeat constructor. }
  apply Sorted_inv in Hs as [Hs Hpx]. apply HdRel_inv in Hpx.
  rewrite dbRun_present. cbv zeta.
  set (e' := (e + (x - p))%Q).
  assert (He' : towards up 0 e').
  { subst e'. destruct up; cbn [towards] in *; lra. }
  assert (Hres :
    let res := if Qltb d (Qabs e') then ((o + (e' - sign e' * d))%Q, (sign e' * d)%Q)
               else (o, e') in
    towards up o res.1 ∧ towards up 0 res.2).
  { case_Qltb; cbn [fst snd]; [| split; [destruct up; cbn [towards]; lra | done]].
    destruct (sign_band d e' Hd Hlt) as [[Hsg Hpos] | [Hsg Hneg]];
      destruct up; cbn [towards] in *; rewrite Hsg; try lra.
    - rewrite Qabs_pos in Hlt by lra. lra.
    - rewrite Qabs_neg in Hlt by lra. lra. }
  cbv zeta in Hres. destruct Hres as [Ho Hnext].
  cbn [fmap list_fmap]. constructor.
  - by apply IH.
  - by constructor.
Qed.

(** X7. On a profile without gaps that never descends, the filtered
    profile never descends either; on one that never climbs, the filtered
    profile never climbs (deadband not negative). *)
Theorem deadband_keeps_direction (up : bool) (xs : list Q) (d : Q)
    (Hd : (0 <= d)%Q) (Hdir : Sorted (towards up) xs) :
  ∃ os, cumulativeDeadbandFilter (Some <$> xs) d = Some <$> os ∧
        Sorted (towards up) os.
Proof.
  destruct xs as [| x0 rest]; [by exists [] |].
  eexists. split; [apply deadband_nullfree_eq |].
  apply dbRun_towards; [done | | done].
  destruct up; cbn [towards]; lra.
Qed.

Lemma deadband_keeps_direction_witness :
  ∃ os, cumulativeDeadbandFilter (Some <$> [100; 102; 102; 107]%Q) 3 = Some <$> os ∧
        Sorted (towards true) os.
Proof.
  apply (deadband_keeps_direction true [100; 102; 102; 107]%Q 3); [lra |].
  repeat constructor; by vm_compute.
Defined.

(** X8. The deadband filter keeps the length of any input; an input
    with no present sample is returned as it is; and when the input has a
    present sample the output has no null at all. *)
Theorem deadband_gaps (elev : list (option Q)) (d : Q) :
  let out := cumulativeDeadbandFilter elev d in
  length out = length elev ∧
  ((∀ e, e ∈ elev → e = None) → out = elev) ∧
  (∀ x, Some x ∈ elev → Forall is_Some out).
Proof.
  intros out.
  assert (Hnone : (∀ e, e ∈ elev → e = None) → out = elev).
  { intros Hall. subst out. unfold cumulativeDeadbandFilter.
    destruct (Nat.eqb_spec (length elev) 0) as [Hz | Hnz].
    { symmetry. by apply nil_length_inv. }
    destruct (firstNonNull_inv elev (length elev) 0 (at_ elev 0))
      as (f & j & -> & Hj & -> & _); try done; try lia.
    destruct (lookup_lt_is_Some_2 elev j Hj) as [e He].
    rewrite (at_lookup _ _ _ He).
    by rewrite (Hall e (list_elem_of_lookup_2 _ _ _ He)). }
  assert (Hsome : ∀ x, Some x ∈ elev → length out = length elev ∧ Forall is_Some out).
  { intros x Hx. destruct (first_present elev x Hx) as (i0 & first & Hfirst & Hnull).
    destruct (deadband_lookup elev d first i0 Hfirst Hnull) as [Hlen Hlook].
    fold out in Hlen, Hlook. split; [done |].
    apply Forall_lookup. intros k o Ho.
    assert (Hk : (k < length elev)%nat).
    { rewrite <- Hlen. by eapply lookup_lt_Some. }
    rewrite (Hlook k Hk) in Ho. injection Ho as <-. by eexists. }
  split_and!; [| done | intros x Hx; by apply (Hsome x)].
  assert (Hdec : ∀ e : option Q, {e = None} + {is_Some e}).
  { intros [v |]; [right; by eexists | by left]. }
  destruct (Forall_Exists_dec _ _ Hdec elev) as [Hall | Hex].
  - rewrite Hnone; [done |]. by apply Forall_forall.
  - apply Exists_exists in Hex as (e & He & [x ->]). by apply (Hsome x).
Qed.

(** ** Nearest point *)

Section NearestProofs.
Variable haversineKm : Q → Q → Q → Q → Q.

Lemma nearest_loop (la lo : Q) (latlngs : list (Q * Q)) (m : nat) :
  (m <= length latlngs)%nat →
  let step := fun (acc : nat * option Q) i =>
    let '(bestIdx, bestD) := acc in
    let '(lb, lob) := default (0%Q, 0%Q) (latlngs !! i) in
    let d := haversineKm la lo lb lob in
    match bestD with
    | None => (i, Some d)
    | Some b => if Qltb d b then (i, Some d) else acc
    end in
  let acc := foldl step (0%nat, None) (seq 0 m) in
  (m = 0%nat ∧ acc = (0%nat, None)) ∨
  ((acc.1 < m)%nat ∧
   ∃ rb rob, latlngs !! acc.1 = Some (rb, rob) ∧
     acc.2 = Some (haversineKm la lo rb rob) ∧
     ∀ i lb lob, (i < m)%nat → latlngs !! i = Some (lb, lob) →
       (haversineKm la lo rb rob <= haversineKm la lo lb lob)%Q ∧
       ((i < acc.1)%nat → (haversineKm la lo rb rob < haversineKm la lo lb lob)%Q)).
Proof.
  intros Hm step. induction m as [| m IH]; [by left |].
  right. rewrite seq_S, foldl_app. cbn [foldl Nat.add].
  destruct (lookup_lt_is_Some_2 latlngs m) as [[mb mob] Hmth]; [lia |].
  destruct IH as [[-> ->] | (Hlt & rb & rob & Hr & Hd & Hmin)]; [lia | |].
  - cbn [step]. rewrite Hmth. cbn [default from_option id fst snd].
    split; [lia |]. exists mb, mob. split_and!; [done | done |].
    intros i lb lob Hi Hith. assert (i = 0%nat) as -> by lia.
    rewrite Hmth in Hith. injection Hith as <- <-. split; [lra | lia].
  - destruct (foldl step (0%nat, None) (seq 0 m)) as [bi bd].
    cbn [fst snd] in Hlt, Hr, Hd, Hmin. subst bd.
    cbn [step]. rewrite Hmth. cbn [default from_option id].
    case_Qltb; cbn [fst snd].
    + split; [lia |]. exists mb, mob. split_and!; [done | done |].
      intros i lb lob Hi Hith.
      destruct (decide (i = m)) as [-> | Hne].
      * rewrite Hmth in Hith. injection Hith as <- <-. split; [lra | lia].
      * destruct (Hmin i lb lob) as [Hle _]; [lia | done |].
        split; [lra |]. intros _. lra.
    + split; [lia |]. exists rb, rob. split_and!; [done | done |].
      intros i lb lob Hi Hith.
      destruct (decide (i = m)) as [-> | Hne].
      * rewrite Hmth in Hith. injection Hith as <- <-. split; [done | lia].
      * apply Hmin; [lia | done].
Qed.

(** X9. On a track that is not empty, [nearestIndexOnTrack] returns
    the index of a point of the track at the least distance from the
    given position, and the first such index: every point before it is
    strictly farther. *)
Theorem nearestIndexOnTrack_first_least (la lo : Q) (latlngs : list (Q * Q))
    (Hne : latlngs ≠ []) :
  let r := nearestIndexOnTrack haversineKm la lo latlngs in
  ∃ rb rob, latlngs !! r = Some (rb, rob) ∧
    ∀ i lb lob, latlngs !! i = Some (lb, lob) →
      (haversineKm la lo rb rob <= haversineKm la lo lb lob)%Q ∧
      ((i < r)%nat → (haversineKm la lo rb rob < haversineKm la lo lb lob)%Q).
Proof.
  intros r.
  destruct (nearest_loop la lo latlngs (length latlngs) (le_n _))
    as [[Hz _] | (_ & rb & rob & Hr & _ & Hmin)].
  { destruct latlngs; [done | discriminate Hz]. }
  exists rb, rob. split; [exact Hr |].
  intros i lb lob Hith. apply Hmin; [by eapply lookup_lt_Some | done].
Qed.

End NearestProofs.

Lemma nearestIndexOnTrack_first_least_witness :
  let track := [(0, 0); (0, 3); (0, 1); (0, 3)]%Q in
  let r := nearestIndexOnTrack planarKm 0 2 track in
  ∃ rb rob, track !! r = Some (rb, rob) ∧
    ∀ i lb lob, track !! i = Some (lb, lob) →
      (planarKm 0 2 rb rob <= planarKm 0 2 lb lob)%Q ∧
      ((i < r)%nat → (planarKm 0 2 rb rob < planarKm 0 2 lb lob)%Q).
Proof.
  apply (nearestIndexOnTrack_first_least planarKm 0 2
           [(0, 0); (0, 3); (0, 1); (0, 3)]%Q).
  discriminate.
Defined.

(** ** Waypoints, labels and markers *)

Lemma removeFirst_elem {A} (f : A → bool) (l : list A) (x : A) :
  x ∈ removeFirst f l → x ∈ l.
Proof.
  induction l as [| y r IH]; [done |]. cbn [removeFirst].
  destruct (f y); intros Hx; apply elem_of_cons.
  - by right.
  - apply elem_of_cons in Hx as [-> | Hx]; [by left | right; by apply IH].
Qed.

Lemma removeFirst_Forall {A} (P : A → Prop) (f : A → bool) (l : list A) :
  Forall P l → Forall P (removeFirst f l).
Proof.
  rewrite !Forall_forall. intros H x Hx. by apply H, (removeFirst_elem f).
Qed.

Lemma removeFirst_sorted {A} (R : relation A) (f : A → bool) (l : list A) :
  StronglySorted R l → StronglySorted R (removeFirst f l).
Proof.
  induction 1 as [| y r Hs IH Hall]; [constructor |]. cbn [removeFirst].
  destruct (f y); [done |]. constructor; [done | by apply removeFirst_Forall].
Qed.

Lemma removeFirst_NoDup {A} (f : A → bool) (l : list A) :
  NoDup l → NoDup (removeFirst f l).
Proof.
  induction 1 as [| y r Hy Hnd IH]; [constructor |]. cbn [removeFirst].
  destruct (f y); [done |]. constructor; [| done].
  intros Hin. by apply Hy, (removeFirst_elem f).
Qed.

(** With no duplicates, removing the first [i] removes [i]. *)
Lemma removeFirst_spec (f : nat → bool) (i : nat) (l : list nat) (x : nat) :
  (∀ y, f y = true ↔ y = i) → NoDup l →
  x ∈ removeFirst f l ↔ x ∈ l ∧ x ≠ i.
Proof.
  intros Hf. induction 1 as [| y r Hy Hnd IH]; cbn [removeFirst].
  - split; [intros H | intros [H _]]; by apply elem_of_nil in H.
  - destruct (f y) eqn:E.
    + apply Hf in E as ->. rewrite elem_of_cons. split.
      * intros Hx. split; [by right |]. by intros ->.
      * by intros [[-> | Hx] Hne].
    + assert (y ≠ i). { intros ->. assert (f i = true) by (by apply Hf). congruence. }
      rewrite !elem_of_cons, IH. split.
      * intros [-> | [Hx Hne]]; (split; [| done]); [by left | by right].
      * intros [[-> | Hx] Hne]; [by left | by right].
Qed.

Lemma removeFirst_Permutation (f g : nat → bool) (i : nat) (l k : list nat) :
  (∀ y, f y = true ↔ y = i) → (∀ y, g y = true ↔ y = i) →
  NoDup l → l ≡ₚ k → removeFirst f l ≡ₚ removeFirst g k.
Proof.
  intros Hf Hg Hl Hperm.
  assert (Hk : NoDup k) by (by rewrite <- Hperm).
  apply NoDup_Permutation; [by apply removeFirst_NoDup | by apply removeFirst_NoDup |].
  intros x. rewrite (removeFirst_spec f i), (removeFirst_spec g i) by done.
  by rewrite Hperm.
Qed.

Lemma removeFirst_fmap {A B} (h : A → B) (f : B → bool) (l : list A) :
  h <$> removeFirst (fun a => f (h a)) l = removeFirst f (h <$> l).
Proof.
  induction l as [| a r IH]; [done |]. cbn [removeFirst fmap list_fmap].
  destruct (f (h a)); [done |]. cbn [fmap list_fmap] in *. by rewrite IH.
Qed.

Lemma StronglySorted_lt_NoDup (l : list nat) : StronglySorted lt l → NoDup l.
Proof.
  induction 1 as [| x r Hs IH Hall]; constructor; [| done].
  intros Hin. rewrite Forall_forall in Hall. specialize (Hall x Hin). lia.
Qed.

Lemma StronglySorted_le_lt (l : list nat) :
  StronglySorted le l → NoDup l → StronglySorted lt l.
Proof.
  induction 1 as [| x r Hs IH Hall]; intros Hnd; constructor;
    apply NoDup_cons in Hnd as [Hx Hnd]; [by apply IH |].
  rewrite Forall_forall in *. intros y Hy. specialize (Hall y Hy).
  assert (y ≠ x) by (by intros ->). lia.
Qed.

Lemma renderRoadbooksTable_waypoints (st : state) :
  roadbookIdx (renderRoadbooksTable st) = roadbookIdx st ∧
  roadbookLabels (renderRoadbooksTable st) = roadbookLabels st ∧
  markers (renderRoadbooksTable st) = markers st ∧
  trackLatLngs (renderRoadbooksTable st) = trackLatLngs st.
Proof. unfold renderRoadbooksTable. by case_match. Qed.

Lemma waypointsOk_render (st : state) :
  waypointsOk st → waypointsOk (renderRoadbooksTable st).
Proof.
  unfold waypointsOk.
  by destruct (renderRoadbooksTable_waypoints st) as (-> & -> & -> & ->).
Qed.

Lemma setTooltip_idx (i : nat) (txt : string) (ms : list marker) :
  m_idx <$> setTooltip i txt ms = m_idx <$> ms.
Proof.
  induction ms as [| m r IH]; [done |]. cbn [setTooltip].
  destruct (m_idx m =? i)%nat; cbn [fmap list_fmap] in *; [done | by rewrite IH].
Qed.

Lemma setTooltip_labels (i : nat) (txt : string) (L : gmap nat string)
    (ms : list marker) :
  NoDup (m_idx <$> ms) →
  Forall (fun m => L !! m_idx m = Some (m_tooltip m)) ms →
  Forall (fun m => <[i := txt]> L !! m_idx m = Some (m_tooltip m))
         (setTooltip i txt ms).
Proof.
  induction ms as [| m r IH]; intros Hnd Hall; [constructor |].
  cbn [fmap list_fmap] in Hnd. apply NoDup_cons in Hnd as [Hm Hnd].
  apply Forall_cons in Hall as [Hlab Hall]. cbn [setTooltip].
  destruct (Nat.eqb_spec (m_idx m) i) as [<- | Hne].
  - constructor; [apply lookup_insert_eq |].
    apply Forall_forall. intros m' Hm'. rewrite Forall_forall in Hall.
    rewrite lookup_insert_ne; [by apply Hall |].
    intros Heq. apply Hm. rewrite Heq. by apply list_elem_of_fmap_2.
  - constructor; [by rewrite lookup_insert_ne |]. by apply IH.
Qed.

Lemma waypointsOk_label (idx : nat) (label : string) (st : state) :
  waypointsOk st → waypointsOk (setRoadbookLabel idx label st).
Proof.
  intros Hok. unfold setRoadbookLabel. cbv zeta. case_bool_decide as Hin; [| done].
  destruct Hok as (Hs & Hb & Hl & Hm & Ht).
  set (txt := if truthy (trim label) then trim label else "#" +:+ pretty idx).
  assert (Htxt : truthy txt = true).
  { subst txt. by destruct (truthy (trim label)) eqn:E. }
  unfold waypointsOk. cbn [setRoadbooks roadbookIdx trackLatLngs roadbookLabels markers].
  split_and!; [done | done | | by rewrite setTooltip_idx |].
  - apply Forall_forall. intros j Hj. rewrite Forall_forall in Hl.
    destruct (decide (idx = j)) as [<- | Hne].
    + exists txt. by rewrite lookup_insert_eq.
    + rewrite lookup_insert_ne by done. by apply Hl.
  - apply setTooltip_labels; [| done].
    rewrite Hm. by apply StronglySorted_lt_NoDup.
Qed.

Lemma waypointsOk_add (i : nat) (noRender : bool) (label : string) (locked : bool)
    (st : state) :
  waypointsOk st → waypointsOk (addRoadbookIndex i noRender label locked st).
Proof.
  intros Hok. unfold addRoadbookIndex. cbv zeta.
  set (i' := Nat.max 0 (Nat.min (length (trackLatLngs st) - 1) i)).
  case_bool_decide as Hin.
  { assert (Hst : waypointsOk
      (if truthy (trim label) &&
          (negb (truthy (default EmptyString (roadbookLabels st !! i'))) ||
           bool_decide (roadbookLabels st !! i' = Some ("#" +:+ pretty i')))
       then setRoadbookLabel i' (trim label) st else st)).
    { case_match; [by apply waypointsOk_label | done]. }
    destruct noRender; [done | by apply waypointsOk_render]. }
  set (idx := merge_sort Nat.le (roadbookIdx st ++ [i'])).
  set (initial := if truthy (trim label) then trim label else _).
  assert (Hinit : truthy initial = true).
  { subst initial. destruct (truthy (trim label)) eqn:E1; [done |].
    destruct (truthy (default EmptyString (roadbookLabels st !! i'))) eqn:E2; [done |].
    by repeat case_match. }
  assert (Hnew : waypointsOk
    (setRoadbooks st idx (<[i' := initial]> (roadbookLabels st))
       (markers st ++ [mkMarker i' locked initial]))).
  { destruct Hok as (Hs & Hb & Hl & Hm & Ht).
    assert (Hperm : idx ≡ₚ roadbookIdx st ++ [i']) by apply merge_sort_Permutation.
    assert (Hnd : NoDup (roadbookIdx st)) by (by apply StronglySorted_lt_NoDup).
    unfold waypointsOk.
    cbn [setRoadbooks roadbookIdx trackLatLngs roadbookLabels markers].
    split_and!.
    - apply StronglySorted_le_lt; [apply StronglySorted_merge_sort; apply _ |].
      rewrite Hperm. apply NoDup_app. split_and!; [done | | apply NoDup_singleton].
      intros x Hx Hx'. apply list_elem_of_singleton in Hx' as ->. done.
    - rewrite Hperm. apply Forall_app. split; [done |].
      apply Forall_singleton. subst i'. lia.
    - rewrite Hperm. apply Forall_forall. intros j Hj.
      destruct (decide (i' = j)) as [<- | Hne].
      + exists initial. by rewrite lookup_insert_eq.
      + rewrite lookup_insert_ne by done.
        apply elem_of_app in Hj as [Hj | Hj].
        * rewrite Forall_forall in Hl. by apply Hl.
        * apply list_elem_of_singleton in Hj. congruence.
    - rewrite fmap_app, Hm, Hperm. done.
    - apply Forall_app. split.
      + apply Forall_forall. intros m Hmm. rewrite Forall_forall in Ht.
        rewrite lookup_insert_ne; [by apply Ht |].
        intros Heq. apply Hin. rewrite <- Hm, Heq. by apply list_elem_of_fmap_2.
      + apply Forall_singleton. cbn. by rewrite lookup_insert_eq. }
  destruct noRender; [done | by apply waypointsOk_render].
Qed.

Lemma waypointsOk_click (m : marker) (st : state) :
  waypointsOk st → waypointsOk (markerClick m st).
Proof.
  intros Hok. unfold markerClick. destruct (m_locked m); [done |]. cbv zeta.
  apply waypointsOk_render.
  destruct Hok as (Hs & Hb & Hl & Hm & Ht).
  assert (Hnd : NoDup (roadbookIdx st)) by (by apply StronglySorted_lt_NoDup).
  assert (Hf : ∀ y, (m_idx m =? y)%nat = true ↔ y = m_idx m).
  { intros y. rewrite Nat.eqb_eq. split; intros H; by symmetry. }
  assert (Hg : ∀ y, (y =? m_idx m)%nat = true ↔ y = m_idx m).
  { intros y. by rewrite Nat.eqb_eq. }
  unfold waypointsOk. cbn [roadbookIdx trackLatLngs roadbookLabels markers].
  split_and!.
  - by apply removeFirst_sorted.
  - by apply removeFirst_Forall.
  - apply Forall_forall. intros j Hj.
    apply (removeFirst_spec _ (m_idx m)) in Hj as [Hj Hne]; [| done | done].
    rewrite lookup_delete_ne by done. rewrite Forall_forall in Hl. by apply Hl.
  - rewrite (removeFirst_fmap m_idx (fun y => (y =? m_idx m)%nat)).
    apply (removeFirst_Permutation _ _ (m_idx m)); [done | done | by rewrite Hm | done].
  - apply Forall_forall. intros m' Hm'.
    assert (Hidx : m_idx m' ∈ removeFirst (fun y => (y =? m_idx m)%nat)
                                (m_idx <$> markers st)).
    { rewrite <- (removeFirst_fmap m_idx). by apply list_elem_of_fmap_2. }
    apply (removeFirst_spec _ (m_idx m)) in Hidx as [_ Hne];
      [| done | by rewrite Hm].
    rewrite lookup_delete_ne by done. rewrite Forall_forall in Ht.
    by apply Ht, (removeFirst_elem (fun mm => (m_idx mm =? m_idx m)%nat)).
Qed.

(** X10. The handlers that change the waypoints keep them in order:
    after [addRoadbookIndex], a click on a marker or [setRoadbookLabel],
    the waypoint indices are still strictly increasing and on the track,
    every waypoint has a label that is not empty and exactly one marker,
    and the tooltip of every marker is the label of its waypoint. *)
Theorem waypoints_invariant (st : state) (Hok : waypointsOk st) :
  (∀ i noRender label locked,
     waypointsOk (addRoadbookIndex i noRender label locked st)) ∧
  (∀ m, waypointsOk (markerClick m st)) ∧
  (∀ idx label, waypointsOk (setRoadbookLabel idx label st)).
Proof.
  split_and!; intros.
  - by apply waypointsOk_add.
  - by apply waypointsOk_click.
  - by apply waypointsOk_label.
Qed.

Lemma waypoints_invariant_witness :
  waypointsOk withWaypoint ∧
  (∀ i noRender label locked,
     waypointsOk (addRoadbookIndex i noRender label locked withWaypoint)) ∧
  (∀ m, waypointsOk (markerClick m withWaypoint)) ∧
  (∀ idx label, waypointsOk (setRoadbookLabel idx label withWaypoint)).
Proof.
  assert (Hok : waypointsOk withWaypoint).
  { unfold waypointsOk.
    assert (roadbookIdx withWaypoint = [0; 2; 4]%nat) as -> by (by vm_compute).
    assert (length (trackLatLngs withWaypoint) = 5%nat) as -> by (by vm_compute).
    assert (markers withWaypoint =
            [mkMarker 0 true "Start"; mkMarker 4 true "Finish"; mkMarker 2 false "WP 1"])
      as -> by (by vm_compute).
    split_and!.
    - repeat constructor.
    - repeat constructor.
    - repeat (constructor; [eexists; split; vm_compute; reflexivity |]). constructor.
    - vm_compute. apply perm_skip, perm_swap.
    - repeat (constructor; [vm_compute; reflexivity |]). constructor. }
  split; [exact Hok | apply (waypoints_invariant withWaypoint Hok)].
Defined.

(** ** Clear button *)

Lemma renderRoadbooksTable_legs (st : state) :
  legLabels (renderRoadbooksTable st) = legLabels st ∧
  legStopsMin (renderRoadbooksTable st) = legStopsMin st ∧
  legCondPct (renderRoadbooksTable st) = legCondPct st ∧
  legCritical (renderRoadbooksTable st) = legCritical st ∧
  alerts (renderRoadbooksTable st) = alerts st.
Proof. unfold renderRoadbooksTable. by case_match. Qed.

(** A new index with a label, added without a render. *)
Lemma addRoadbookIndex_new (i : nat) (label : string) (locked : bool) (st : state) :
  (i <= length (trackLatLngs st) - 1)%nat → i ∉ roadbookIdx st →
  truthy (trim label) = true →
  addRoadbookIndex i true label locked st =
    setRoadbooks st (merge_sort Nat.le (roadbookIdx st ++ [i]))
      (<[i := trim label]> (roadbookLabels st))
      (markers st ++ [mkMarker i locked (trim label)]).
Proof.
  intros Hi Hnew Hlabel. unfold addRoadbookIndex. cbv zeta.
  replace (Nat.max 0 (Nat.min (length (trackLatLngs st) - 1) i)) with i by lia.
  rewrite bool_decide_eq_false_2 by done. by rewrite Hlabel.
Qed.

Lemma merge_sort_pair (n : nat) : merge_sort Nat.le [0%nat; n] = [0%nat; n].
Proof.
  apply (Sorted_unique Nat.le).
  - apply Sorted_merge_sort, _.
  - repeat constructor. lia.
  - apply merge_sort_Permutation.
Qed.

(** X11. On a track of two points or more, the Clear button leaves
    exactly the two locked waypoints Start and Finish, at the first and
    the last point, with their markers; all leg names, stops, condition
    markups and critical flags are gone; the table has one row; the track
    and its cumulative arrays are untouched. *)
Theorem clearRoadbooks_resets (st : state)
    (Hlen : (2 <= length (trackLatLngs st))%nat) :
  let st' := clearRoadbooks st in
  let n := (length (trackLatLngs st) - 1)%nat in
  roadbookIdx st' = [0%nat; n] ∧
  roadbookLabels st' = <[n := "Finish"]> {[0%nat := "Start"]} ∧
  markers st' = [mkMarker 0 true "Start"; mkMarker n true "Finish"] ∧
  legLabels st' = ∅ ∧ legStopsMin st' = ∅ ∧ legCondPct st' = ∅ ∧
  legCritical st' = ∅ ∧
  length (roadbooksEl st') = 1%nat ∧
  trackOf st' = trackOf st ∧ alerts st' = alerts st.
Proof.
  intros st' n. subst st'. unfold clearRoadbooks.
  rewrite bool_decide_eq_false_2 by lia. cbv zeta.
  cbn [trackLatLngs]. fold n.
  set (st0 := mkState _ _ _ _ _ _ [] ∅ ∅ ∅ ∅ ∅ _ [] _ _ _).
  rewrite (addRoadbookIndex_new 0 "Start" true st0);
    [| cbn; lia | apply not_elem_of_nil | done].
  set (st1 := setRoadbooks st0 _ _ _).
  rewrite (addRoadbookIndex_new n "Finish" true st1); [| done | | done].
  2: { subst st1. cbn. intros Hin. apply list_elem_of_singleton in Hin. lia. }
  set (st2 := setRoadbooks st1 _ _ _).
  assert (Hidx : roadbookIdx st2 = [0%nat; n]).
  { subst st2 st1 st0. cbn [setRoadbooks roadbookIdx]. apply merge_sort_pair. }
  destruct (renderRoadbooksTable_waypoints st2) as (-> & -> & -> & _).
  destruct (renderRoadbooksTable_legs st2) as (-> & -> & -> & -> & ->).
  rewrite trackOf_renderRoadbooksTable.
  split_and!; try done.
  unfold renderRoadbooksTable.
  replace (bool_decide (length (trackLatLngs st2) = 0%nat)) with false
    by (symmetry; apply bool_decide_eq_false_2; subst st2 st1 st0; cbn; lia).
  rewrite Hidx. cbn [length Nat.ltb Nat.leb orb].
  unfold legEntries. rewrite Hidx. done.
Qed.

Lemma clearRoadbooks_resets_witness :
  let st' := clearRoadbooks withWaypoint in
  roadbookIdx st' = [0%nat; 4%nat] ∧
  roadbookLabels st' = <[4%nat := "Finish"]> {[0%nat := "Start"]} ∧
  markers st' = [mkMarker 0 true "Start"; mkMarker 4 true "Finish"] ∧
  legLabels st' = ∅ ∧ legStopsMin st' = ∅ ∧ legCondPct st' = ∅ ∧
  legCritical st' = ∅ ∧
  length (roadbooksEl st') = 1%nat ∧
  trackOf st' = trackOf withWaypoint ∧ alerts st' = alerts withWaypoint.
Proof. apply (clearRoadbooks_resets withWaypoint). vm_compute. lia. Defined.

(** ** Waypoints after a run *)

Section RunWaypoints.

Variable haversineKm : Q → Q → Q → Q → Q.
Hypothesis haversine_nonneg : ∀ a b c d, (0 <= haversineKm a b c d)%Q.

Lemma nearestIndexOnTrack_lt (la lo : Q) (latlngs : list (Q * Q)) :
  latlngs ≠ [] → (nearestIndexOnTrack haversineKm la lo latlngs < length latlngs)%nat.
Proof.
  intros Hne.
  destruct (nearest_loop haversineKm la lo latlngs (length latlngs) (le_n _))
    as [[Hz _] | (Hlt & _)]; [| exact Hlt].
  destruct latlngs; [done | discriminate Hz].
Qed.

(** A new index, added without a render. *)
Lemma addRoadbookIndex_fresh (i : nat) (label : string) (locked : bool) (st : state) :
  (i <= length (trackLatLngs st) - 1)%nat → i ∉ roadbookIdx st →
  ∃ initial,
    addRoadbookIndex i true label locked st =
      setRoadbooks st (merge_sort Nat.le (roadbookIdx st ++ [i]))
        (<[i := initial]> (roadbookLabels st))
        (markers st ++ [mkMarker i locked initial]).
Proof.
  intros Hi Hnew. unfold addRoadbookIndex. cbv zeta.
  replace (Nat.max 0 (Nat.min (length (trackLatLngs st) - 1) i)) with i by lia.
  rewrite bool_decide_eq_false_2 by done. by eexists.
Qed.

(** An imported waypoint leaves Start, Finish and the leg maps alone. *)
Lemma importWaypoint_keeps (st : state) (wp : Q * Q * string) :
  (2 <= length (trackLatLngs st))%nat →
  waypointsOk st → startFinish st → noLegEdits st →
  let st' := importWaypoint haversineKm st wp in
  trackLatLngs st' = trackLatLngs st ∧ alerts st' = alerts st ∧
  waypointsOk st' ∧ startFinish st' ∧ noLegEdits st'.
Proof.
  intros Hlen Hok Hsf Hno st'. subst st'. destruct wp as [[la lo] name].
  unfold importWaypoint.
  set (idx := nearestIndexOnTrack haversineKm la lo (trackLatLngs st)).
  assert (Hidx : (idx < length (trackLatLngs st))%nat).
  { apply nearestIndexOnTrack_lt. intros Hnil. rewrite Hnil in Hlen.
    cbn in Hlen. lia. }
  case_bool_decide as Hin; cbn [negb].
  - assert (Hlabel : truthy (default EmptyString (roadbookLabels st !! idx)) = true).
    { destruct Hok as (_ & _ & Hl & _). rewrite Forall_forall in Hl.
      destruct (Hl idx Hin) as (s & -> & Hs). done. }
    rewrite Hlabel. cbn [negb andb]. done.
  - set (label := if truthy name then name else "WP").
    pose proof (waypointsOk_add idx true label false st Hok) as Hok'.
    destruct (addRoadbookIndex_fresh idx label false st) as [initial Hadd];
      [lia | done |].
    rewrite Hadd in Hok' |- *.
    cbn [setRoadbooks trackLatLngs alerts].
    split; [done |]. split; [done |]. split; [done |]. split; [| done].
    destruct Hsf as (H0 & Hn & rest & Hms & Hrest).
      destruct Hok as (_ & _ & _ & Hm & _).
      assert (H0in : 0%nat ∈ roadbookIdx st).
      { rewrite <- Hm, Hms. cbn. apply elem_of_cons. by left. }
      assert (Hnin : (length (trackLatLngs st) - 1)%nat ∈ roadbookIdx st).
      { rewrite <- Hm, Hms. cbn. apply elem_of_cons. right.
        apply elem_of_cons. by left. }
      unfold startFinish.
      cbn [setRoadbooks trackLatLngs roadbookLabels markers].
      split_and!.
      * rewrite lookup_insert_ne; [done | by intros ->].
      * rewrite lookup_insert_ne; [done | by intros ->].
      * exists (rest ++ [mkMarker idx false initial]). split; [by rewrite Hms |].
        apply Forall_app. split; [done | by apply Forall_singleton].
Qed.

Lemma import_keeps (wps : list (Q * Q * string)) :
  ∀ st, (2 <= length (trackLatLngs st))%nat →
    waypointsOk st → startFinish st → noLegEdits st →
    let st' := foldl (importWaypoint haversineKm) st wps in
    trackLatLngs st' = trackLatLngs st ∧ alerts st' = alerts st ∧
    waypointsOk st' ∧ startFinish st' ∧ noLegEdits st'.
Proof.
  induction wps as [| wp r IH]; intros st Hlen Hok Hsf Hno; [by split_and! |].
  cbn [foldl].
  destruct (importWaypoint_keeps st wp Hlen Hok Hsf Hno) as (Ht & Ha & Hok1 & Hsf1 & Hno1).
  destruct (IH (importWaypoint haversineKm st wp)) as (Ht' & Ha' & Hrest);
    [by rewrite Ht | done | done | done |].
  split; [congruence | split; [congruence | exact Hrest]].
Qed.

(** A run that finds segments, up to the final render: the state [st3]
    that the table is rendered from. *)
Lemma calculate_before_render (f : form) (st : state) (gpx : xmlDoc) :
  gpxFile f = Some gpx → parseGPXToSegments gpx ≠ [] →
  ∃ st3,
    calculate haversineKm f st =
      Some (updateSummaryCard (renderRoadbooksTable st3)) ∧
    aligned (trackOf st3) ∧ all4 cumOk (trackOf st3) ∧
    (2 <= length (trackLatLngs st3))%nat ∧
    waypointsOk st3 ∧ startFinish st3 ∧ noLegEdits st3 ∧
    alerts st3 = alerts st ∧
    (importRoadbooks f = false ∨ parseGPXRoadbooks gpx = [] →
     roadbookIdx st3 = [0%nat; (length (trackLatLngs st3) - 1)%nat]).
Proof.
  intros Hfile Hsegs.
  destruct (readSettings_valid f) as (Hf & Hv & Hd & Hsp & _).
  destruct (processSegments_inv haversineKm haversine_nonneg (readSettings f) Hf Hv Hd)
    with (segments := parseGPXToSegments gpx)
         (t := mkTrack [] [] [0%Q] [0%Q] [0%Q] [0%Q]) (off := 0%nat)
    as (t & off & Hrun & Hal & _ & Hcum & _ & Htwo).
  - lra.
  - apply parseGPXToSegments_usable.
  - by split_and!.
  - intros b Hb. by apply elem_of_nil in Hb.
  - unfold all4, cumOk, mono. cbn.
    split_and!; try done; intros i c c' Hi Hi'; by destruct i.
  - specialize (Htwo Hsegs).
    unfold calculate. rewrite Hfile, settings_check_passes.
    rewrite bool_decide_eq_false_2 by (by destruct (parseGPXToSegments gpx)).
    change (trackOf (resetGlobals st)) with (mkTrack [] [] [0%Q] [0%Q] [0%Q] [0%Q]).
    rewrite Hrun.
    set (st0 := setTrack t (resetGlobals st)).
    assert (Hlen0 : trackLatLngs st0 = t_latlngs t) by done.
    destruct (Nat.leb_spec 2 (length (trackLatLngs st0))) as [_ | Hlt];
      [| rewrite Hlen0 in Hlt; lia].
    set (n := (length (trackLatLngs st0) - 1)%nat).
    rewrite (addRoadbookIndex_new 0 "Start" true st0);
      [| lia | apply not_elem_of_nil | done].
    set (st1 := setRoadbooks st0 _ _ _).
    rewrite (addRoadbookIndex_new n "Finish" true st1); [| done | | done].
    2: { subst st1 n. cbn. intros Hin. apply list_elem_of_singleton in Hin. lia. }
    set (st2 := setRoadbooks st1 _ _ _).
    assert (Hidx : roadbookIdx st2 = [0%nat; n]).
    { subst st2 st1 st0. cbn [setRoadbooks roadbookIdx]. apply merge_sort_pair. }
    assert (Hn : (0 < n)%nat) by (subst n; rewrite Hlen0; lia).
    assert (HL0 : roadbookLabels st2 !! 0%nat = Some "Start").
    { subst st2 st1. cbn. rewrite lookup_insert_ne by lia.
      by rewrite lookup_insert_eq. }
    assert (HLn : roadbookLabels st2 !! n = Some "Finish").
    { subst st2. cbn. by rewrite lookup_insert_eq. }
    assert (Hms : markers st2 = [mkMarker 0 true "Start"; mkMarker n true "Finish"])
      by done.
    assert (Hn2 : (length (trackLatLngs st2) - 1)%nat = n) by done.
    assert (Hok2 : waypointsOk st2).
    { unfold waypointsOk. rewrite Hidx, Hms, Hn2. split_and!.
      - apply SSorted_cons; [apply SSorted_cons; constructor |].
        by apply Forall_singleton.
      - apply Forall_cons. split; [lia |]. by apply Forall_singleton.
      - apply Forall_cons. split; [by exists "Start" |].
        apply Forall_singleton. by exists "Finish".
      - done.
      - apply Forall_cons. split; [done |]. by apply Forall_singleton. }
    assert (Hsf2 : startFinish st2).
    { unfold startFinish. rewrite Hn2, Hms. split_and!; [done | done |].
      by exists []. }
    assert (Hno2 : noLegEdits st2) by done.
    assert (Hal2 : alerts st2 = alerts st) by done.
    assert (Hlen2 : (2 <= length (trackLatLngs st2))%nat).
    { change (trackLatLngs st2) with (t_latlngs t). lia. }
    assert (Ht2 : trackOf st2 = t) by (by destruct t).
    set (st3 := if importRoadbooks f then _ else st2).
    assert (H3 : trackOf st3 = trackOf st2 ∧
                 trackLatLngs st3 = trackLatLngs st2 ∧ alerts st3 = alerts st2 ∧
                 waypointsOk st3 ∧ startFinish st3 ∧ noLegEdits st3).
    { subst st3. destruct (importRoadbooks f); [| done].
      split; [apply trackOf_import | by apply import_keeps]. }
    destruct H3 as (Htr3 & Ht3 & Ha3 & Hok3 & Hsf3 & Hno3).
    exists st3. split; [reflexivity |].
    rewrite Htr3, Ht2, Ht3.
    split; [done |]. split; [done |]. split; [done |]. split; [done |].
    split; [done |]. split; [done |]. split; [congruence |].
    intros Hnone. rewrite Hn2, <- Hidx. subst st3.
    destruct Hnone as [-> | ->]; [done | by destruct (importRoadbooks f)].
Qed.

(** X12. After a calculate run that finds segments the waypoints are in
    order (strictly increasing, on the track, each with a label and one
    marker); Start and Finish sit at the first and the last point with
    locked markers, every imported waypoint has an unlocked one; no leg
    has a name, a stop, a markup or a critical flag; and no alert was
    raised. *)
Theorem calculate_waypoints (f : form) (st : state) (gpx : xmlDoc)
    (Hfile : gpxFile f = Some gpx)
    (Hsegs : parseGPXToSegments gpx ≠ []) :
  ∃ st',
    calculate haversineKm f st = Some st' ∧
    waypointsOk st' ∧ startFinish st' ∧ noLegEdits st' ∧
    alerts st' = alerts st.
Proof.
  destruct (calculate_before_render f st gpx Hfile Hsegs)
    as (st3 & Hrun & _ & _ & _ & Hok3 & Hsf3 & Hno3 & Ha3 & _).
  eexists. split; [exact Hrun |].
  destruct (renderRoadbooksTable_waypoints st3) as (Ri & Rl & Rm & Rt).
  destruct (renderRoadbooksTable_legs st3) as (L1 & L2 & L3 & L4 & L5).
  split; [| split; [| split]].
  + unfold waypointsOk in *. cbn [updateSummaryCard roadbookIdx trackLatLngs
      roadbookLabels markers]. by rewrite Ri, Rl, Rm, Rt.
  + unfold startFinish in *. cbn [updateSummaryCard trackLatLngs
      roadbookLabels markers]. by rewrite Rl, Rm, Rt.
  + unfold noLegEdits in *. cbn [updateSummaryCard legLabels legStopsMin
      legCondPct legCritical]. by rewrite L1, L2, L3, L4.
  + cbn [updateSummaryCard alerts]. rewrite L5. congruence.
Qed.

End RunWaypoints.

Lemma calculate_waypoints_witness :
  ∃ st',
    calculate planarKm twoSegments initialState = Some st' ∧
    waypointsOk st' ∧ startFinish st' ∧ noLegEdits st' ∧
    alerts st' = alerts initialState.
Proof.
  eapply (calculate_waypoints planarKm planarKm_nonneg twoSegments initialState).
  - reflexivity.
  - vm_compute. discriminate.
Defined.

(** ** Rows of the table *)

Lemma runSum_snoc (g : legEntry → Q) (l : list legEntry) (x : legEntry) :
  runSum g (l ++ [x]) = (runSum g l + g x)%Q.
Proof. unfold runSum. by rewrite foldl_app. Qed.

Lemma rowSums_app (pre post : list legEntry) (k : nat) (R : tableRow) :
  (k < length pre)%nat → rowSums pre k R → rowSums (pre ++ post) k R.
Proof.
  intros Hk (Hleg & Hd & Hu & Hv & Ht). unfold rowSums.
  rewrite lookup_app_l by done. rewrite take_app_le by lia. done.
Qed.

Lemma renderRow_loop (st : state) (total : Q) (post : list legEntry) :
  ∀ (pre : list legEntry) (rows : list tableRow),
    length rows = length pre →
    (∀ k R, rows !! k = Some R →
            rowSums pre k R ∧ r_remainingH R = (total - r_cumTimeAdjH R)%Q) →
    let rows' :=
      (foldl (renderRow st total)
         ((runSum l_distKm pre, runSum l_ascM pre, runSum l_desM pre,
           runSum l_totalH pre), rows) post).2 in
    length rows' = length (pre ++ post) ∧
    ∀ k R, rows' !! k = Some R →
           rowSums (pre ++ post) k R ∧ r_remainingH R = (total - r_cumTimeAdjH R)%Q.
Proof.
  induction post as [| L post IH]; intros pre rows Hlen Hrows.
  - cbn [foldl snd]. rewrite app_nil_r. by split.
  - cbn [foldl]. unfold renderRow at 2 4. cbv zeta.
    rewrite <- !(runSum_snoc _ pre L).
    replace (pre ++ L :: post) with ((pre ++ [L]) ++ post)
      by (by rewrite <- app_assoc).
    apply IH.
    + rewrite !length_app, Hlen. done.
    + intros k R Hk.
      destruct (decide (k < length rows)%nat) as [Hlt | Hge].
      * rewrite lookup_app_l in Hk by done.
        destruct (Hrows k R Hk) as [Hsum Hrem]. split; [| done].
        apply rowSums_app; [lia | done].
      * assert (k = length pre) as ->.
        { apply lookup_lt_Some in Hk. rewrite length_app in Hk. cbn in Hk. lia. }
        rewrite lookup_app_r in Hk by lia.
        replace (length pre - length rows)%nat with 0%nat in Hk by lia.
        injection Hk as <-. split; [| done]. unfold rowSums.
        rewrite take_ge by (rewrite length_app; cbn; lia).
        cbn [r_leg r_cumDistKm r_cumAscM r_cumDesM r_cumTimeAdjH].
        split; [| by split_and!].
        rewrite lookup_app_r by lia. by rewrite Nat.sub_diag.
Qed.

(** The rows of the table of a state with a track and two waypoints or
    more. *)
Lemma rows_sums (st : state) :
  trackLatLngs st ≠ [] → (2 <= length (roadbookIdx st))%nat →
  let st' := renderRoadbooksTable st in
  let legs := legEntries st in
  length (roadbooksEl st') = length legs ∧
  lastTotalAdjustedH st' = runSum l_totalH legs ∧
  ∀ k R, roadbooksEl st' !! k = Some R →
         rowSums legs k R ∧
         r_remainingH R = (lastTotalAdjustedH st' - r_cumTimeAdjH R)%Q.
Proof.
  intros Htrack Hwp st' legs. subst st'. unfold renderRoadbooksTable.
  rewrite bool_decide_eq_false_2 by (by destruct (trackLatLngs st)).
  destruct (Nat.ltb_spec (length (roadbookIdx st)) 2) as [| _]; [lia |].
  cbn [orb]. cbv zeta. fold legs.
  set (total := foldl (fun s L => (s + l_totalH L)%Q) 0%Q legs).
  cbn [updateSummaryCard setTable roadbooksEl lastTotalAdjustedH].
  destruct (renderRow_loop st total legs [] []) as [Hlen Hrows]; [done | done |].
  cbn [app] in Hlen, Hrows. by split_and!.
Qed.

(** The legs that the table shows are the leg entries. *)
Lemma rows_legs (st : state) :
  trackLatLngs st ≠ [] → (2 <= length (roadbookIdx st))%nat →
  r_leg <$> roadbooksEl (renderRoadbooksTable st) = legEntries st.
Proof.
  intros Htrack Hwp. destruct (rows_sums st Htrack Hwp) as (Hlen & _ & Hrows).
  apply list_eq_same_length with (length (legEntries st));
    [done | by rewrite length_fmap |].
  intros k L L' Hk HL HL'. rewrite list_lookup_fmap in HL.
  destruct (roadbooksEl (renderRoadbooksTable st) !! k) as [R |] eqn:HR; [| done].
  injection HL as <-. destruct (Hrows k R HR) as [(Hleg & _) _]. congruence.
Qed.

(** X13. In the table of a state with a track and two waypoints or
    more there is one row per leg.  The accumulated distance, ascent,
    descent and time of a row are the running sums, from 0 and one leg
    after the other, of the figures of the legs up to this row; its
    remaining time is the total kept for the summary card less its
    accumulated time; that total is the running sum of the total times of
    all the legs, which is the accumulated time of the last row. *)
Theorem table_running_sums (st : state)
    (Htrack : trackLatLngs st ≠ [])
    (Hwp : (2 <= length (roadbookIdx st))%nat) :
  let st' := renderRoadbooksTable st in
  let legs := legEntries st in
  length (roadbooksEl st') = (length (roadbookIdx st) - 1)%nat ∧
  lastTotalAdjustedH st' = runSum l_totalH legs ∧
  ∀ k R, roadbooksEl st' !! k = Some R →
         rowSums legs k R ∧
         r_remainingH R = (lastTotalAdjustedH st' - r_cumTimeAdjH R)%Q ∧
         (S k = length legs → r_cumTimeAdjH R = lastTotalAdjustedH st').
Proof.
  intros st' legs.
  destruct (rows_sums st Htrack Hwp) as (Hlen & Htotal & Hrows).
  fold st' legs in Hlen, Htotal, Hrows. split_and!.
  - rewrite Hlen. subst legs. unfold legEntries. by rewrite length_map, length_seq.
  - done.
  - intros k R Hk. destruct (Hrows k R Hk) as [Hsum Hrem]. split_and!; [done | done |].
    intros Hlast. destruct Hsum as (_ & _ & _ & _ & ->).
    by rewrite Htotal, take_ge by lia.
Qed.

Lemma table_running_sums_witness :
  let st' := renderRoadbooksTable withWaypoint in
  let legs := legEntries withWaypoint in
  length (roadbooksEl st') = (length (roadbookIdx withWaypoint) - 1)%nat ∧
  lastTotalAdjustedH st' = runSum l_totalH legs ∧
  ∀ k R, roadbooksEl st' !! k = Some R →
         rowSums legs k R ∧
         r_remainingH R = (lastTotalAdjustedH st' - r_cumTimeAdjH R)%Q ∧
         (S k = length legs → r_cumTimeAdjH R = lastTotalAdjustedH st').
Proof.
  apply (table_running_sums withWaypoint).
  - discriminate.
  - vm_compute. lia.
Defined.

(** ** The saved plan and the table *)

Lemma plan_rows_loop (st : state) (total : Q) (ks : list nat) :
  ∀ (acc : Q * Q * Q * Q) (legs : list planLeg) (rows : list tableRow),
    Forall2 sameLeg legs rows →
    let a := foldl (serializeLeg st) (acc, legs) ks in
    let b := foldl (renderRow st total) (acc, rows) (map (renderLeg st) ks) in
    a.1 = b.1 ∧ Forall2 sameLeg a.2 b.2.
Proof.
  induction ks as [| k ks IH]; intros acc legs rows Hsame; [by split |].
  cbn [foldl map]. destruct acc as [[[d u] v] t].
  unfold serializeLeg at 2, renderRow at 2. cbv zeta.
  apply IH. apply Forall2_app; [done |]. by repeat constructor.
Qed.

(** X14. When the state has a track and two waypoints or more, the
    legs of the saved plan are the rows of the table, one for one: the
    same leg figures, the same name, the same critical flag and the same
    accumulated distance, ascent, descent and time. *)
Theorem plan_matches_table (st : state)
    (Htrack : trackLatLngs st ≠ [])
    (Hwp : (2 <= length (roadbookIdx st))%nat) :
  Forall2 sameLeg (plan_legs (serializePlan st))
                  (roadbooksEl (renderRoadbooksTable st)).
Proof.
  unfold renderRoadbooksTable.
  rewrite bool_decide_eq_false_2 by (by destruct (trackLatLngs st)).
  destruct (Nat.ltb_spec (length (roadbookIdx st)) 2) as [| _]; [lia |].
  cbn [orb]. cbv zeta.
  cbn [updateSummaryCard setTable roadbooksEl serializePlan plan_legs].
  unfold legEntries. by apply plan_rows_loop.
Qed.

Lemma plan_matches_table_witness :
  Forall2 sameLeg (plan_legs (serializePlan withWaypoint))
                  (roadbooksEl (renderRoadbooksTable withWaypoint)).
Proof.
  apply (plan_matches_table withWaypoint).
  - discriminate.
  - vm_compute. lia.
Defined.

(** ** Legs between waypoints on the track *)

Lemma cum_default (arr : list Q) (i : nat) (d : Q) :
  (i < length arr)%nat → default d (arr !! i) = atQ arr i.
Proof.
  intros Hi. unfold atQ. by destruct (lookup_lt_is_Some_2 arr i Hi) as [x ->].
Qed.

(** A leg between two waypoints on the track reads the cumulative arrays
    at the waypoints themselves. *)
Lemma renderLeg_inrange (st : state) (j a b : nat) :
  trackLatLngs st ≠ [] → aligned (trackOf st) →
  Forall (fun i => (i <= length (trackLatLngs st) - 1)%nat) (roadbookIdx st) →
  roadbookIdx st !! j = Some a → roadbookIdx st !! S j = Some b →
  let L := renderLeg st (S j) in
  l_a L = a ∧ l_b L = b ∧
  l_distKm L = (atQ (cumDistKm st) b - atQ (cumDistKm st) a)%Q ∧
  l_ascM L = (atQ (cumAscentM st) b - atQ (cumAscentM st) a)%Q ∧
  l_desM L = (atQ (cumDescentM st) b - atQ (cumDescentM st) a)%Q ∧
  l_baseH L = (atQ (cumTimeH st) b - atQ (cumTimeH st) a)%Q.
Proof.
  intros Htrack (Hd & Hu & Hv & Ht) Hbound Ha Hb L. subst L.
  cbn [trackOf t_dist t_asc t_des t_time t_latlngs] in Hd, Hu, Hv, Ht.
  assert (Hlen : (0 < length (trackLatLngs st))%nat).
  { destruct (trackLatLngs st); [done | cbn; lia]. }
  rewrite Forall_forall in Hbound.
  pose proof (Hbound a (list_elem_of_lookup_2 _ _ _ Ha)) as Hale.
  pose proof (Hbound b (list_elem_of_lookup_2 _ _ _ Hb)) as Hble.
  unfold renderLeg. cbv zeta. cbn [Nat.sub]. rewrite Nat.sub_0_r, Ha, Hb.
  cbn [default from_option id].
  replace (Nat.max 0 (Nat.min a (length (trackLatLngs st) - 1))) with a by lia.
  replace (Nat.max 0 (Nat.min b (length (trackLatLngs st) - 1))) with b by lia.
  cbn [l_a l_b l_distKm l_ascM l_desM l_baseH].
  rewrite !cum_default by lia. done.
Qed.

Lemma legEntries_lookup (st : state) (j : nat) :
  (S j < length (roadbookIdx st))%nat →
  legEntries st !! j = Some (renderLeg st (S j)).
Proof.
  intros Hj. unfold legEntries.
  rewrite list_lookup_fmap, lookup_seq_lt by lia. done.
Qed.

(** ** The summary card after a run *)

Section RunSummary.

Variable haversineKm : Q → Q → Q → Q → Q.
Hypothesis haversine_nonneg : ∀ a b c d, (0 <= haversineKm a b c d)%Q.

(** X16. After a calculate run that finds segments and imports no
    waypoint (the import is switched off or the file has no waypoint with
    coordinates), the waypoints are the first and the last point of the
    track, the summary card shows the last entries of the four cumulative
    arrays, and its estimated total time equals its estimated activity
    time: the one leg has no stop and no markup, and its total time is the
    time of the whole track. *)
Theorem calculate_summary (f : form) (st : state) (gpx : xmlDoc)
    (Hfile : gpxFile f = Some gpx)
    (Hsegs : parseGPXToSegments gpx ≠ [])
    (Hnone : importRoadbooks f = false ∨ parseGPXRoadbooks gpx = []) :
  ∃ st' totalTimeH,
    calculate haversineKm f st = Some st' ∧
    roadbookIdx st' = [0%nat; (length (trackLatLngs st') - 1)%nat] ∧
    outputEl st' =
      OutSummary (lastOf (cumDistKm st')) (lastOf (cumAscentM st'))
        (lastOf (cumDescentM st')) (lastOf (cumTimeH st')) totalTimeH ∧
    (totalTimeH == lastOf (cumTimeH st'))%Q ∧
    (lastTotalAdjustedH st' == lastOf (cumTimeH st'))%Q.
Proof.
  destruct (calculate_before_render haversineKm haversine_nonneg f st gpx Hfile Hsegs)
    as (st3 & Hrun & Hal & Hcum & Hlen & Hok3 & _ & Hno3 & _ & Hidx).
  specialize (Hidx Hnone).
  assert (Htrack : trackLatLngs st3 ≠ []).
  { intros Hnil. rewrite Hnil in Hlen. cbn in Hlen. lia. }
  destruct Hok3 as (_ & Hbound & _).
  destruct Hno3 as (_ & Hstops & Hcond & _).
  set (n := (length (trackLatLngs st3) - 1)%nat) in *.
  assert (Hwp : (2 <= length (roadbookIdx st3))%nat) by (by rewrite Hidx).
  destruct (rows_sums st3 Htrack Hwp) as (_ & Htotal & _).
  assert (Hlegs : legEntries st3 = [renderLeg st3 1]).
  { unfold legEntries. by rewrite Hidx. }
  destruct (renderLeg_inrange st3 0 0 n Htrack Hal Hbound) as (_ & _ & _ & _ & _ & Hbase);
    [by rewrite Hidx | by rewrite Hidx |].
  destruct Hal as (Hdlen & _ & _ & Htlen). destruct Hcum as (_ & _ & _ & [Ht0 _]).
  cbn [trackOf t_dist t_time t_latlngs] in Hdlen, Htlen, Ht0.
  assert (Hactivity : (lastOf (cumTimeH st3) ==
                       atQ (cumTimeH st3) n - atQ (cumTimeH st3) 0)%Q).
  { unfold lastOf, atQ. rewrite last_lookup, Ht0.
    replace (Init.Nat.pred (length (cumTimeH st3))) with n by (subst n; lia).
    cbn [default from_option id]. lra. }
  set (st4 := renderRoadbooksTable st3) in *.
  assert (Htrack4 : trackOf st4 = trackOf st3) by apply trackOf_renderRoadbooksTable.
  assert (Hfields : cumDistKm st4 = cumDistKm st3 ∧ cumAscentM st4 = cumAscentM st3 ∧
                    cumDescentM st4 = cumDescentM st3 ∧ cumTimeH st4 = cumTimeH st3 ∧
                    trackLatLngs st4 = trackLatLngs st3).
  { by injection Htrack4 as -> _ -> -> -> ->. }
  destruct Hfields as (F1 & F2 & F3 & F4 & F5).
  assert (Hadj : (lastTotalAdjustedH st4 == lastOf (cumTimeH st3))%Q).
  { rewrite Htotal, Hlegs, Hactivity. unfold runSum. cbn [foldl].
    cbn [renderLeg l_totalH l_baseH] in Hbase |- *.
    rewrite Hstops, Hcond, !lookup_empty. cbn [default from_option id].
    rewrite Hbase. field. }
  assert (Hout : outputEl (updateSummaryCard st4) =
    OutSummary (lastOf (cumDistKm st4)) (lastOf (cumAscentM st4))
      (lastOf (cumDescentM st4)) (lastOf (cumTimeH st4))
      (if Qeq_bool (lastTotalAdjustedH st4) 0 then lastOf (cumTimeH st4)
       else lastTotalAdjustedH st4)).
  { unfold updateSummaryCard. cbn [outputEl].
    rewrite !bool_decide_eq_false_2; [done | rewrite F1; lia |].
    rewrite F5. by destruct (trackLatLngs st3). }
  destruct (renderRoadbooksTable_waypoints st3) as (Ri & _).
  eexists _, _. split; [exact Hrun |].
  split.
  { change (roadbookIdx (updateSummaryCard st4)) with (roadbookIdx st4).
    change (trackLatLngs (updateSummaryCard st4)) with (trackLatLngs st4).
    subst st4. by rewrite Ri, F5. }
  split; [exact Hout |].
  change (cumTimeH (updateSummaryCard st4)) with (cumTimeH st4).
  change (lastTotalAdjustedH (updateSummaryCard st4)) with (lastTotalAdjustedH st4).
  rewrite F4. split; [| exact Hadj].
  destruct (Qeq_bool (lastTotalAdjustedH st4) 0); [reflexivity | exact Hadj].
Qed.

End RunSummary.

Lemma calculate_summary_witness :
  ∃ st' totalTimeH,
    calculate planarKm twoSegments initialState = Some st' ∧
    roadbookIdx st' = [0%nat; (length (trackLatLngs st') - 1)%nat] ∧
    outputEl st' =
      OutSummary (lastOf (cumDistKm st')) (lastOf (cumAscentM st'))
        (lastOf (cumDescentM st')) (lastOf (cumTimeH st')) totalTimeH ∧
    (totalTimeH == lastOf (cumTimeH st'))%Q ∧
    (lastTotalAdjustedH st' == lastOf (cumTimeH st'))%Q.
Proof.
  eapply (calculate_summary planarKm planarKm_nonneg twoSegments initialState).
  - reflexivity.
  - vm_compute. discriminate.
  - right. by vm_compute.
Defined.

(** ** Labels without white space *)

Lemma trimStart_spaceless (s : string) : spaceless s = true → trimStart s = s.
Proof.
  destruct s as [| c r]; [done |]. cbn [spaceless trimStart].
  intros H. apply andb_true_iff in H as [Hc _]. by destruct (Ascii.is_space c).
Qed.

Lemma rev_app_spaceless (s1 s2 : string) :
  spaceless s1 = true → spaceless s2 = true →
  spaceless (String.rev_app s1 s2) = true.
Proof.
  revert s2. induction s1 as [| c r IH]; intros s2 H1 H2; [done |].
  cbn [spaceless] in H1. apply andb_true_iff in H1 as [Hc Hr].
  cbn [String.rev_app]. apply IH; [done |]. cbn [spaceless]. by rewrite Hc, H2.
Qed.

Lemma rev_app_rev_app (s1 s2 s3 : string) :
  String.rev_app (String.rev_app s1 s2) s3 = String.rev_app s2 (s1 +:+ s3).
Proof.
  revert s2. induction s1 as [| c r IH]; intros s2; [done |].
  cbn [String.rev_app]. by rewrite IH.
Qed.

Lemma append_empty (s : string) : s +:+ EmptyString = s.
Proof.
  induction s as [| c r IH]; [done |].
  change (String c (r +:+ EmptyString) = String c r). by rewrite IH.
Qed.

Lemma trim_spaceless (s : string) : spaceless s = true → trim s = s.
Proof.
  intros Hs. unfold trim. rewrite (trimStart_spaceless s Hs).
  rewrite trimStart_spaceless by (by apply rev_app_spaceless).
  unfold String.rev. rewrite rev_app_rev_app. cbn [String.rev_app].
  apply append_empty.
Qed.

Lemma pretty_N_go_spaceless (x : N) :
  ∀ s, spaceless s = true → spaceless (pretty_N_go x s) = true.
Proof.
  induction (N.lt_wf_0 x) as [x _ IH]; intros s Hs.
  assert (x = 0 ∨ 0 < x)%N as [-> | Hpos] by lia.
  - by rewrite pretty_N_go_0.
  - rewrite pretty_N_go_step by done. apply IH; [by apply N.div_lt |].
    cbn [spaceless]. rewrite Hs. unfold pretty_N_char. by repeat case_match.
Qed.

Lemma hash_label_spaceless (i : nat) : spaceless ("#" +:+ pretty i) = true.
Proof.
  cbn. unfold pretty, pretty_nat, pretty, pretty_N.
  case_decide; [done |]. by apply pretty_N_go_spaceless.
Qed.

(** ** Loading a plan *)

Lemma setTooltip_length (i : nat) (txt : string) (ms : list marker) :
  length (setTooltip i txt ms) = length ms.
Proof.
  rewrite <- (length_fmap m_idx), setTooltip_idx. apply length_fmap.
Qed.

(** What [addRoadbookIndex] without a render changes. *)
Lemma addRoadbookIndex_noRender (i : nat) (label : string) (locked : bool)
    (st : state) :
  let st' := addRoadbookIndex i true label locked st in
  let i' := Nat.min (length (trackLatLngs st) - 1) i in
  trackOf st' = trackOf st ∧
  legLabels st' = legLabels st ∧ legStopsMin st' = legStopsMin st ∧
  legCondPct st' = legCondPct st ∧ legCritical st' = legCritical st ∧
  alerts st' = alerts st ∧
  (if bool_decide (i' ∈ roadbookIdx st)
   then roadbookIdx st' = roadbookIdx st ∧
        length (markers st') = length (markers st)
   else roadbookIdx st' = merge_sort Nat.le (roadbookIdx st ++ [i']) ∧
        length (markers st') = S (length (markers st))).
Proof.
  intros st' i'. split; [apply trackOf_addRoadbookIndex |].
  subst st'. unfold addRoadbookIndex. cbv zeta.
  change (Nat.max 0 (Nat.min (length (trackLatLngs st) - 1) i)) with i'.
  case_bool_decide as Hin.
  - case_match; [| done]. unfold setRoadbookLabel. cbv zeta.
    rewrite bool_decide_eq_true_2 by done.
    cbn [setRoadbooks legLabels legStopsMin legCondPct legCritical alerts
         roadbookIdx markers].
    by rewrite setTooltip_length.
  - cbn [setRoadbooks legLabels legStopsMin legCondPct legCritical alerts
         roadbookIdx markers].
    rewrite length_app. cbn [length]. split_and!; try done. lia.
Qed.

(** The loop of [restorePlanFromJSON] returns; it adds at most the last
    point of the track, and a marker only with it. *)
Lemma restoreLoop_runs (fuel : nat) :
  ∀ (pos : nat) (st : state),
    let n := (length (trackLatLngs st) - 1)%nat in
    (length (roadbookIdx st) - pos +
       (if bool_decide (n ∈ roadbookIdx st) then 0 else 1) < fuel)%nat →
    ∃ st', restoreLoop fuel pos st = Some st' ∧
      trackOf st' = trackOf st ∧
      legLabels st' = legLabels st ∧ legStopsMin st' = legStopsMin st ∧
      legCondPct st' = legCondPct st ∧ legCritical st' = legCritical st ∧
      alerts st' = alerts st ∧
      ((roadbookIdx st' = roadbookIdx st ∧
        length (markers st') = length (markers st)) ∨
       ((n ∉ roadbookIdx st) ∧
        roadbookIdx st' = merge_sort Nat.le (roadbookIdx st ++ [n]) ∧
        length (markers st') = S (length (markers st)))).
Proof.
  induction fuel as [| fuel IH]; intros pos st n Hfuel; [lia |].
  cbn [restoreLoop].
  destruct (roadbookIdx st !! pos) as [i |] eqn:Hi.
  2: { exists st. split_and!; try done. by left. }
  assert (Hpos : (pos < length (roadbookIdx st))%nat) by (by eapply lookup_lt_Some).
  assert (Hiin : i ∈ roadbookIdx st) by (by eapply list_elem_of_lookup_2).
  set (locked := _ || _).
  set (label := default EmptyString (roadbookLabels st !! i)).
  destruct (addRoadbookIndex_noRender i label locked st)
    as (Ht & L1 & L2 & L3 & L4 & L5 & Hidx).
  set (st1 := addRoadbookIndex i true label locked st) in *.
  assert (Hn1 : (length (trackLatLngs st1) - 1)%nat = n).
  { subst n. by injection Ht as ->. }
  fold n in Hidx.
  case_bool_decide as Hold.
  - destruct Hidx as [Hidx Hms].
    destruct (IH (S pos) st1) as (st' & Hrun & Ht' & M1 & M2 & M3 & M4 & M5 & Hres).
    { rewrite Hn1, Hidx. lia. }
    exists st'. rewrite Hn1, Hidx, Hms in Hres.
    split_and!; first [congruence | exact Hres].
  - destruct Hidx as [Hidx Hms].
    assert (Hmin : Nat.min n i = n).
    { destruct (Nat.min_spec n i) as [[_ ->] | [_ Heq]]; [done |].
      rewrite Heq in Hold. done. }
    rewrite Hmin in Hidx, Hold.
    assert (Hin1 : n ∈ roadbookIdx st1).
    { rewrite Hidx, merge_sort_Permutation. apply elem_of_app. right.
      by apply list_elem_of_singleton. }
    destruct (IH (S pos) st1) as (st' & Hrun & Ht' & M1 & M2 & M3 & M4 & M5 & Hres).
    { rewrite Hn1, bool_decide_eq_true_2 by done.
      rewrite Hidx, merge_sort_Permutation, length_app. cbn [length].
      rewrite bool_decide_eq_false_2 in Hfuel by done. lia. }
    exists st'. rewrite Hn1 in Hres.
    split_and!; try congruence.
    destruct Hres as [[Hsame Hlen] | [Hnot _]]; [| done].
    right. split_and!; [done | congruence | congruence].
Qed.

(** X17. On a state with a track and a plan object of the shape that
    [serializePlan] writes (a signature or none, an array of indices that
    are natural numbers or none, objects whose values are strings, numbers
    and booleans, or none), [restorePlanFromJSON] returns.  It leaves the
    track alone and takes the leg maps from the file.  The waypoint indices
    are those of the file, to which the loop adds at most the last point of
    the track; and the only marker it can create is the one of that added
    point: when nothing is added, the map is left without any marker. *)
Theorem restore_returns (p : planFile) (st : state)
    (Htrack : trackLatLngs st ≠ []) :
  let idx0 := default (roadbookIdx st) (pf_roadbookIdx p) in
  let n := (length (trackLatLngs st) - 1)%nat in
  ∃ st',
    restorePlanFromJSON p st = Some st' ∧
    trackOf st' = trackOf st ∧
    legLabels st' = default ∅ (pf_legLabels p) ∧
    legStopsMin st' = default ∅ (pf_legStopsMin p) ∧
    legCondPct st' = default ∅ (pf_legCondPct p) ∧
    legCritical st' = default ∅ (pf_legCritical p) ∧
    ((roadbookIdx st' = idx0 ∧ markers st' = []) ∨
     ((n ∉ idx0) ∧ roadbookIdx st' = merge_sort Nat.le (idx0 ++ [n]) ∧
      length (markers st') = 1%nat)).
Proof.
  intros idx0 n. unfold restorePlanFromJSON. cbv zeta.
  set (st0 := match trackSignature st with Some _ => _ | None => _ end).
  assert (Htr0 : trackOf st0 = trackOf st).
  { subst st0. by repeat case_match. }
  assert (Hidx0 : roadbookIdx st0 = roadbookIdx st).
  { subst st0. by repeat case_match. }
  set (st1 := mkState _ _ _ _ _ _ _ _ _ _ _ _ _ [] _ _ _).
  assert (Htr1 : trackOf st1 = trackOf st) by exact Htr0.
  assert (Hn1 : (length (trackLatLngs st1) - 1)%nat = n).
  { subst n. change (trackLatLngs st1) with (trackLatLngs st0).
    by injection Htr0 as ->. }
  assert (Hidx1 : roadbookIdx st1 = idx0).
  { subst st1 idx0. cbn [roadbookIdx]. by rewrite Hidx0. }
  destruct (restoreLoop_runs (length (roadbookIdx st1) + 2) 0 st1)
    as (st' & Hrun & Ht' & M1 & M2 & M3 & M4 & _ & Hres).
  { case_bool_decide; lia. }
  rewrite Hrun. eexists. split; [reflexivity |].
  destruct (renderRoadbooksTable_waypoints st') as (Ri & _ & Rm & _).
  destruct (renderRoadbooksTable_legs st') as (L1 & L2 & L3 & L4 & _).
  rewrite trackOf_renderRoadbooksTable, Ri, Rm, L1, L2, L3, L4.
  rewrite Hn1, Hidx1 in Hres.
  split_and!; [congruence | exact M1 | exact M2 | exact M3 | exact M4 |].
  destruct Hres as [[Hsame Hlen] | (Hnot & Hadd & Hlen)].
  - left. split; [done |]. by apply nil_length_inv.
  - right. by split_and!.
Qed.

Lemma restore_returns_witness :
  let p := mkPlanFile (Some 5%nat) (Some [0; 2; 9]%nat) None None None None None in
  let idx0 := default (roadbookIdx withWaypoint) (pf_roadbookIdx p) in
  let n := (length (trackLatLngs withWaypoint) - 1)%nat in
  ∃ st',
    restorePlanFromJSON p withWaypoint = Some st' ∧
    trackOf st' = trackOf withWaypoint ∧
    legLabels st' = default ∅ (pf_legLabels p) ∧
    legStopsMin st' = default ∅ (pf_legStopsMin p) ∧
    legCondPct st' = default ∅ (pf_legCondPct p) ∧
    legCritical st' = default ∅ (pf_legCritical p) ∧
    ((roadbookIdx st' = idx0 ∧ markers st' = []) ∨
     ((n ∉ idx0) ∧ roadbookIdx st' = merge_sort Nat.le (idx0 ++ [n]) ∧
      length (markers st') = 1%nat)).
Proof.
  intros p. apply (restore_returns p withWaypoint). discriminate.
Defined.

(** An index of the plan that is on the track, with its own label: the
    call of the loop changes nothing. *)
Lemma addRoadbookIndex_saved (i : nat) (locked : bool) (st : state) :
  i ∈ roadbookIdx st → (i <= length (trackLatLngs st) - 1)%nat →
  markers st = [] →
  addRoadbookIndex i true (default EmptyString (roadbookLabels st !! i)) locked st = st.
Proof.
  intros Hin Hi Hms. unfold addRoadbookIndex. cbv zeta.
  replace (Nat.max 0 (Nat.min (length (trackLatLngs st) - 1) i)) with i by lia.
  rewrite bool_decide_eq_true_2 by done.
  destruct (roadbookLabels st !! i) as [s |] eqn:Hs; cbn [default from_option id];
    [| done].
  destruct (truthy (trim s)) eqn:Et; cbn [andb]; [| done].
  destruct (truthy s) eqn:Es; cbn [negb orb].
  - case_bool_decide as Heq; [| done]. injection Heq as ->.
    unfold setRoadbookLabel. cbv zeta.
    rewrite !(trim_spaceless ("#" +:+ pretty i)) by apply hash_label_spaceless.
    rewrite bool_decide_eq_true_2 by done. rewrite Es.
    rewrite insert_id by done. destruct st. cbn [markers] in Hms. by subst.
  - by destruct s.
Qed.

Lemma restoreLoop_saved (fuel : nat) :
  ∀ (pos : nat) (st : state),
    Forall (fun i => (i <= length (trackLatLngs st) - 1)%nat) (roadbookIdx st) →
    markers st = [] → (length (roadbookIdx st) - pos < fuel)%nat →
    restoreLoop fuel pos st = Some st.
Proof.
  induction fuel as [| fuel IH]; intros pos st Hbound Hms Hfuel; [lia |].
  cbn [restoreLoop]. destruct (roadbookIdx st !! pos) as [i |] eqn:Hi; [| done].
  assert (Hin : i ∈ roadbookIdx st) by (by eapply list_elem_of_lookup_2).
  rewrite addRoadbookIndex_saved; [| done | | done].
  - apply IH; [done | done |]. apply lookup_lt_Some in Hi. lia.
  - rewrite Forall_forall in Hbound. by apply Hbound.
Qed.

(** The table is a function of the track, the waypoints, their labels
    and the leg maps. *)
Lemma roadbooksEl_ext (st st' : state) :
  trackOf st' = trackOf st → roadbookIdx st' = roadbookIdx st →
  roadbookLabels st' = roadbookLabels st → legLabels st' = legLabels st →
  legStopsMin st' = legStopsMin st → legCondPct st' = legCondPct st →
  legCritical st' = legCritical st →
  roadbooksEl (renderRoadbooksTable st') = roadbooksEl (renderRoadbooksTable st).
Proof.
  destruct st, st'. cbn [trackOf roadbookIdx roadbookLabels legLabels legStopsMin
    legCondPct legCritical].
  intros [= -> -> -> -> -> ->] -> -> -> -> -> ->.
  unfold renderRoadbooksTable. cbn [trackLatLngs roadbookIdx].
  by destruct (_ || _).
Qed.

(** X18. A plan saved from a state whose waypoints are on the track,
    loaded again on the same track: the load returns and raises no alert;
    the waypoint indices, their labels, the leg names, stops, markups and
    critical flags are those at the time of saving, and the table is the
    table of the saved state; but no waypoint has a marker any more. *)
Theorem plan_round_trip (st st0 : state)
    (Htrack : trackLatLngs st ≠ [])
    (Hbound : Forall (fun i => (i <= length (trackLatLngs st) - 1)%nat)
                     (roadbookIdx st))
    (Hsame : trackOf st0 = trackOf st) :
  ∃ file st',
    savePlan st = Some file ∧ restorePlanFromJSON file st0 = Some st' ∧
    roadbookIdx st' = roadbookIdx st ∧ roadbookLabels st' = roadbookLabels st ∧
    legLabels st' = legLabels st ∧ legStopsMin st' = legStopsMin st ∧
    legCondPct st' = legCondPct st ∧ legCritical st' = legCritical st ∧
    roadbooksEl st' = roadbooksEl (renderRoadbooksTable st) ∧
    markers st' = [] ∧ alerts st' = alerts st0.
Proof.
  assert (Hlen : length (trackLatLngs st) ≠ 0%nat).
  { by destruct (trackLatLngs st). }
  assert (Hl0 : trackLatLngs st0 = trackLatLngs st) by (by injection Hsame).
  set (st1 :=
    mkState (trackLatLngs st0) (trackBreakIdx st0) (cumDistKm st0) (cumAscentM st0)
      (cumDescentM st0) (cumTimeH st0) (roadbookIdx st) (roadbookLabels st)
      (legLabels st) (legStopsMin st) (legCondPct st) (legCritical st)
      (lastTotalAdjustedH st0) [] (outputEl st0) (roadbooksEl st0) (alerts st0)).
  exists (mkPlanFile (trackSignature st) (Some (roadbookIdx st))
            (Some (roadbookLabels st)) (Some (legLabels st))
            (Some (legStopsMin st)) (Some (legCondPct st))
            (Some (legCritical st))),
         (renderRoadbooksTable st1).
  split.
  { unfold savePlan. by rewrite bool_decide_eq_false_2 by done. }
  split.
  { unfold restorePlanFromJSON. cbv zeta.
    cbn [pf_signature pf_roadbookIdx pf_roadbookLabels pf_legLabels pf_legStopsMin
         pf_legCondPct pf_legCritical default from_option id].
    unfold trackSignature. rewrite Hl0, !bool_decide_eq_false_2 by done.
    rewrite bool_decide_eq_true_2 by done. fold st1.
    rewrite (restoreLoop_saved _ 0 st1); [done | | done |].
    - subst st1. cbn [roadbookIdx trackLatLngs]. by rewrite Hl0.
    - lia. }
  destruct (renderRoadbooksTable_waypoints st1) as (-> & -> & -> & _).
  destruct (renderRoadbooksTable_legs st1) as (-> & -> & -> & -> & ->).
  split_and!; try done.
  by apply roadbooksEl_ext.
Qed.

Lemma plan_round_trip_witness :
  ∃ file st',
    savePlan withWaypoint = Some file ∧
    restorePlanFromJSON file fivePoints = Some st' ∧
    roadbookIdx st' = roadbookIdx withWaypoint ∧
    roadbookLabels st' = roadbookLabels withWaypoint ∧
    legLabels st' = legLabels withWaypoint ∧
    legStopsMin st' = legStopsMin withWaypoint ∧
    legCondPct st' = legCondPct withWaypoint ∧
    legCritical st' = legCritical withWaypoint ∧
    roadbooksEl st' = roadbooksEl (renderRoadbooksTable withWaypoint) ∧
    markers st' = [] ∧ alerts st' = alerts fivePoints.
Proof.
  apply (plan_round_trip withWaypoint fivePoints).
  - discriminate.
  - assert (roadbookIdx withWaypoint = [0; 2; 4]%nat) as -> by (by vm_compute).
    assert (length (trackLatLngs withWaypoint) = 5%nat) as -> by (by vm_compute).
    repeat constructor.
  - reflexivity.
Defined.

(** ** Text of the cells *)

Lemma append_cons (c : ascii) (r t : string) :
  String c r +:+ t = String c (r +:+ t).
Proof. reflexivity. Qed.

Lemma digit_char (y : N) :
  (y < 10)%N → isDigit (pretty_N_char y) = true ∧ digitOf (pretty_N_char y) = y.
Proof.
  intros Hy.
  assert (H : (y = 0 ∨ y = 1 ∨ y = 2 ∨ y = 3 ∨ y = 4 ∨ y = 5 ∨ y = 6 ∨ y = 7 ∨
               y = 8 ∨ y = 9)%N) by lia.
  repeat (destruct H as [-> | H]; [by vm_compute |]). subst y. by vm_compute.
Qed.

Lemma pretty_N_go_app (x : N) :
  ∀ s t, pretty_N_go x s +:+ t = pretty_N_go x (s +:+ t).
Proof.
  induction (N.lt_wf_0 x) as [x _ IH]; intros s t.
  assert (x = 0 ∨ 0 < x)%N as [-> | Hpos] by lia.
  - by rewrite !pretty_N_go_0.
  - rewrite (pretty_N_go_step x s), (pretty_N_go_step x (s +:+ t)) by done.
    rewrite IH by (by apply N.div_lt). by rewrite append_cons.
Qed.

(** The digits of [x], read back, give [x]. *)
Lemma scan_pretty_go (x : N) :
  ∃ k : N, ∀ s acc,
    scanDigits (pretty_N_go x s) acc = scanDigits s (acc * 10 ^ k + x)%N.
Proof.
  induction (N.lt_wf_0 x) as [x _ IH].
  assert (x = 0 ∨ 0 < x)%N as [-> | Hpos] by lia.
  - exists 0%N. intros s acc. rewrite pretty_N_go_0. f_equal. cbn. lia.
  - destruct (IH (x `div` 10)%N) as [k Hk]; [by apply N.div_lt |].
    exists (N.succ k). intros s acc.
    rewrite pretty_N_go_step, Hk by done. cbn [scanDigits].
    destruct (digit_char (x `mod` 10)%N) as [-> ->]; [by apply N.mod_lt |].
    f_equal. rewrite N.pow_succ_r'. pose proof (N.div_mod x 10). lia.
Qed.

Lemma pretty_N_go_head (x : N) :
  (0 < x)%N → ∀ s, ∃ c r, pretty_N_go x s = String c r ∧ isDigit c = true.
Proof.
  induction (N.lt_wf_0 x) as [x _ IH]; intros Hpos s.
  rewrite pretty_N_go_step by done.
  destruct (N.eq_0_gt_0_cases (x `div` 10)) as [-> | Hdiv].
  - rewrite pretty_N_go_0. eexists _, _. split; [done |].
    by apply digit_char, N.mod_lt.
  - apply IH; [by apply N.div_lt | done].
Qed.

(** The text of a cell: a number, then a unit that does not start with a
    digit. *)
Lemma firstDigits_number (n def : N) (c : ascii) (unit : string) :
  isDigit c = false →
  firstDigits (pretty n +:+ String c unit) def = n.
Proof.
  intros Hc. unfold pretty, pretty_N. case_decide as Hz.
  - subst n. change (firstDigits (String "0"%char (String c unit)) def = 0%N).
    cbn [firstDigits scanDigits]. change (isDigit "0") with true.
    cbn match. by rewrite Hc.
  - rewrite pretty_N_go_app. change (EmptyString +:+ String c unit) with (String c unit).
    destruct (pretty_N_go_head n) with (s := String c unit) as (d & r & Heq & Hd);
      [lia |].
    assert (Hscan : scanDigits (pretty_N_go n (String c unit)) 0 = n).
    { destruct (scan_pretty_go n) as [k Hk]. rewrite Hk. cbn [scanDigits].
      rewrite Hc. lia. }
    rewrite Heq in Hscan |- *. cbn [firstDigits]. by rewrite Hd.
Qed.

Lemma firstDigits_none (s : string) (def : N) :
  Forall (fun c => isDigit c = false) (String.list_ascii_of_string s) →
  firstDigits s def = def.
Proof.
  induction s as [| c r IH]; [done |]. cbn [String.list_ascii_of_string firstDigits].
  intros H. apply Forall_cons in H as [-> H]. by apply IH.
Qed.

(** X19. The text that a stops or a markup cell shows reads back as the
    number it shows: [sanitizeInt] of [minutesToText n] and of
    [percentToText n] is [n], for the integers that a double holds
    exactly; a text without any digit, or no text, gives the default. *)
Theorem sanitizeInt_round_trip (n def : N) (Hn : (n < 2 ^ 53)%N) :
  sanitizeInt (Some (minutesToText n)) def = n ∧
  sanitizeInt (Some (percentToText n)) def = n ∧
  sanitizeInt None def = def ∧
  ∀ s, Forall (fun c => isDigit c = false) (String.list_ascii_of_string s) →
       sanitizeInt (Some s) def = def.
Proof.
  unfold sanitizeInt, minutesToText, percentToText. cbn [default from_option id].
  split_and!.
  - by apply firstDigits_number.
  - by apply firstDigits_number.
  - done.
  - intros s Hs. by apply firstDigits_none.
Qed.

Lemma sanitizeInt_round_trip_witness :
  sanitizeInt (Some (minutesToText 45)) 0 = 45%N ∧
  sanitizeInt (Some (percentToText 45)) 0 = 45%N ∧
  sanitizeInt None 0 = 0%N ∧
  ∀ s, Forall (fun c => isDigit c = false) (String.list_ascii_of_string s) →
       sanitizeInt (Some s) 0 = 0%N.
Proof. apply (sanitizeInt_round_trip 45 0). by vm_compute. Defined.

(** X20. The hours and minutes that [fmtHrs] shows for a total of
    minutes [t] below [2^53] in absolute value, which a double holds
    exactly: when [t] is not negative the hours are not negative, the
    minutes lie between 0 and 59 and together they make [t].  When [t] is
    negative the minutes are not positive, and when they are not 0 the
    hours and minutes shown make the total less one hour. *)
Theorem hrsParts_spec (t : Z) (Hsafe : (Z.abs t < 2 ^ 53)%Z) :
  let h := (hrsParts t).1 in
  let m := (hrsParts t).2 in
  ((0 <= t)%Z → (0 <= h)%Z ∧ (0 <= m < 60)%Z ∧ (60 * h + m = t)%Z) ∧
  ((t < 0)%Z → (-60 < m <= 0)%Z ∧
               (60 * h + m = if (m =? 0)%Z then t else t - 60)%Z).
Proof.
  intros h m. subst h m. unfold hrsParts. cbn [fst snd].
  pose proof (Z.div_mod t 60 ltac:(lia)) as Hdm.
  pose proof (Z.mod_pos_bound t 60 ltac:(lia)) as Hmod.
  pose proof (Z.quot_rem' t 60) as Hqr.
  split.
  - intros Ht.
    rewrite Z.rem_mod_nonneg by lia.
    pose proof (Z.div_pos t 60 Ht ltac:(lia)). lia.
  - intros Hneg.
    pose proof (Z.rem_bound_pos_neg t 60 ltac:(lia) ltac:(lia)) as Hrem.
    destruct (Z.eqb_spec (Z.rem t 60) 0) as [Hz | Hnz]; lia.
Qed.

Lemma hrsParts_spec_witness :
  hrsParts 125 = (2, 5)%Z ∧ hrsParts (-125) = (-3, -5)%Z ∧
  ((0 <= 125)%Z →
   (0 <= (hrsParts 125).1)%Z ∧ (0 <= (hrsParts 125).2 < 60)%Z ∧
   (60 * (hrsParts 125).1 + (hrsParts 125).2 = 125)%Z) ∧
  ((-125 < 0)%Z →
   (-60 < (hrsParts (-125)).2 <= 0)%Z ∧
   (60 * (hrsParts (-125)).1 + (hrsParts (-125)).2 = -125 - 60)%Z).
Proof.
  split; [reflexivity |]. split; [reflexivity |]. split.
  - apply (hrsParts_spec 125). by vm_compute.
  - apply (hrsParts_spec (-125)). by vm_compute.
Defined.

Lemma list_ascii_app (a b : string) :
  String.list_ascii_of_string (a +:+ b) = String.list_ascii_of_string a ++ String.list_ascii_of_string b.
Proof.
  induction a as [| c r IH]; [done |].
  rewrite append_cons. cbn [String.list_ascii_of_string app]. by rewrite IH.
Qed.

(** X21. The text that [escapeHtml] returns has no [<], no [>] and no
    quote character, single or double; and a text without any of the five
    special characters is returned as it is. *)
Theorem escapeHtml_safe (s : string) :
  Forall (fun c => c ≠ "<"%char ∧ c ≠ ">"%char ∧ c ≠ "034"%char ∧ c ≠ "'"%char)
         (String.list_ascii_of_string (escapeHtml s)) ∧
  (Forall (fun c => c ≠ "&"%char ∧ c ≠ "<"%char ∧ c ≠ ">"%char ∧
                    c ≠ "034"%char ∧ c ≠ "'"%char)
          (String.list_ascii_of_string s) → escapeHtml s = s).
Proof.
  induction s as [| c r [IH1 IH2]]; [by split |].
  cbn [escapeHtml]. split.
  - rewrite list_ascii_app. apply Forall_app. split; [| done].
    unfold escapeChar.
    repeat match goal with
           | |- context [Ascii.eqb c ?d] =>
               destruct (Ascii.eqb_spec c d) as [-> | ?]; [by repeat constructor |]
           end.
    by repeat constructor.
  - cbn [String.list_ascii_of_string]. intros H.
    apply Forall_cons in H as [(H1 & H2 & H3 & H4 & H5) Hr].
    unfold escapeChar.
    repeat match goal with
           | |- context [Ascii.eqb c ?d] =>
               destruct (Ascii.eqb_spec c d) as [-> | ?]; [done |]
           end.
    rewrite append_cons. change (EmptyString +:+ escapeHtml r) with (escapeHtml r).
    by rewrite IH2.
Qed.

(** ** Removing and importing waypoints *)

(** X22. A click on a locked marker changes nothing. A click on an
    unlocked marker, in a state whose waypoints are in order, removes the
    waypoint of the marker and no other, removes its label and its marker,
    and leaves the track alone. *)
Theorem markerClick_removes (m : marker) (st : state) (Hok : waypointsOk st) :
  let st' := markerClick m st in
  (m_locked m = true → st' = st) ∧
  (m_locked m = false →
     (∀ j, j ∈ roadbookIdx st' ↔ j ∈ roadbookIdx st ∧ j ≠ m_idx m) ∧
     roadbookLabels st' = delete (m_idx m) (roadbookLabels st) ∧
     (∀ mm, mm ∈ markers st' → mm ∈ markers st ∧ m_idx mm ≠ m_idx m) ∧
     trackOf st' = trackOf st).
Proof.
  intros st'. subst st'. unfold markerClick. split; [by intros -> |].
  intros ->. cbv zeta.
  destruct (renderRoadbooksTable_waypoints
    (mkState (trackLatLngs st) (trackBreakIdx st) (cumDistKm st)
       (cumAscentM st) (cumDescentM st) (cumTimeH st)
       (removeFirst (Nat.eqb (m_idx m)) (roadbookIdx st))
       (delete (m_idx m) (roadbookLabels st))
       (filter (fun kv : (nat * nat) * string =>
                  ¬ (kv.1.1 = m_idx m ∨ kv.1.2 = m_idx m)) (legLabels st))
       (delete (m_idx m, S (m_idx m)) (legStopsMin st))
       (delete (m_idx m, S (m_idx m)) (legCondPct st)) (legCritical st)
       (lastTotalAdjustedH st)
       (removeFirst (fun mm => (m_idx mm =? m_idx m)%nat) (markers st))
       (outputEl st) (roadbooksEl st) (alerts st))) as (-> & -> & -> & _).
  rewrite trackOf_renderRoadbooksTable. cbn [roadbookIdx roadbookLabels markers].
  destruct Hok as (Hs & _ & _ & Hm & _).
  assert (Hnd : NoDup (roadbookIdx st)) by (by apply StronglySorted_lt_NoDup).
  split_and!; [| done | | done].
  - intros j. apply removeFirst_spec; [| done].
    intros y. rewrite Nat.eqb_eq. split; intros H; by symmetry.
  - intros mm Hmm. split; [by eapply removeFirst_elem |].
    assert (Hidx : m_idx mm ∈ removeFirst (fun y => (y =? m_idx m)%nat)
                                (m_idx <$> markers st)).
    { rewrite <- (removeFirst_fmap m_idx). by apply list_elem_of_fmap_2. }
    apply (removeFirst_spec _ (m_idx m)) in Hidx as [_ Hne]; [done | | by rewrite Hm].
    intros y. by rewrite Nat.eqb_eq.
Qed.

Lemma markerClick_removes_witness :
  let m := mkMarker 2 false "WP 1" in
  let st' := markerClick m withWaypoint in
  (m_locked m = true → st' = withWaypoint) ∧
  (m_locked m = false →
     (∀ j, j ∈ roadbookIdx st' ↔ j ∈ roadbookIdx withWaypoint ∧ j ≠ m_idx m) ∧
     roadbookLabels st' = delete (m_idx m) (roadbookLabels withWaypoint) ∧
     (∀ mm, mm ∈ markers st' → mm ∈ markers withWaypoint ∧ m_idx mm ≠ m_idx m) ∧
     trackOf st' = trackOf withWaypoint).
Proof.
  apply (markerClick_removes (mkMarker 2 false "WP 1") withWaypoint).
  unfold waypointsOk.
  assert (roadbookIdx withWaypoint = [0; 2; 4]%nat) as -> by (by vm_compute).
  assert (length (trackLatLngs withWaypoint) = 5%nat) as -> by (by vm_compute).
  assert (markers withWaypoint =
          [mkMarker 0 true "Start"; mkMarker 4 true "Finish"; mkMarker 2 false "WP 1"])
    as -> by (by vm_compute).
  split_and!.
  - repeat constructor.
  - repeat constructor.
  - repeat (constructor; [eexists; split; vm_compute; reflexivity |]). constructor.
  - vm_compute. apply perm_skip, perm_swap.
  - repeat (constructor; [vm_compute; reflexivity |]). constructor.
Defined.

Section ImportProofs.

Variable haversineKm : Q → Q → Q → Q → Q.

(** X23. The import of a GPX waypoint into a state whose waypoints are
    in order, on a track that is not empty: when the nearest track point
    is a waypoint already, nothing changes and the name of the imported
    waypoint is dropped; otherwise that point becomes a waypoint, with
    an unlocked marker that carries its label, and the other waypoints
    and markers stay. *)
Theorem importWaypoint_adds_or_keeps (st : state) (la lo : Q) (name : string)
    (Htrack : trackLatLngs st ≠ []) (Hok : waypointsOk st) :
  let idx := nearestIndexOnTrack haversineKm la lo (trackLatLngs st) in
  let st' := importWaypoint haversineKm st (la, lo, name) in
  (idx ∈ roadbookIdx st → st' = st) ∧
  (idx ∉ roadbookIdx st →
     roadbookIdx st' ≡ₚ idx :: roadbookIdx st ∧
     ∃ label, markers st' = markers st ++ [mkMarker idx false label] ∧
              roadbookLabels st' = <[idx := label]> (roadbookLabels st) ∧
              truthy label = true).
Proof.
  intros idx st'. subst st'. unfold importWaypoint. fold idx.
  assert (Hidx : (idx < length (trackLatLngs st))%nat).
  { by apply nearestIndexOnTrack_lt. }
  split.
  - intros Hin. rewrite bool_decide_eq_true_2 by done. cbn [negb].
    destruct Hok as (_ & _ & Hl & _). rewrite Forall_forall in Hl.
    destruct (Hl idx Hin) as (s & -> & Hs). cbn [default from_option id].
    by rewrite Hs.
  - intros Hnew. rewrite bool_decide_eq_false_2 by done. cbn [negb].
    set (label := if truthy name then name else "WP").
    pose proof (waypointsOk_add idx true label false st Hok) as Hok'.
    destruct (addRoadbookIndex_fresh idx label false st) as [initial Hadd];
      [lia | done |].
    rewrite Hadd in Hok' |- *.
    cbn [setRoadbooks roadbookIdx markers roadbookLabels].
    split.
    + rewrite merge_sort_Permutation. by rewrite Permutation_app_comm.
    + exists initial. split_and!; [done | done |].
      destruct Hok' as (_ & _ & Hl & _). rewrite Forall_forall in Hl.
      cbn [setRoadbooks roadbookIdx roadbookLabels] in Hl.
      destruct (Hl idx) as (s & Hs & Ht).
      { rewrite merge_sort_Permutation. apply elem_of_app. right.
        by apply list_elem_of_singleton. }
      rewrite lookup_insert_eq in Hs. by injection Hs as ->.
Qed.

End ImportProofs.

Lemma importWaypoint_adds_or_keeps_witness :
  let idx := nearestIndexOnTrack planarKm 0 3 (trackLatLngs withWaypoint) in
  let st' := importWaypoint planarKm withWaypoint (0, 3, "Hut")%Q in
  (idx ∈ roadbookIdx withWaypoint → st' = withWaypoint) ∧
  (idx ∉ roadbookIdx withWaypoint →
     roadbookIdx st' ≡ₚ idx :: roadbookIdx withWaypoint ∧
     ∃ label, markers st' = markers withWaypoint ++ [mkMarker idx false label] ∧
              roadbookLabels st' = <[idx := label]> (roadbookLabels withWaypoint) ∧
              truthy label = true).
Proof.
  apply (importWaypoint_adds_or_keeps planarKm withWaypoint 0 3 "Hut").
  - discriminate.
  - unfold waypointsOk.
    assert (roadbookIdx withWaypoint = [0; 2; 4]%nat) as -> by (by vm_compute).
    assert (length (trackLatLngs withWaypoint) = 5%nat) as -> by (by vm_compute).
    assert (markers withWaypoint =
            [mkMarker 0 true "Start"; mkMarker 4 true "Finish"; mkMarker 2 false "WP 1"])
      as -> by (by vm_compute).
    split_and!.
    + repeat constructor.
    + repeat constructor.
    + repeat (constructor; [eexists; split; vm_compute; reflexivity |]). constructor.
    + vm_compute. apply perm_skip, perm_swap.
    + repeat (constructor; [vm_compute; reflexivity |]). constructor.
Defined.

(** ** Elevation gap filler *)

Lemma nullish_None_r {A} (a : option A) : a ?? None = a.
Proof. by destruct a. Qed.

Lemma nullish_assoc {A} (a b c : option A) : (a ?? b) ?? c = a ?? b ?? c.
Proof. by destruct a. Qed.

Lemma lastPresent_snoc (l : list point) (p : point) :
  lastPresent (l ++ [p]) = ele p ?? lastPresent l.
Proof.
  unfold lastPresent. rewrite omap_app. cbn [omap list_omap].
  destruct (ele p) as [e |]; cbn [nullish].
  - apply last_snoc.
  - by rewrite app_nil_r.
Qed.

Lemma lastPresent_cons (p : point) (l : list point) :
  lastPresent (p :: l) = lastPresent l ?? ele p.
Proof.
  unfold lastPresent. change (p :: l) with ([p] ++ l). rewrite omap_app.
  cbn [omap list_omap]. destruct (ele p) as [e |]; cbn [app].
  - rewrite last_cons. by destruct (last _).
  - by rewrite nullish_None_r.
Qed.

Lemma firstPresent_cons (p : point) (l : list point) :
  firstPresent (p :: l) = ele p ?? firstPresent l.
Proof. unfold firstPresent. cbn [omap list_omap]. by destruct (ele p). Qed.

Lemma lastPresent_reverse (l : list point) :
  lastPresent (reverse l) = firstPresent l.
Proof.
  induction l as [| p r IH]; [done |].
  by rewrite reverse_cons, lastPresent_snoc, firstPresent_cons, IH.
Qed.

(** What the first pass has written from the index [k] on. *)
Lemma fillPass_drop (pts : list point) :
  ∀ (c : option Q) (k : nat),
    drop k (fillPass c pts) = fillPass (lastPresent (take k pts) ?? c) (drop k pts).
Proof.
  induction pts as [| p r IH]; intros c k.
  - by destruct k.
  - destruct k as [| k]; [done |].
    cbn [take drop fillPass]. rewrite lastPresent_cons, nullish_assoc.
    destruct (ele p) as [e |]; cbn [drop nullish]; by rewrite IH.
Qed.

Lemma fillPass_first_None (l : list point) :
  firstPresent (fillPass None l) = firstPresent l.
Proof.
  induction l as [| p r IH]; [done |]. cbn [fillPass].
  destruct (ele p) as [e |] eqn:Hp; rewrite !firstPresent_cons.
  - by rewrite Hp.
  - cbn [ele]. by rewrite Hp, IH.
Qed.

Lemma fillPass_head (c : option Q) (p : point) (rest : list point) :
  ∃ tl, fillPass c (p :: rest) = mkPoint (lat p) (lon p) (ele p ?? c) :: tl ∧
        firstPresent (fillPass c (p :: rest)) = ele p ?? c ?? firstPresent rest.
Proof.
  cbn [fillPass]. destruct (ele p) as [e |] eqn:Hp; cbn [nullish].
  - eexists. split; [by destruct p; cbn in Hp; subst |].
    by rewrite firstPresent_cons, Hp.
  - eexists. split; [done |]. rewrite firstPresent_cons. cbn [ele].
    destruct c as [v |]; [done |]. cbn [nullish]. apply fillPass_first_None.
Qed.

Lemma fillPass_at (pts : list point) (c : option Q) (i : nat) (p : point) :
  pts !! i = Some p →
  fillPass c pts !! i =
    Some (mkPoint (lat p) (lon p) (lastPresent (take (S i) pts) ?? c)) ∧
  firstPresent (drop i (fillPass c pts)) =
    (lastPresent (take (S i) pts) ?? c) ?? firstPresent (drop (S i) pts).
Proof.
  intros Hi.
  assert (Hdrop : drop i pts = p :: drop (S i) pts).
  { by rewrite <- drop_S. }
  assert (Hlast : lastPresent (take (S i) pts) = ele p ?? lastPresent (take i pts)).
  { rewrite (take_S_r _ _ _ Hi). apply lastPresent_snoc. }
  rewrite <- (Nat.add_0_r i) at 1. rewrite <- lookup_drop.
  rewrite fillPass_drop, Hdrop, Hlast, !nullish_assoc.
  destruct (fillPass_head (lastPresent (take i pts) ?? c) p (drop (S i) pts))
    as (tl & -> & Hfirst).
  split; [done |]. by rewrite Hfirst, nullish_assoc.
Qed.

(** X24. [fillElevationOnPoints] keeps the length and the position of
    every point. The elevation of the point [i] of the result is the last
    present elevation of the input up to [i]; when there is none, the
    first present elevation after [i]; when there is none either, null. *)
Theorem fillElevationOnPoints_spec (pts : list point) :
  length (fillElevationOnPoints pts) = length pts ∧
  ∀ i p, pts !! i = Some p →
    fillElevationOnPoints pts !! i =
      Some (mkPoint (lat p) (lon p)
              (lastPresent (take (S i) pts) ?? firstPresent (drop (S i) pts))).
Proof.
  split; [apply fillElevationOnPoints_length |].
  intros i p Hi.
  assert (Hlt : (i < length pts)%nat) by (by eapply lookup_lt_Some).
  unfold fillElevationOnPoints. rewrite !rev_alt.
  change (rev_append ?l []) with (reverse l).
  set (l1 := fillPass None pts). change (rev_append l1 []) with (reverse l1).
  assert (Hlen1 : length l1 = length pts) by apply fillPass_length.
  destruct (fillPass_at pts None i p Hi) as [H1 Hfirst].
  fold l1 in H1, Hfirst. rewrite !nullish_None_r in H1, Hfirst.
  set (k := (length pts - S i)%nat).
  assert (Hk : reverse l1 !! k = Some (mkPoint (lat p) (lon p)
                                         (lastPresent (take (S i) pts)))).
  { rewrite reverse_lookup by (rewrite Hlen1; subst k; lia).
    rewrite Hlen1. replace (length pts - S k)%nat with i by (subst k; lia). done. }
  destruct (fillPass_at (reverse l1) None k _ Hk) as [H2 _].
  rewrite nullish_None_r in H2.
  rewrite reverse_lookup
    by (rewrite fillPass_length, length_reverse, Hlen1; lia).
  rewrite fillPass_length, length_reverse, Hlen1. fold k. rewrite H2.
  cbn [lat lon]. do 2 f_equal.
  rewrite take_reverse, lastPresent_reverse, Hlen1.
  replace (length pts - S k)%nat with i by (subst k; lia). exact Hfirst.
Qed.

(** ** Settings *)

(** X25. Whatever the form holds, the settings read from it are in
    range: the speeds and the downhill factor are positive, the spacing is
    between 1 and 100, the smoothing window between 5 and 500 and the
    deadband between 0 and 20; and the median window in samples is odd,
    between 3 and 501. *)
Theorem readSettings_ranges (f : form) :
  let cfg := readSettings f in
  let win := clampToOdd (Z.max 3 (round (smoothWinM cfg / spacingM cfg))) 3 999 in
  (0 < speedFlatKmh cfg)%Q ∧ (0 < speedVertMh cfg)%Q ∧ (0 < downhillFactor cfg)%Q ∧
  (1 <= spacingM cfg)%Q ∧ (spacingM cfg <= 100)%Q ∧
  (5 <= smoothWinM cfg)%Q ∧ (smoothWinM cfg <= 500)%Q ∧
  (0 <= elevDeadbandM cfg)%Q ∧ (elevDeadbandM cfg <= 20)%Q ∧
  Z.odd win = true ∧ (3 <= win <= 501)%Z.
Proof.
  intros cfg win.
  assert (Hsp : (1 <= spacingM cfg)%Q ∧ (spacingM cfg <= 100)%Q)
    by (by apply clamp_bounds).
  assert (Hsm : (5 <= smoothWinM cfg)%Q ∧ (smoothWinM cfg <= 500)%Q)
    by (by apply clamp_bounds).
  assert (Hdb : (0 <= elevDeadbandM cfg)%Q ∧ (elevDeadbandM cfg <= 20)%Q)
    by (by apply clamp_bounds).
  destruct Hsp as [Hsp1 Hsp2], Hsm as [Hsm1 Hsm2], Hdb as [Hdb1 Hdb2].
  split_and!; try done; try (apply toPosNum_pos; reflexivity).
  all: subst win; unfold clampToOdd; cbv zeta.
  all: set (r := round (smoothWinM cfg / spacingM cfg)).
  all: assert (Hr : (r <= 500)%Z).
  1, 3, 5: subst r; unfold round;
    change 500%Z with (Qfloor (500 + (1 # 2))); apply Qfloor_resp_le;
    apply Qplus_le_l, Qle_shift_div_r; lra.
  all: assert (Hv : clampZ (Z.max 3 r) 3 999 = Z.max 3 r) by (unfold clampZ; lia).
  all: rewrite Hv; set (v := Z.max 3 r) in *.
  all: pose proof (Z.mod_pos_bound v 2 eq_refl) as Hmod.
  all: destruct (Z.eqb_spec (v mod 2) 0) as [Hev | Hodd];
    [destruct (Z.leb_spec 999 v) as [? | _]; [lia |] |].
  - rewrite Zodd_mod. apply Z.eqb_eq. rewrite Z.add_mod, Hev by lia. reflexivity.
  - rewrite Zodd_mod. apply Z.eqb_eq. lia.
  - lia.
  - lia.
  - lia.
  - lia.
Qed.

(** ** The alerts of a run *)

Section RunAlerts.

Variable haversineKm : Q → Q → Q → Q → Q.
Hypothesis haversine_nonneg : ∀ a b c d, (0 <= haversineKm a b c d)%Q.

(** X26. The click handler of the Calculate button returns on every
    form and every state; the only alert it raises is the one that asks
    for a file, when none is chosen: the alert about the speeds and the
    downhill factor is never raised. *)
Theorem calculate_returns (f : form) (st : state) :
  ∃ st',
    calculate haversineKm f st = Some st' ∧
    alerts st' =
      alerts st ++
      match gpxFile f with Some _ => [] | None => ["Please upload a GPX file."] end.
Proof.
  destruct (gpxFile f) as [gpx |] eqn:Hfile.
  - destruct (parseGPXToSegments gpx) as [| seg segs] eqn:Hsegs.
    + exists (setOutput (OutMessage "<p>No track segments found.</p>") st).
      split; [| by rewrite app_nil_r].
      unfold calculate. by rewrite Hfile, settings_check_passes, Hsegs.
    + destruct (calculate_before_render haversineKm haversine_nonneg f st gpx Hfile)
        as (st3 & Hrun & _ & _ & _ & _ & _ & _ & Ha3 & _); [by rewrite Hsegs |].
      eexists. split; [exact Hrun |].
      destruct (renderRoadbooksTable_legs st3) as (_ & _ & _ & _ & L5).
      cbn [updateSummaryCard alerts]. by rewrite L5, Ha3, app_nil_r.
  - eexists. split; [unfold calculate; by rewrite Hfile |]. done.
Qed.

End RunAlerts.

Lemma calculate_returns_witness :
  ∃ st',
    calculate planarKm twoSegments initialState = Some st' ∧
    alerts st' =
      alerts initialState ++
      match gpxFile twoSegments with
      | Some _ => []
      | None => ["Please upload a GPX file."]
      end.
Proof. apply (calculate_returns planarKm planarKm_nonneg twoSegments initialState). Defined.

(** ** Editing the stops of a leg *)

Lemma sorted_lookup_inj (l : list nat) (i j : nat) (x : nat) :
  StronglySorted lt l → l !! i = Some x → l !! j = Some x → i = j.
Proof.
  intros Hs Hi Hj. apply StronglySorted_lt_NoDup in Hs.
  by eapply NoDup_lookup.
Qed.

(** X27. In a state with a track, whose waypoints are strictly
    increasing and on the track, the edit of the stops of the leg number
    [k] changes that leg of the table and no other: the leg keeps its
    distance, ascent, descent, base time and markup, its stops become the
    value entered and its total time is computed again from them, with the
    leg formula; the total kept for the summary card is the running sum of
    the total times of the legs shown. *)
Theorem setLegStops_legs (st : state) (k a b val : nat)
    (Htrack : trackLatLngs st ≠ [])
    (Hsorted : StronglySorted lt (roadbookIdx st))
    (Hbound : Forall (fun i => (i <= length (trackLatLngs st) - 1)%nat) (roadbookIdx st))
    (Hk : (1 <= k)%nat)
    (Ha : roadbookIdx st !! (k - 1)%nat = Some a)
    (Hb : roadbookIdx st !! k = Some b) :
  let st' := setLegStops (a, b) val st in
  let L := renderLeg st k in
  let stopsMin := inject_Z (Z.of_nat val) in
  let edited :=
    mkLeg k a b (l_distKm L) (l_ascM L) (l_desM L) (l_baseH L) stopsMin (l_condPct L)
      (l_baseH L * (1 + l_condPct L / 100) + stopsMin / 60)%Q in
  r_leg <$> roadbooksEl st' =
    <[(k - 1)%nat := edited]> (r_leg <$> roadbooksEl (renderRoadbooksTable st)) ∧
  lastTotalAdjustedH st' = runSum l_totalH (r_leg <$> roadbooksEl st').
Proof.
  intros st' L stopsMin edited.
  assert (Hwp : (2 <= length (roadbookIdx st))%nat).
  { apply lookup_lt_Some in Hb. lia. }
  subst st'. unfold setLegStops.
  set (st1 := mkState _ _ _ _ _ _ _ _ _ (<[(a, b) := _]> _) _ _ _ _ _ _ _).
  assert (Htrack1 : trackLatLngs st1 ≠ []) by done.
  assert (Hwp1 : (2 <= length (roadbookIdx st1))%nat) by done.
  destruct (rows_sums st1 Htrack1 Hwp1) as (_ & Htotal & _).
  rewrite (rows_legs st1 Htrack1 Hwp1), (rows_legs st Htrack Hwp).
  split; [| exact Htotal].
  assert (Hlen : length (legEntries st1) = length (legEntries st)).
  { unfold legEntries. by rewrite !length_map. }
  assert (Hlegs : length (legEntries st) = (length (roadbookIdx st) - 1)%nat).
  { unfold legEntries. by rewrite length_map, length_seq. }
  rewrite Forall_forall in Hbound.
  apply list_eq_same_length with (length (legEntries st));
    [by rewrite length_insert | done |].
  intros j L1 L2 Hj H1 H2.
  rewrite legEntries_lookup in H1 by (change (roadbookIdx st1) with (roadbookIdx st); lia).
  injection H1 as <-.
  destruct (lookup_lt_is_Some_2 (roadbookIdx st) j) as [a' Ha']; [lia |].
  destruct (lookup_lt_is_Some_2 (roadbookIdx st) (S j)) as [b' Hb']; [lia |].
  pose proof (Hbound a' (list_elem_of_lookup_2 _ _ _ Ha')) as Hale.
  pose proof (Hbound b' (list_elem_of_lookup_2 _ _ _ Hb')) as Hble.
  assert (Hleg1 : renderLeg st1 (S j) =
    let L' := renderLeg st (S j) in
    let stops' := default 0%Q (<[(a, b) := stopsMin]> (legStopsMin st) !! (a', b')) in
    mkLeg (S j) a' b' (l_distKm L') (l_ascM L') (l_desM L') (l_baseH L') stops'
      (l_condPct L') (l_baseH L' * (1 + l_condPct L' / 100) + stops' / 60)%Q).
  { unfold renderLeg. cbv zeta. subst st1.
    cbn [roadbookIdx trackLatLngs cumDistKm cumAscentM cumDescentM cumTimeH
         legStopsMin legCondPct Nat.sub].
    rewrite Nat.sub_0_r, Ha', Hb'. cbn [default from_option id].
    replace (Nat.max 0 (Nat.min a' (length (trackLatLngs st) - 1))) with a' by lia.
    replace (Nat.max 0 (Nat.min b' (length (trackLatLngs st) - 1))) with b' by lia.
    reflexivity. }
  rewrite Hleg1. cbv zeta.
  destruct (decide (S j = k)) as [<- | Hne].
  - cbn [Nat.sub] in Ha, H2. rewrite Nat.sub_0_r in Ha, H2.
    rewrite Ha in Ha'. injection Ha' as <-. rewrite Hb in Hb'. injection Hb' as <-.
    rewrite list_lookup_insert_eq in H2 by lia. injection H2 as <-.
    rewrite lookup_insert_eq. reflexivity.
  - rewrite list_lookup_insert_ne in H2 by lia.
    rewrite legEntries_lookup in H2 by lia. injection H2 as <-.
    rewrite lookup_insert_ne.
    2: { intros [= <- <-]. apply Hne.
         assert (j = (k - 1)%nat) by (by eapply sorted_lookup_inj). lia. }
    unfold renderLeg. cbv zeta. cbn [Nat.sub]. rewrite Nat.sub_0_r, Ha', Hb'.
    cbn [default from_option id].
    replace (Nat.max 0 (Nat.min a' (length (trackLatLngs st) - 1))) with a' by lia.
    replace (Nat.max 0 (Nat.min b' (length (trackLatLngs st) - 1))) with b' by lia.
    reflexivity.
Qed.

Lemma setLegStops_legs_witness :
  let st' := setLegStops (0, 2)%nat 20 withWaypoint in
  let L := renderLeg withWaypoint 1 in
  let stopsMin := inject_Z (Z.of_nat 20) in
  let edited :=
    mkLeg 1 0 2 (l_distKm L) (l_ascM L) (l_desM L) (l_baseH L) stopsMin (l_condPct L)
      (l_baseH L * (1 + l_condPct L / 100) + stopsMin / 60)%Q in
  r_leg <$> roadbooksEl st' =
    <[0%nat := edited]> (r_leg <$> roadbooksEl (renderRoadbooksTable withWaypoint)) ∧
  lastTotalAdjustedH st' = runSum l_totalH (r_leg <$> roadbooksEl st').
Proof.
  apply (setLegStops_legs withWaypoint 1 0 2 20);
    [discriminate | | | lia | by vm_compute | by vm_compute].
  - assert (roadbookIdx withWaypoint = [0; 2; 4]%nat) as -> by (by vm_compute).
    repeat constructor.
  - assert (roadbookIdx withWaypoint = [0; 2; 4]%nat) as -> by (by vm_compute).
    assert (length (trackLatLngs withWaypoint) = 5%nat) as -> by (by vm_compute).
    repeat constructor.
Defined.
